(** * TrDesign (tr/src/model.py): binning, sequence relaxation, loss
      composition and the [run] step of the design session.

    The numerical arrays of the program are modelled with exact numbers:
    rationals [Q] for the geometry binner, whose thresholds and comparisons
    are decided, and real numbers [R] for the differentiable part (softmax,
    logarithms, means).  The one rounding that decides bins is modelled: the
    conversion to [float32] that the binner applies to the geometry before it
    masks and bins it.  The rounding of arithmetic is not modelled. *)

From Stdlib Require Import String.
From Stdlib Require Import List Bool Arith ZArith QArith Qabs Lia Lqa.
From Stdlib Require Import Reals Lra Qreals.
Import ListNotations.

Set Implicit Arguments.

(** ** Indexing helpers shared by the array models *)

Definition at2 {A : Type} (m : list (list A)) (i j : nat) : option A :=
  match nth_error m i with
  | Some row => nth_error row j
  | None => None
  end.

(** Element-wise combination of two arrays of the same shape. *)
Fixpoint map2 {A B C : Type} (f : A -> B -> C) (xs : list A) (ys : list B)
  : list C :=
  match xs, ys with
  | x :: xs', y :: ys' => f x y :: map2 f xs' ys'
  | _, _ => []
  end.

(** Element-wise combination along one axis as NumPy and JAX broadcast it:
    an operand of length one is repeated along the other.  Whether the two
    lengths can be combined at all is [fits_axis]; the operations that
    combine arrays of unknown shapes test it first and raise otherwise. *)
Definition bmap2 {A B C : Type} (f : A -> B -> C) (xs : list A)
    (ys : list B) : list C :=
  match xs, ys with
  | [x], _ => map (f x) ys
  | _, [y] => map (fun x => f x y) xs
  | _, _ => map2 f xs ys
  end.

Definition fits_axis {A B : Type} (xs : list A) (ys : list B) : bool :=
  Nat.eqb (length xs) (length ys) || Nat.eqb (length xs) 1
  || Nat.eqb (length ys) 1.

(** Two arrays of rank two, and of rank three, can be broadcast together:
    along every axis the lengths are equal or one of them is 1.  (A list has
    no shape beyond its own entries: an array without rows fits whatever the
    columns of the other.) *)
Definition fits2 {A B : Type} (a : list (list A)) (b : list (list B))
  : bool :=
  fits_axis a b && forallb (fun r => forallb (fits_axis r) b) a.

Definition fits3 {A B : Type} (a : list (list (list A)))
    (b : list (list (list B))) : bool :=
  fits_axis a b && forallb (fun m => forallb (fits2 m) b) a.

(** A square array of side [n]. *)
Definition square {A : Type} (n : nat) (m : list (list A)) : Prop :=
  length m = n /\ Forall (fun row => length row = n) m.

(** ** GeometryBinner: [_np_get_6D_binned] and its local [mtx2bins] *)

Module GeometryBinner.

Local Open Scope Q_scope.

(** The value of the double [np.pi], which is a rational number. *)
Definition np_pi : Q := 884279719003555 # 281474976710656.

(** [np.linspace(start, stop, num)]: [num] evenly spaced points from [start]
    to [stop], both included.  The points are computed exactly.  NumPy
    rounds each of them to [float64]: the thresholds of the distance
    (2.0, 2.5, ..., 20.0) and the two ends of every grid are what they are
    here, the inner thresholds of the angle channels are within 1e-15 of
    what they are here. *)
Definition linspace (start stop : Q) (num : nat) : list Q :=
  let step := (stop - start) / inject_Z (Z.of_nat (num - 1)) in
  map (fun i => inject_Z (Z.of_nat i) * step + start) (seq 0 num).

(** [np.digitize(x, bins)] for increasing [bins]: the index [i] with
    [bins[i-1] <= x < bins[i]], that is, how many leading thresholds are
    at most [x]. *)
Fixpoint digitize (x : Q) (bins : list Q) : nat :=
  match bins with
  | [] => 0
  | b :: bs => if Qle_bool b x then S (digitize x bs) else 0
  end.

(** [.astype(np.uint8)] *)
Definition as_uint8 (n : nat) : nat := n mod 256.

(** Row [r] of [np.eye(n)]. *)
Definition eye_row (n r : nat) : list Q :=
  map (fun c => if Nat.eqb c r then 1 else 0) (seq 0 n).

(** [np.eye(nbins+1)[x_true][...,:-1]] at one pair. *)
Definition one_hot_drop_last (nbins r : nat) : list Q :=
  removelast (eye_row (nbins + 1) r).

Definition mtx2bins (x_ref : list (list Q)) (start stop : Q) (nbins : nat)
    (mask : list (list bool)) : list (list (list Q)) :=
  let bins := linspace start stop nbins in
  let x_true := map (map (fun x => as_uint8 (digitize x bins))) x_ref in
  let x_true := map2 (map2 (fun (m : bool) x => if m then 0%nat else x))
                     mask x_true in
  map (map (one_hot_drop_last nbins)) x_true.

(** The four channels of the 6D description of a structure. *)
Record Geom (A : Type) : Type := mkGeom {
  dist : A; omega : A; theta : A; phi : A
}.

(** [np.eye(n) == 1] *)
Definition eye_mask (n : nat) : list (list bool) :=
  map (fun i => map (fun j => Nat.eqb i j) (seq 0 n)) (seq 0 n).

(** [(ref["dist"] > 20) | (np.eye(ref["dist"].shape[0]) == 1)] *)
Definition pair_mask (d : list (list Q)) : list (list bool) :=
  map2 (map2 orb)
       (map (map (fun x => negb (Qle_bool x 20))) d)
       (eye_mask (length d)).

(** [2**e] *)
Definition pow2 (e : Z) : Q :=
  if (0 <=? e)%Z then inject_Z (2 ^ e) else 1 / inject_Z (2 ^ (- e)).

(** The integer nearest to a rational, a tie going to the even one. *)
Definition round_half_even (x : Q) : Z :=
  let n := Qnum x in
  let d := Zpos (Qden x) in
  let k := (n / d)%Z in
  match (2 * (n mod d) ?= d)%Z with
  | Lt => k
  | Gt => (k + 1)%Z
  | Eq => if Z.even k then k else (k + 1)%Z
  end.

(** The exponent [e] with [2**e <= a < 2**(e+1)], for a positive [a]. *)
Definition binade (a : Q) : Z :=
  let e := (Z.log2 (Qnum a) - Z.log2 (Zpos (Qden a)))%Z in
  if Qle_bool (pow2 e) a then e else (e - 1)%Z.

(** The conversion of a number to [float32], as JAX makes it of the
    [float64] (or [float32]) entries of a NumPy array: the nearest number
    with a significand of 24 bits, a tie going to the even significand;
    below [2**-126] the spacing stays [2**-149].  What rounds to [2**128] or
    beyond becomes an infinity, for which [2**128] stands here: it compares
    with every threshold of the binner as the infinity does. *)
Definition to_float32 (x : Q) : Q :=
  if Qeq_bool x 0 then 0 else
  let e := Z.max (binade (Qabs x)) (-126) in
  let ulp := pow2 (e - 23) in
  let y := inject_Z (round_half_even (x / ulp)) * ulp in
  if Qle_bool (pow2 128) y then pow2 128
  else if Qle_bool y (- pow2 128) then - pow2 128
  else y.

(** [jnp.squeeze] on the matrix of a chain of several residues: no axis is
    dropped, and the result is a JAX array, of type [float32]. *)
Definition squeeze (m : list (list Q)) : list (list Q) :=
  map (map to_float32) m.

(** [jax.tree_map(jnp.squeeze, ref)] followed by [ref["dist"].shape[0]]:
    squeezing drops every axis of length one, so the matrices of a chain of
    one residue become scalars and taking [shape[0]] raises. *)
Definition squeeze_fails (ref : Geom (list (list Q))) : bool :=
  Nat.eqb (length (dist ref)) 1.

(** The body of [_np_get_6D_binned] after the call of [_np_get_6D], whose
    result is [ref] (four matrices, one entry per residue pair). *)
Definition np_get_6D_binned (ref : Geom (list (list Q)))
  : option (Geom (list (list (list Q)))) :=
  if squeeze_fails ref then None else
  let ref := {| dist := squeeze (dist ref); omega := squeeze (omega ref);
                theta := squeeze (theta ref); phi := squeeze (phi ref) |} in
  let mask := pair_mask (dist ref) in
  Some {| dist  := mtx2bins (dist ref)  2 20 37 mask;
          omega := mtx2bins (omega ref) (- np_pi) np_pi 25 mask;
          theta := mtx2bins (theta ref) (- np_pi) np_pi 25 mask;
          phi   := mtx2bins (phi ref)   0 np_pi 13 mask |}.

(** Names for the channels, to state properties once for all four. *)
Inductive channel : Type := Dist | Omega | Theta | Phi.

Definition chan {A : Type} (c : channel) (g : Geom A) : A :=
  match c with
  | Dist => dist g | Omega => omega g | Theta => theta g | Phi => phi g
  end.

Definition chan_start (c : channel) : Q :=
  match c with Dist => 2 | Omega | Theta => - np_pi | Phi => 0 end.

Definition chan_stop (c : channel) : Q :=
  match c with Dist => 20 | _ => np_pi end.

Definition chan_nbins (c : channel) : nat :=
  match c with Dist => 37%nat | Omega | Theta => 25%nat | Phi => 13%nat end.

Definition qsum (v : list Q) : Q := fold_right Qplus 0 v.

(** The bin index stored for a pair: position of the entry 1, if any. *)
Fixpoint bin_index (v : list Q) : option nat :=
  match v with
  | [] => None
  | x :: v' => if Qeq_bool x 1 then Some 0%nat
               else option_map S (bin_index v')
  end.

(** The bin vector that the binner stores for one pair of one channel. *)
Definition pair_row (c : channel) (masked : bool) (x : Q) : list Q :=
  one_hot_drop_last (chan_nbins c)
    (if masked then 0%nat
     else digitize x (linspace (chan_start c) (chan_stop c) (chan_nbins c))).

(** A well-formed result of [_np_get_6D] for a chain of [n] residues. *)
Definition ref_shape (n : nat) (ref : Geom (list (list Q))) : Prop :=
  square n (dist ref) /\ square n (omega ref) /\
  square n (theta ref) /\ square n (phi ref).

(** [all_atom_mask]: one row per residue, one flag per atom, [false] for
    an atom that is missing.  A pair involves missing atoms when one of its
    two residues has such a flag. *)
Definition residue_missing (all_atom_mask : list (list bool)) (i : nat)
  : bool :=
  match nth_error all_atom_mask i with
  | Some row => negb (forallb (fun b => b) row)
  | None => false
  end.

Definition pair_missing (all_atom_mask : list (list bool)) (i j : nat)
  : bool :=
  residue_missing all_atom_mask i || residue_missing all_atom_mask j.

(** [_np_get_6D_binned(all_atom_positions, all_atom_mask)]: the two
    arguments go to [_np_get_6D], which lives in another file
    (af/src/misc.py) and is a parameter here; nothing else reads them. *)
Definition binned_of {Coords : Type}
    (np_get_6D : list Coords -> list (list bool) -> Geom (list (list Q)))
    (all_atom_positions : list Coords) (all_atom_mask : list (list bool))
  : option (Geom (list (list (list Q)))) :=
  np_get_6D_binned (np_get_6D all_atom_positions all_atom_mask).

(** Example inputs: results of [_np_get_6D] for two residues. *)
Definition const_geom (d : list (list Q)) : Geom (list (list Q)) :=
  {| dist := d; omega := [[0; 0]; [0; 0]]; theta := [[0; 0]; [0; 0]];
     phi := [[0; 0]; [0; 0]] |}.

(** Two residues whose distance lies exactly on the upper edge 20.0. *)
Definition edge_ref : Geom (list (list Q)) := const_geom [[0; 20]; [20; 0]].

(** Two residues closer than the lower edge 2.0. *)
Definition close_ref : Geom (list (list Q)) := const_geom [[0; 1]; [1; 0]].

(** Two residues reported 5.0 apart, and an atom mask that marks an atom
    of the second one missing. *)
Definition gap_ref : Geom (list (list Q)) := const_geom [[0; 5]; [5; 0]].
Definition gap_mask : list (list bool) := [[true; true]; [true; false]].

(** Two residues whose distance is the [float64] nearest to 19.9999999999,
    to 20.0000001 and to 1.9999999999. *)
Definition below_edge_ref : Geom (list (list Q)) :=
  const_geom [[0; 5629499534184973 # 281474976710656];
              [5629499534184973 # 281474976710656; 0]].

Definition above_edge_ref : Geom (list (list Q)) :=
  const_geom [[0; 2814749781180309 # 140737488355328];
              [2814749781180309 # 140737488355328; 0]].

Definition below_low_ref : Geom (list (list Q)) :=
  const_geom [[0; 1125899906786329 # 562949953421312];
              [1125899906786329 # 562949953421312; 0]].

End GeometryBinner.

(** ** Nested dictionaries and [jax.tree_map] *)

Module PyTree.

(** A dictionary of dictionaries with string keys and leaves of type [A].
    A dictionary is an association list without repeated keys. *)
#[local] Unset Elimination Schemes.
Inductive pytree (A : Type) : Type :=
| Leaf (a : A)
| Dict (kids : list (string * pytree A)).

#[local] Set Elimination Schemes.

Arguments Leaf {A} a.
Arguments Dict {A} kids.

Fixpoint lookup {V : Type} (k : string) (d : list (string * V)) : option V :=
  match d with
  | [] => None
  | (k', v) :: d' => if String.eqb k k' then Some v else lookup k d'
  end.

(** [d[k] = v] *)
Fixpoint dict_set {V : Type} (k : string) (v : V) (d : list (string * V))
  : list (string * V) :=
  match d with
  | [] => [(k, v)]
  | (k', v') :: d' =>
      if String.eqb k k' then (k, v) :: d' else (k', v') :: dict_set k v d'
  end.

Definition keys {V : Type} (d : list (string * V)) : list string :=
  map fst d.

(** [jax.tree_map(f, tree)] *)
Fixpoint tree_map {A B : Type} (f : A -> B) (t : pytree A) : pytree B :=
  match t with
  | Leaf a => Leaf (f a)
  | Dict kids => Dict (map (fun kv => (fst kv, tree_map f (snd kv))) kids)
  end.

(** [jax.tree_leaves(tree)].  JAX lists the leaves by sorted key; the only
    use here is a sum of real numbers, which does not depend on the order. *)
Fixpoint tree_leaves {A : Type} (t : pytree A) : list A :=
  match t with
  | Leaf a => [a]
  | Dict kids => flat_map (fun kv => tree_leaves (snd kv)) kids
  end.

(** The leaf under a path of keys. *)
Fixpoint leaf_at {A : Type} (path : list string) (t : pytree A) : option A :=
  match t, path with
  | Leaf a, [] => Some a
  | Dict kids, k :: path' =>
      (fix find (d : list (string * pytree A)) : option A :=
         match d with
         | [] => None
         | (k', sub) :: d' =>
             if String.eqb k k' then leaf_at path' sub else find d'
         end) kids
  | _, _ => None
  end.

Definition as_leaf {A : Type} (t : pytree A) : option A :=
  match t with Leaf a => Some a | Dict _ => None end.

Definition as_dict {A : Type} (t : pytree A)
  : option (list (string * pytree A)) :=
  match t with Leaf _ => None | Dict kids => Some kids end.

(** Sequencing of fallible steps over a list. *)
Fixpoint mapM {X Y : Type} (f : X -> option Y) (xs : list X)
  : option (list Y) :=
  match xs with
  | [] => Some []
  | x :: xs' =>
      match f x, mapM f xs' with
      | Some y, Some ys => Some (y :: ys)
      | _, _ => None
      end
  end.

(** Two dictionaries have the same keys. *)
Definition same_keys {V W : Type} (d1 : list (string * V))
    (d2 : list (string * W)) : bool :=
  Nat.eqb (length d1) (length d2) &&
  forallb (fun k => existsb (String.eqb k) (keys d2)) (keys d1).

(** The entries of a dictionary combined, key by key, with the entries of
    the same key in the dictionaries [rkids]. *)
Definition map_kids {A B : Type}
    (rec : pytree A -> list (pytree A) -> option (pytree B))
    (rkids : list (list (string * pytree A)))
  : list (string * pytree A) -> option (list (string * pytree B)) :=
  fix go (d : list (string * pytree A)) :=
    match d with
    | [] => Some []
    | kv :: d' =>
        match mapM (lookup (fst kv)) rkids with
        | None => None
        | Some subs =>
            match rec (snd kv) subs, go d' with
            | Some r, Some rs => Some ((fst kv, r) :: rs)
            | _, _ => None
            end
        end
    end.

(** [jax.tree_map(f, tree, *rest)] for a function of the leaves of all the
    trees.  Every tree of [rest] must have the structure of [tree]: a
    dictionary with other keys, or a dictionary where [tree] has a leaf,
    raises; so does [f] when it is handed something it cannot combine. *)
Fixpoint tree_map_n {A B : Type} (f : list A -> option B) (t : pytree A)
    (rest : list (pytree A)) : option (pytree B) :=
  match t with
  | Leaf a =>
      match mapM as_leaf rest with
      | Some bs => option_map Leaf (f (a :: bs))
      | None => None
      end
  | Dict kids =>
      match mapM as_dict rest with
      | None => None
      | Some rkids =>
          if forallb (same_keys kids) rkids then
            option_map Dict (map_kids (tree_map_n f) rkids kids)
          else None
      end
  end.

(** What [jax.tree_map] over several trees leaves under a path: nothing
    where the first tree has no leaf; where it has one, every other tree
    has one too, and the result holds [f] of these leaves. *)
Definition leafwise {A B : Type} (f : list A -> option B) (t : pytree A)
    (rest : list (pytree A)) (r : pytree B) (p : list string) : Prop :=
  (leaf_at p t = None -> leaf_at p r = None) /\
  (forall a, leaf_at p t = Some a ->
     exists bs b, mapM (leaf_at p) rest = Some bs /\
                  f (a :: bs) = Some b /\ leaf_at p r = Some b).

(** Modelled from the spec: [update_dict] lives in another file
    (tr/src/utils.py).  The spec calls it a merge-update of nested mappings
    that never replaces a mapping wholesale: the entries of the update are
    written into the target, dictionaries being merged key by key. *)
Fixpoint update_dict {A : Type} (d : pytree A) (x : pytree A) : pytree A :=
  match x with
  | Leaf a => Leaf a
  | Dict xs =>
      let target := match d with Dict ds => ds | Leaf _ => [] end in
      Dict (fold_left
              (fun acc kv =>
                 let old := match lookup (fst kv) acc with
                            | Some o => o
                            | None => Dict []
                            end in
                 dict_set (fst kv) (update_dict old (snd kv)) acc)
              xs target)
  end.

End PyTree.

(** ** Arrays of real numbers *)

Module Arrays.

Local Open Scope R_scope.

Definition matrix : Type := list (list R).
Definition tensor3 : Type := list (list (list R)).

Definition rsum (v : list R) : R := fold_right Rplus 0 v.

(** [x.mean()] of a vector. *)
Definition rmean (v : list R) : R := rsum v / INR (length v).

(** [x.mean()] over all the entries of a matrix. *)
Definition mean_all (m : matrix) : R := rmean (concat m).

(** [jax.nn.softmax] and [jax.nn.log_softmax] along the last axis. *)
Definition softmax (v : list R) : list R :=
  map (fun x => exp x / rsum (map exp v)) v.

Definition log_softmax (v : list R) : list R :=
  map (fun x => x - ln (rsum (map exp v))) v.

(** [x.argmax(-1)]: the first index of the largest entry. *)
Fixpoint argmax_from (best : R) (besti i : nat) (v : list R) : nat :=
  match v with
  | [] => besti
  | x :: v' => if Rlt_dec best x then argmax_from x i (S i) v'
               else argmax_from best besti (S i) v'
  end.

Definition argmax (v : list R) : nat :=
  match v with
  | [] => 0%nat
  | x :: v' => argmax_from x 0 1 v'
  end.

(** [jax.nn.one_hot(i, n)]: all zero when [i] is not below [n]. *)
Definition one_hot (n i : nat) : list R :=
  map (fun c => if Nat.eqb c i then 1 else 0) (seq 0 n).

(** [jnp.zeros_like] *)
Definition zeros_like (m : matrix) : matrix := map (map (fun _ => 0)) m.

(** [m[i, :] = r]; an index out of range is dropped. *)
Fixpoint set_row (i : nat) (r : list R) (m : matrix) : matrix :=
  match m, i with
  | [], _ => []
  | _ :: m', O => r :: m'
  | row :: m', S i' => row :: set_row i' r m'
  end.

(** Row [pos[k]] becomes [ref[k]], for [k] in turn. *)
Definition write_rows (pos : list nat) (ref : matrix) (m : matrix)
  : matrix :=
  fold_left (fun acc pr => set_row (fst pr) (snd pr) acc) (combine pos ref) m.

(** A row as broadcast to the width [w]: a single entry is repeated. *)
Definition widen (w : nat) (r : list R) : list R :=
  match r with
  | [v] => repeat v w
  | _ => r
  end.

Definition width (m : matrix) : nat :=
  match m with
  | [] => 0
  | row :: _ => length row
  end.

(** [m.at[pos, :].set(ref)]: [ref] is broadcast to the rows that [pos]
    selects, so it must have as many rows as [pos] has indices, or a single
    one, and its rows must be as wide as those of [m], or hold a single
    entry; otherwise the call raises.  Then row [pos[k]] becomes [ref[k]];
    an index past the end is dropped.  (For an index listed twice XLA leaves
    the order of the writes open; here the later one wins.) *)
Definition at_set_rows (pos : list nat) (ref : matrix) (m : matrix)
  : option matrix :=
  if (Nat.eqb (length ref) (length pos) || Nat.eqb (length ref) 1)
     && forallb (fun row =>
                   forallb (fun r => Nat.eqb (length r) (length row)
                                     || Nat.eqb (length r) 1) ref) m
  then
    let rows := if Nat.eqb (length ref) (length pos) then ref
                else repeat (hd [] ref) (length pos) in
    Some (write_rows pos (map (widen (width m)) rows) m)
  else None.

(** [x[pos]] along the first axis; JAX clamps an index past the end. *)
Definition gather {A : Type} (pos : list nat) (xs : list A) : list A :=
  flat_map (fun p => match nth_error xs (Nat.min p (length xs - 1)) with
                     | Some x => [x]
                     | None => []
                     end) pos.

(** [x[:, pos][pos, :]] *)
Definition submatrix {A : Type} (pos : list nat) (x : list (list A))
  : list (list A) :=
  gather pos (map (gather pos) x).

(** The entry of a matrix, or of an array of rank three, if it is there. *)
Definition entry2 (m : matrix) (i j : nat) : option R := at2 m i j.

Definition entry3 (t : tensor3) (i j b : nat) : option R :=
  match nth_error t i with
  | Some m => at2 m j b
  | None => None
  end.

(** [jnp.stack(v).mean(0)]: the mean across a list of arrays of one shape.
    Stacking nothing, or arrays of different shapes, raises. *)
Class StackMean (A : Type) : Type := stack_mean : list A -> option A.

#[export] Instance StackMean_R : StackMean R :=
  fun vs => match vs with
            | [] => None
            | _ => Some (rmean vs)
            end.

Definition uncons {A : Type} (v : list A) : option (A * list A) :=
  match v with
  | [] => None
  | x :: v' => Some (x, v')
  end.

(** The columns of a list of equally long vectors, the first given apart. *)
Fixpoint columns {A : Type} (v : list A) (rest : list (list A))
  : option (list (list A)) :=
  match v with
  | [] => if forallb (fun r => Nat.eqb (length r) 0) rest
          then Some [] else None
  | x :: v' =>
      match PyTree.mapM uncons rest with
      | None => None
      | Some hts =>
          match columns v' (map snd hts) with
          | None => None
          | Some cols => Some ((x :: map fst hts) :: cols)
          end
      end
  end.

#[export] Instance StackMean_list (A : Type) `{StackMean A}
  : StackMean (list A) :=
  fun vs => match vs with
            | [] => None
            | v :: rest =>
                match columns v rest with
                | None => None
                | Some cols => PyTree.mapM stack_mean cols
                end
            end.

End Arrays.

(** ** SequenceRelaxer: [_get_seq] *)

Module SequenceRelaxer.

Import PyTree Arrays.
Local Open Scope R_scope.

Inductive protocol : Type := fixbb | hallucination | partial.

Definition is_partial (p : protocol) : bool :=
  match p with partial => true | _ => false end.

(** [self.opt]: the control options of the session. *)
Record Options : Type := mkOptions {
  temp : R;
  soft : R;
  hard : R;
  model_num : Z;
  model_sample : bool;
  weights : pytree R;
  pos : option (list nat)
}.

(** The dictionary [seq] of the five views of the sequence. *)
Record Seq : Type := mkSeq {
  input : matrix;
  logits : matrix;
  soft_view : matrix;
  hard_view : matrix;
  pseudo : matrix
}.

(** [jax.tree_map(f, seq)] for an [f] that may raise. *)
Definition seq_map (f : matrix -> option matrix) (s : Seq) : option Seq :=
  match f (input s), f (logits s), f (soft_view s), f (hard_view s),
        f (pseudo s) with
  | Some a, Some b, Some c, Some d, Some e =>
      Some {| input := a; logits := b; soft_view := c; hard_view := d;
              pseudo := e |}
  | _, _, _, _, _ => None
  end.

Definition scale (c : R) (m : matrix) : matrix := map (map (Rmult c)) m.
Definition madd (a b : matrix) : matrix := bmap2 (bmap2 Rplus) a b.
Definition msub (a b : matrix) : matrix := bmap2 (bmap2 Rminus) a b.

(** The forward value of [jax.lax.stop_gradient] is its argument. *)
Definition stop_gradient (m : matrix) : matrix := m.

(** The views before the overwrite of partial mode, for logits with which
    the steps do not raise (see [relaxes]). *)
Definition relax (x : matrix) (opt : Options) : Seq :=
  let logits := scale 2 x in
  let soft_v := map softmax (map (map (fun l => l / temp opt)) logits) in
  let hard_v := map (fun row => one_hot 20 (argmax row)) soft_v in
  let hard_v := madd (stop_gradient (msub hard_v soft_v)) soft_v in
  let pseudo_v := madd (scale (soft opt) soft_v) (scale (1 - soft opt) x) in
  let pseudo_v :=
    madd (scale (hard opt) hard_v) (scale (1 - hard opt) pseudo_v) in
  {| input := x; logits := logits; soft_view := soft_v;
     hard_view := hard_v; pseudo := pseudo_v |}.

(** The views of one row of the logits. *)
Definition row_soft (o : Options) (r : list R) : list R :=
  softmax (map (fun l => l / temp o) (map (Rmult 2) r)).

Definition row_hard (o : Options) (r : list R) : list R :=
  bmap2 Rplus
    (bmap2 Rminus (one_hot 20 (argmax (row_soft o r))) (row_soft o r))
    (row_soft o r).

Definition row_pseudo (o : Options) (r : list R) : list R :=
  bmap2 Rplus (map (Rmult (hard o)) (row_hard o r))
    (map (Rmult (1 - hard o))
       (bmap2 Rplus (map (Rmult (soft o)) (row_soft o r))
                    (map (Rmult (1 - soft o)) r))).

(** The logits with which the steps of [_get_seq] do not raise: the
    one-hot of 20 entries per row is combined with rows of the width of the
    logits, which therefore have 20 columns or, being broadcast, a single
    one.  (The arg-max of rows without entries raises.) *)
Definition relaxes (x : matrix) : bool :=
  forallb (fun r => Nat.eqb (length r) 20) x
  || forallb (fun r => Nat.eqb (length r) 1) x.

(** The reference residues can be written at the configured positions:
    there is one of them per position, or a single one. *)
Definition reference_fits (proto : protocol) (o : Options)
    (aatype : list nat) : Prop :=
  match is_partial proto, pos o with
  | true, Some p => length aatype = length p \/ length aatype = 1%nat
  | _, _ => True
  end.

(** [_get_seq(params, opt)], with the protocol and [self._batch["aatype"]]
    of the session.  [params["seq"]] must be there. *)
Definition get_seq (proto : protocol) (aatype : list nat)
    (params : pytree matrix) (opt : Options) : option Seq :=
  match leaf_at ["seq"%string] params with
  | None => None
  | Some x =>
      if relaxes x then
        let seq := relax x opt in
        match is_partial proto, pos opt with
        | true, Some p =>
            let seq_ref := map (one_hot 20) aatype in
            seq_map (at_set_rows p seq_ref) seq
        | _, _ => Some seq
        end
      else None
  end.

End SequenceRelaxer.

(** ** LossComposer: [_get_loss] *)

Module LossComposer.

Import GeometryBinner PyTree Arrays SequenceRelaxer.
Local Open Scope R_scope.
Local Open Scope string_scope.

(** [jax.tree_map(f, outputs)] on the four channels of the prediction. *)
Definition geom_map {A B : Type} (f : A -> B) (g : Geom A) : Geom B :=
  {| dist := f (dist g); omega := f (omega g);
     theta := f (theta g); phi := f (phi g) |}.

(** The dictionary built by [for k in ["dist","omega","theta","phi"]]. *)
Definition per_channel (f : channel -> R) : pytree R :=
  Dict [("dist", Leaf (f Dist)); ("omega", Leaf (f Omega));
        ("theta", Leaf (f Theta)); ("phi", Leaf (f Phi))].

Definition t3_map (f : list R -> list R) (t : tensor3) : tensor3 :=
  map (map f) t.

Definition t3_mul (a b : tensor3) : tensor3 :=
  bmap2 (bmap2 (bmap2 Rmult)) a b.
Definition t3_sub (a b : tensor3) : tensor3 :=
  bmap2 (bmap2 (bmap2 Rminus)) a b.

(** [x.sum(-1).mean()] *)
Definition sum_last_mean (t : tensor3) : R := mean_all (map (map rsum) t).

(** [-(p*(log_p-log_q)).sum(-1).mean()], for a prediction and a background
    that can be broadcast together. *)
Definition bkg_term (outputs bkg : tensor3) : R :=
  - sum_last_mean (t3_mul (t3_map softmax outputs)
                          (t3_sub (t3_map log_softmax outputs)
                                  (t3_map log_softmax bkg))).

(** [-(q*log_p).sum(-1).mean()], for a target and log-probabilities that
    can be broadcast together. *)
Definition cce_term (q log_p : tensor3) : R :=
  - sum_last_mean (t3_mul q log_p).

(** The dictionary [aux]; [self._aux["model_num"]] is absent until [run]
    records the instances it used. *)
Record Aux : Type := mkAux {
  outputs : Geom tensor3;
  losses : pytree R;
  model_num_used : option (list nat)
}.

Definition uses_bkg (p : protocol) : bool :=
  match p with hallucination | partial => true | fixbb => false end.

Definition uses_cce (p : protocol) : bool :=
  match p with fixbb | partial => true | hallucination => false end.

(** The four channels of two descriptions can be combined. *)
Definition geoms_fit (a b : Geom tensor3) : bool :=
  fits3 (dist a) (dist b) && fits3 (omega a) (omega b)
  && fits3 (theta a) (theta b) && fits3 (phi a) (phi b).

(** [aux["losses"]] as the two blocks of [_get_loss] fill it.  The
    products [p[k]*(log_p[k]-log_q[k])] and [q[k]*log_p[k]] raise when their
    operands cannot be broadcast together. *)
Definition loss_terms (proto : protocol)
    (feats bkg_feats : option (Geom tensor3))
    (out : Geom tensor3) (opt : Options) : option (pytree R) :=
  let log_p := geom_map (t3_map log_softmax) out in
  let bkg_block :=
    if uses_bkg proto then
      match bkg_feats with
      | None => None
      | Some b =>
          if geoms_fit out b then
            Some [("bkg",
                   per_channel (fun k => bkg_term (chan k out) (chan k b)))]
          else None
      end
    else Some [] in
  let cce_block :=
    if uses_cce proto then
      let log_p :=
        match is_partial proto, pos opt with
        | true, Some p => geom_map (submatrix p) log_p
        | _, _ => log_p
        end in
      match feats with
      | None => None
      | Some q =>
          if geoms_fit q log_p then
            Some [("cce",
                   per_channel (fun k => cce_term (chan k q) (chan k log_p)))]
          else None
      end
    else Some [] in
  match bkg_block, cce_block with
  | Some b, Some c => Some (Dict (b ++ c))
  | _, _ => None
  end.

(** [lambda l, w: l * w] *)
Definition times (vs : list R) : option R :=
  match vs with
  | [l; w] => Some (l * w)
  | _ => None
  end.

(** [jax.tree_map(lambda l, w: l * w, aux["losses"], opt["weights"])]
    followed by [sum(jax.tree_leaves(...))]. *)
Definition weighted_total (ls ws : pytree R) : option R :=
  match tree_map_n times ls [ws] with
  | None => None
  | Some weighted => Some (fold_left Rplus (tree_leaves weighted) 0)
  end.

(** [_get_loss(outputs, opt)] *)
Definition get_loss (proto : protocol) (feats bkg_feats : option (Geom tensor3))
    (out : Geom tensor3) (opt : Options) : option (R * Aux) :=
  match loss_terms proto feats bkg_feats out opt with
  | None => None
  | Some ls =>
      match weighted_total ls (weights opt) with
      | None => None
      | Some loss =>
          Some (loss, {| outputs := out; losses := ls;
                         model_num_used := None |})
      end
  end.

(** The prediction can be combined with the cached features: with the
    background where the protocol has a background term, and, for the
    target-matching term, its log-probabilities (their sub-matrix in
    partial mode with positions) with the target. *)
Definition loss_shapes_fit (proto : protocol)
    (feats bkg_feats : option (Geom tensor3))
    (out : Geom tensor3) (opt : Options) : bool :=
  let log_p := geom_map (t3_map log_softmax) out in
  (if uses_bkg proto then
     match bkg_feats with Some b => geoms_fit out b | None => true end
   else true)
  && (if uses_cce proto then
        match feats with
        | Some q =>
            geoms_fit q
              match is_partial proto, pos opt with
              | true, Some p => geom_map (submatrix p) log_p
              | _, _ => log_p
              end
        | None => true
        end
      else true).

End LossComposer.

(** ** DesignSession: the state of [mk_trdesign_model] and [run] *)

Module DesignSession.

Import GeometryBinner PyTree Arrays SequenceRelaxer LossComposer.
Local Open Scope R_scope.
Local Open Scope string_scope.

(** What the program takes from JAX and from the predictor, which are not
    part of it: random keys with [jax.random.split] and
    [jax.random.choice(key, ns, (m,), replace=False)], the network
    [TrRosetta()] applied to a pseudo-sequence and one parameter set, and
    the gradient with respect to the first argument.  A draw without
    replacement of a non-negative number of members gives that many
    distinct members, or raises.  Nothing is assumed of a draw of a negative
    number of members (JAX then cuts a permutation with a negative slice
    bound). *)
Class Jax : Type := {
  Key : Type;
  split : Key -> Key * Key;
  choice : Key -> list nat -> Z -> option (list nat);
  choice_distinct : forall k ns m l,
    choice k ns m = Some l ->
    NoDup ns -> (0 <= m)%Z ->
    NoDup l /\ incl l ns /\ Z.of_nat (length l) = m;
  ModelParams : Type;
  runner : matrix -> ModelParams -> option (Geom tensor3);
  grad_of : (pytree matrix -> option (R * Aux)) -> pytree matrix
            -> pytree matrix
}.

Section Session.

Context {J : Jax}.

(** The attributes of the session object. *)
Record Session : Type := mkSession {
  protocol_of : protocol;
  opt : Options;
  params : pytree matrix;
  _key : Key;
  _model_params : list ModelParams;
  aatype : list nat;
  feats : option (Geom tensor3);
  bkg_feats : option (Geom tensor3);
  _loss : option R;
  _aux : option Aux;
  _grad : option (pytree matrix)
}.

(** [_model(params, model_params, opt)] *)
Definition _model (s : Session) (ps : pytree matrix) (mp : ModelParams)
    (o : Options) : option (R * Aux) :=
  match get_seq (protocol_of s) (aatype s) ps o with
  | None => None
  | Some seq =>
      match runner (pseudo seq) mp with
      | None => None
      | Some out => get_loss (protocol_of s) (feats s) (bkg_feats s) out o
      end
  end.

(** [jax.value_and_grad(f, has_aux=True, argnums=0)]: the value of [f]
    together with its gradient in the first argument. *)
Definition value_and_grad (f : pytree matrix -> option (R * Aux))
    (ps : pytree matrix) : option ((R * Aux) * pytree matrix) :=
  match f ps with
  | None => None
  | Some v => Some (v, grad_of f ps)
  end.

(** [self._grad_fn, self._fn = [jax.jit(x) for x in self._get_model()]] *)
Definition _grad_fn (s : Session) (ps : pytree matrix) (mp : ModelParams)
    (o : Options) : option ((R * Aux) * pytree matrix) :=
  value_and_grad (fun x => _model s x mp o) ps.

Definition _fn (s : Session) (ps : pytree matrix) (mp : ModelParams)
    (o : Options) : option (R * Aux) :=
  _model s ps mp o.

(** The dictionary [opt] that a caller hands to [run] or [set_opt]: the
    entries it names. *)
Record OptUpdate : Type := mkOptUpdate {
  u_temp : option R;
  u_soft : option R;
  u_hard : option R;
  u_model_num : option Z;
  u_model_sample : option bool;
  u_weights : option (pytree R);
  u_pos : option (list nat)
}.

Definition or_keep {A : Type} (new : option A) (old : A) : A :=
  match new with Some a => a | None => old end.

Definition merge_weights (old : pytree R) (new : option (pytree R))
  : pytree R :=
  match new with Some w => update_dict old w | None => old end.

(** Modelled from the spec: [set_opt], that is [update_dict(self.opt, opt)]
    with the absent [update_dict]: the options are merged entry by entry,
    nested mappings being merged, never replaced wholesale. *)
Definition set_opt (o : Options) (u : option OptUpdate) : Options :=
  match u with
  | None => o
  | Some u =>
      {| temp := or_keep (u_temp u) (temp o);
         soft := or_keep (u_soft u) (soft o);
         hard := or_keep (u_hard u) (hard o);
         model_num := or_keep (u_model_num u) (model_num o);
         model_sample := or_keep (u_model_sample u) (model_sample o);
         weights := merge_weights (weights o) (u_weights u);
         pos := match u_pos u with Some p => Some p | None => pos o end |}
  end.

(** [set_weights], that is [update_dict(self.opt["weights"], weights)]. *)
Definition set_weights (o : Options) (w : option (pytree R)) : Options :=
  {| temp := temp o; soft := soft o; hard := hard o;
     model_num := model_num o; model_sample := model_sample o;
     weights := merge_weights (weights o) w; pos := pos o |}.

(** The arguments of [run]. *)
Record RunArgs : Type := mkRunArgs {
  a_seq : option matrix;
  a_params : option (pytree matrix);
  a_opt : option OptUpdate;
  a_weights : option (pytree R);
  backprop : bool
}.

Definition with_backprop (a : RunArgs) (bp : bool) : RunArgs :=
  {| a_seq := a_seq a; a_params := a_params a; a_opt := a_opt a;
     a_weights := a_weights a; backprop := bp |}.

Definition with_settings (s : Session) (ps : pytree matrix) (o : Options)
  : Session :=
  {| protocol_of := protocol_of s; opt := o; params := ps;
     _key := _key s; _model_params := _model_params s; aatype := aatype s;
     feats := feats s; bkg_feats := bkg_feats s;
     _loss := _loss s; _aux := _aux s; _grad := _grad s |}.

Definition with_key (s : Session) (k : Key) : Session :=
  {| protocol_of := protocol_of s; opt := opt s; params := params s;
     _key := k; _model_params := _model_params s; aatype := aatype s;
     feats := feats s; bkg_feats := bkg_feats s;
     _loss := _loss s; _aux := _aux s; _grad := _grad s |}.

Definition with_results (s : Session) (l : R) (a : Aux)
    (g : pytree matrix) : Session :=
  {| protocol_of := protocol_of s; opt := opt s; params := params s;
     _key := _key s; _model_params := _model_params s; aatype := aatype s;
     feats := feats s; bkg_feats := bkg_feats s;
     _loss := Some l; _aux := Some a; _grad := Some g |}.

(** The first block of [run]: "override settings if defined". *)
Definition override (s : Session) (a : RunArgs) : Session :=
  let ps := match a_seq a with
            | Some x => update_dict (params s) (Dict [("seq", Leaf x)])
            | None => params s
            end in
  let ps := match a_params a with
            | Some p => update_dict ps p
            | None => ps
            end in
  with_settings s ps (set_weights (set_opt (opt s) (a_opt a)) (a_weights a)).

(** [ns[:m]] for a Python integer [m]: a negative [m] counts from the end. *)
Definition slice_to {A : Type} (xs : list A) (m : Z) : list A :=
  firstn (Z.to_nat (if (m <? 0)%Z then Z.of_nat (length xs) + m else m)%Z) xs.

(** Whether [run] draws the instances at random: the test
    [self.opt["model"]["sample"] and m != len(ns)] with its five members. *)
Definition draws (s : Session) : bool :=
  model_sample (opt s) && negb (model_num (opt s) =? 5)%Z.

(** The second block of [run]: "decide which model params to use".  The
    session comes back with its key, split or not, and with the instance
    indices unless [jax.random.choice] raised. *)
Definition decide (s : Session) : Session * option (list nat) :=
  let m := model_num (opt s) in
  let ns := seq 0 5 in
  if (model_sample (opt s) && negb (m =? Z.of_nat (length ns))%Z)%bool then
    let (k1, k2) := split (_key s) in
    (with_key s k1, choice k2 ns m)
  else (s, Some (slice_to ns m)).

(** One turn of the loop "run in serial": what is appended to [_loss],
    [_aux] and, with [backprop], to [_grad]. *)
Definition instance (s : Session) (bp : bool) (n : nat)
  : option (R * Aux * list (pytree matrix)) :=
  match nth_error (_model_params s) n with
  | None => None
  | Some mp =>
      if bp then
        match _grad_fn s (params s) mp (opt s) with
        | Some (l, a, g) => Some (l, a, [g])
        | None => None
        end
      else
        match _fn s (params s) mp (opt s) with
        | Some (l, a) => Some (l, a, [])
        | None => None
        end
  end.

(** [jax.tree_map(lambda *v: jnp.stack(v).mean(0), *_aux)] *)
Definition geom_mean (gs : list (Geom tensor3)) : option (Geom tensor3) :=
  match stack_mean (map (@dist _) gs), stack_mean (map (@omega _) gs),
        stack_mean (map (@theta _) gs), stack_mean (map (@phi _) gs) with
  | Some d, Some o, Some t, Some p =>
      Some {| dist := d; omega := o; theta := t; phi := p |}
  | _, _, _, _ => None
  end.

Definition tree_mean {A : Type} `{StackMean A} (ts : list (pytree A))
  : option (pytree A) :=
  match ts with
  | [] => None
  | t :: rest => tree_map_n stack_mean t rest
  end.

Definition aux_mean (auxs : list Aux) : option Aux :=
  match geom_mean (map outputs auxs), tree_mean (map losses auxs) with
  | Some o, Some l =>
      Some {| outputs := o; losses := l; model_num_used := None |}
  | _, _ => None
  end.

(** The block "average results" and the gradient of [backprop=False]. *)
Definition average (s : Session) (bp : bool) (k : nat) (ls : list R)
    (auxs : list Aux) (gs : list (pytree matrix))
  : option (R * Aux * pytree matrix) :=
  let zeros := tree_map zeros_like (params s) in
  if Nat.ltb 1 k then
    match aux_mean auxs with
    | None => None
    | Some a =>
        if bp then
          match tree_mean gs with
          | None => None
          | Some g => Some (rmean ls, a, g)
          end
        else Some (rmean ls, a, zeros)
    end
  else
    match ls, auxs with
    | l :: _, a :: _ =>
        if bp then
          match gs with
          | g :: _ => Some (l, a, g)
          | [] => None
          end
        else Some (l, a, zeros)
    | _, _ => None
    end.

(** [aux["model_num"] = model_num] *)
Definition record_instances (a : Aux) (ns : list nat) : Aux :=
  {| outputs := outputs a; losses := losses a; model_num_used := Some ns |}.

Inductive outcome : Type := Returned | Raised.

(** [run(seq, params, opt, weights, backprop)]: the session after the call
    and whether the call returned or raised. *)
Definition run (s : Session) (a : RunArgs) : Session * outcome :=
  let s1 := override s a in
  let (s2, chosen) := decide s1 in
  match chosen with
  | None => (s2, Raised)
  | Some ns =>
      match mapM (instance s2 (backprop a)) ns with
      | None => (s2, Raised)
      | Some rs =>
          match average s2 (backprop a) (length ns)
                        (map (fun r => fst (fst r)) rs)
                        (map (fun r => snd (fst r)) rs)
                        (flat_map snd rs) with
          | None => (s2, Raised)
          | Some (l, ax, g) =>
              (with_results s2 l (record_instances ax ns) g, Returned)
          end
      end
  end.

End Session.

End DesignSession.

(** ** A small environment and sessions to run the definitions on *)

Module Examples.

Import GeometryBinner PyTree Arrays SequenceRelaxer LossComposer.
Import DesignSession.
Local Open Scope string_scope.

(** Keys are numbers, splitting a key gives its two children, a draw takes
    the last members first (it cuts the reversed list as a Python slice
    does), the network predicts the same logits whatever the sequence, and
    the gradient of that constant model is zero. *)
Definition toy_choice (k : nat) (ns : list nat) (m : Z) : option (list nat) :=
  if (m <=? Z.of_nat (length ns))%Z
  then Some (slice_to (rev ns) m) else None.

Definition no_geom : Geom tensor3 :=
  {| dist := []; omega := []; theta := []; phi := [] |}.

(** One residue pair, two bins per channel. *)
Definition flat_geom : Geom tensor3 :=
  {| dist := [[[0; 0]]]; omega := [[[0; 0]]]; theta := [[[0; 0]]];
     phi := [[[0; 0]]] |}%R.

Definition first_bin : Geom tensor3 :=
  {| dist := [[[1; 0]]]; omega := [[[1; 0]]]; theta := [[[1; 0]]];
     phi := [[[1; 0]]] |}%R.

Definition toy_jax : Jax.
Proof.
  refine {| Key := nat;
            split := fun k => (2 * k + 1, 2 * k + 2)%nat;
            choice := toy_choice;
            ModelParams := unit;
            runner := fun _ _ => Some flat_geom;
            grad_of := fun _ ps => tree_map zeros_like ps |}.
  intros k ns m l H Hnd E1. unfold toy_choice in H.
  destruct (m <=? Z.of_nat (length ns))%Z eqn:E2; [|discriminate].
  apply Z.leb_le in E2. unfold slice_to in H.
  destruct (Z.ltb_spec m 0); [lia|].
  inversion H; subst l. repeat split.
  - apply NoDup_rev in Hnd.
    rewrite <- (firstn_skipn (Z.to_nat m) (rev ns)) in Hnd.
    now apply NoDup_app_remove_r in Hnd.
  - intros x Hx. apply in_rev.
    rewrite <- (firstn_skipn (Z.to_nat m) (rev ns)).
    apply in_or_app. now left.
  - rewrite length_firstn, length_rev. lia.
Defined.

#[export] Existing Instance toy_jax.

Definition unit_weights : pytree R :=
  Dict [("cce", per_channel (fun _ => 1%R))].

(** A fixed-backbone session for one residue, ready to run. *)
Definition toy_session (num : Z) (sample : bool) : Session :=
  {| protocol_of := fixbb;
     opt := mkOptions 1 1 1 num sample unit_weights None;
     params := Dict [("seq", Leaf [repeat 0%R 20])];
     _key := 7%nat;
     _model_params := [tt; tt; tt; tt; tt];
     aatype := [];
     feats := Some first_bin;
     bkg_feats := None;
     _loss := None; _aux := None; _grad := None |}.

Definition plain_args (bp : bool) : RunArgs :=
  {| a_seq := None; a_params := None; a_opt := None; a_weights := None;
     backprop := bp |}.

(** The arguments of a call that overrides the logits and asks for six
    instances. *)
Definition six_args : RunArgs :=
  {| a_seq := Some [repeat 1%R 20]; a_params := None;
     a_opt := Some (mkOptUpdate None None None (Some 6%Z) None None None);
     a_weights := None; backprop := true |}.

End Examples.

(** ** The thresholds of a channel *)

Module Thresholds.

Import GeometryBinner.
Local Open Scope Q_scope.

(** The entry [i] of [np.linspace(start, end, nbins)] for a channel. *)
Definition threshold (c : channel) (i : nat) : Q :=
  inject_Z (Z.of_nat i)
  * ((chan_stop c - chan_start c) / inject_Z (Z.of_nat (chan_nbins c - 1)))
  + chan_start c.

(** An array of [m] rows of [n] entries. *)
Definition rect {A : Type} (m n : nat) (a : list (list A)) : Prop :=
  length a = m /\ Forall (fun row => length row = n) a.

End Thresholds.

(** ** Largest entries *)

Module Orders.

Local Open Scope R_scope.

(** [k] is the first index of a largest entry of [v]. *)
Definition first_max (v : list R) (k : nat) : Prop :=
  (k < length v)%nat /\
  (forall j, (j < length v)%nat -> nth j v 0 <= nth k v 0) /\
  (forall j, (j < k)%nat -> nth j v 0 < nth k v 0).

End Orders.

(** ** Names of the channels *)

Module ChannelNames.

Import GeometryBinner SequenceRelaxer LossComposer.
Local Open Scope string_scope.

(** The key of a channel in the dictionaries of losses and weights. *)
Definition chan_name (c : channel) : string :=
  match c with
  | Dist => "dist" | Omega => "omega" | Theta => "theta" | Phi => "phi"
  end.

(** The terms of the loss that a protocol computes, in the order in which
    [_get_loss] adds them to the breakdown. *)
Definition terms (p : protocol) : list string :=
  ((if uses_bkg p then ["bkg"] else []) ++
   (if uses_cce p then ["cce"] else []))%list.

(** Pair by pair the prediction and the background have as many bins. *)
Definition same_bins (a b : Arrays.tensor3) : Prop :=
  Forall2 (Forall2 (fun va vb : list R => length va = length vb)) a b.

End ChannelNames.

(** ** Session set-up: [restart] and [prep_inputs] *)

Module Setup.

Import GeometryBinner PyTree Arrays SequenceRelaxer LossComposer.
Import DesignSession.
Local Open Scope string_scope.

Section Setup.

Context {J : Jax}.

(** The collaborators of the set-up: the coordinates of the atoms of one
    residue, [jax.random.PRNGKey], [_np_get_6D] and the background network
    [TrRosetta(bkg_model=True)] applied to the parameter set number [n], a
    key and a length. *)
Variable Coords : Type.
Variable PRNGKey : Z -> Key.
Variable np_get_6D : list Coords -> list (list bool) -> Geom (list (list Q)).
Variable bkg_model : nat -> Key -> nat -> option (Geom tensor3).

(** [pdb["batch"]]: what [prep_pdb] returns of a structure. *)
Record Batch : Type := mkBatch {
  b_aatype : list nat;
  all_atom_positions : list Coords;
  all_atom_mask : list (list bool)
}.

(** [x[p]] on a NumPy array: an index out of range raises. *)
Definition take {A : Type} (p : list nat) (xs : list A) : option (list A) :=
  mapM (nth_error xs) p.

(** [jax.tree_map(lambda x:x[p], self._batch)] *)
Definition batch_take (p : list nat) (b : Batch) : option Batch :=
  match take p (b_aatype b), take p (all_atom_positions b),
        take p (all_atom_mask b) with
  | Some a, Some x, Some m => Some (mkBatch a x m)
  | _, _, _ => None
  end.

(** [{"dist":1/6,"omega":1/6,"theta":2/6,"phi":2/6}] *)
Definition channel_weights : pytree R :=
  Dict [("dist", Leaf (1 / 6)%R); ("omega", Leaf (1 / 6)%R);
        ("theta", Leaf (2 / 6)%R); ("phi", Leaf (2 / 6)%R)].

Definition with_weights (o : Options) (w : pytree R) : Options :=
  {| temp := temp o; soft := soft o; hard := hard o;
     model_num := model_num o; model_sample := model_sample o;
     weights := w; pos := pos o |}.

(** [self.opt["weights"][k] = v] *)
Definition set_weight_term (k : string) (v : pytree R) (o : Options)
  : option Options :=
  match weights o with
  | Dict kids => Some (with_weights o (Dict (dict_set k v kids)))
  | Leaf _ => None
  end.

(** [self.opt["pos"] = p] *)
Definition with_pos (o : Options) (p : list nat) : Options :=
  {| temp := temp o; soft := soft o; hard := hard o;
     model_num := model_num o; model_sample := model_sample o;
     weights := weights o; pos := Some p |}.

(** The binned target as an array of real numbers. *)
Definition to_real (g : Geom (list (list (list Q)))) : Geom tensor3 :=
  geom_map (map (map (map Q2R))) g.

Definition with_target (s : Session) (b : Batch) (f : Geom tensor3)
    (o : Options) : Session :=
  {| protocol_of := protocol_of s; opt := o; params := params s;
     _key := _key s; _model_params := _model_params s;
     aatype := b_aatype b; feats := Some f; bkg_feats := bkg_feats s;
     _loss := _loss s; _aux := _aux s; _grad := _grad s |}.

Definition with_background (s : Session) (b : Geom tensor3) (o : Options)
  : Session :=
  {| protocol_of := protocol_of s; opt := o; params := params s;
     _key := _key s; _model_params := _model_params s;
     aatype := aatype s; feats := feats s; bkg_feats := Some b;
     _loss := _loss s; _aux := _aux s; _grad := _grad s |}.

(** [restart(seed, opt, weights)].  [len] is [self._len], absent before
    [prep_inputs] has set it; [drawn] is the number that [random.randint]
    gives when no seed is passed. *)
Definition restart (s : Session) (len : option nat) (seed : option Z)
    (drawn : Z) (o : option OptUpdate) (w : option (pytree R))
  : option Session :=
  match len, params s with
  | Some L, Dict kids =>
      let key := PRNGKey (or_keep seed drawn) in
      let zeros := repeat (repeat 0%R 20) L in
      Some (with_settings (with_key s key)
              (Dict (dict_set "seq" (Leaf zeros) kids))
              (set_weights (set_opt (opt s) o) w))
  | _, _ => None
  end.

(** The arguments of [prep_inputs]: the result of [prep_pdb] (absent when
    it raises), [length], the result of [prep_pos] when [pos] is given, and
    the keyword arguments handed on to [restart]. *)
Record PrepArgs : Type := mkPrepArgs {
  pdb : option Batch;
  length_arg : option nat;
  pos_arg : option (list nat);
  seed_arg : option Z;
  drawn_seed : Z;
  opt_arg : option OptUpdate;
  weights_arg : option (pytree R)
}.

(** The block of [prep_inputs] for the fixed-backbone and partial
    protocols: the session and [self._len] after it. *)
Definition prep_target (s : Session) (len : option nat) (a : PrepArgs)
  : option (Session * option nat) :=
  if uses_cce (protocol_of s) then
    match pdb a with
    | None => None
    | Some b0 =>
        let restricted :=
          match is_partial (protocol_of s), pos_arg a with
          | true, Some p =>
              match batch_take p b0 with
              | Some b => Some (b, with_pos (opt s) (seq 0 (length p)))
              | None => None
              end
          | _, _ => Some (b0, opt s)
          end in
        match restricted with
        | None => None
        | Some (b, o1) =>
            match np_get_6D_binned
                    (np_get_6D (all_atom_positions b) (all_atom_mask b)),
                  set_weight_term "cce" channel_weights o1 with
            | Some f, Some o2 =>
                Some (with_target s b (to_real f) o2,
                      Some (length (b_aatype b)))
            | _, _ => None
            end
        end
    end
  else Some (s, len).

(** The block for the hallucination and partial protocols. *)
Definition prep_background (s : Session) (len : option nat) (a : PrepArgs)
  : option (Session * option nat) :=
  if uses_bkg (protocol_of s) then
    let len := match length_arg a with Some L => Some L | None => len end in
    match len with
    | None => None
    | Some L =>
        match mapM (fun n => bkg_model n (PRNGKey 0) L) (seq 1 5) with
        | None => None
        | Some outs =>
            match geom_mean outs,
                  set_weight_term "bkg" channel_weights (opt s) with
            | Some b, Some o => Some (with_background s b o, Some L)
            | _, _ => None
            end
        end
    end
  else Some (s, len).

(** [prep_inputs(pdb_filename, chain, length, pos, **kwargs)]: the session
    and [self._len] when it returns. *)
Definition prep_inputs (s : Session) (len : option nat) (a : PrepArgs)
  : option (Session * nat) :=
  match prep_target s len a with
  | None => None
  | Some (s1, len1) =>
      match prep_background s1 len1 a with
      | None => None
      | Some (s2, len2) =>
          match restart s2 len2 (seed_arg a) (drawn_seed a) (opt_arg a)
                        (weights_arg a), len2 with
          | Some s3, Some L => Some (s3, L)
          | _, _ => None
          end
      end
  end.

(** The weighted average of the four channels stored under a term of the
    breakdown, with the weights 1/6, 1/6, 2/6 and 2/6. *)
Definition channel_mix (t : pytree R) (term : string) : R :=
  match leaf_at [term; "dist"] t, leaf_at [term; "omega"] t,
        leaf_at [term; "theta"] t, leaf_at [term; "phi"] t with
  | Some d, Some o, Some h, Some f => ((d + o + 2 * h + 2 * f) / 6)%R
  | _, _, _, _ => 0%R
  end.

End Setup.

End Setup.

(** ** Collaborators and a structure to set a session up with *)

Module SetupExamples.

Import GeometryBinner PyTree Arrays SequenceRelaxer LossComposer.
Import DesignSession Setup Examples.
Local Open Scope string_scope.

(** Keys are numbers; every pair of residues is 5 apart with all angles 0;
    the background network predicts flat logits in the bins of each
    channel. *)
Definition toy_key (z : Z) : nat := Z.to_nat z.

Definition toy_6D (xs : list unit) (m : list (list bool))
  : Geom (list (list Q)) :=
  let n := length xs in
  {| dist := repeat (repeat 5%Q n) n; omega := repeat (repeat 0%Q n) n;
     theta := repeat (repeat 0%Q n) n; phi := repeat (repeat 0%Q n) n |}.

Definition flat_pairs (L : nat) : Geom tensor3 :=
  let t (bins : nat) := repeat (repeat (repeat 0%R bins) L) L in
  {| dist := t 37%nat; omega := t 25%nat; theta := t 25%nat;
     phi := t 13%nat |}.

Definition toy_bkg (n : nat) (k : nat) (L : nat) : option (Geom tensor3) :=
  Some (flat_pairs L).

(** A structure of three residues, the last of unknown type. *)
Definition three_residues : Batch unit :=
  mkBatch [3; 7; 20]%nat [tt; tt; tt] [[true]; [true]; [true]].

(** A session as the constructor leaves it. *)
Definition fresh_session (p : protocol) : Session :=
  {| protocol_of := p;
     opt := mkOptions 1 1 1 1 true (Dict []) None;
     params := Dict [];
     _key := 0%nat;
     _model_params := [tt; tt; tt; tt; tt];
     aatype := [];
     feats := None;
     bkg_feats := None;
     _loss := None; _aux := None; _grad := None |}.

Definition prep_args (b : option (Batch unit)) (len : option nat)
    (p : option (list nat)) : PrepArgs unit :=
  mkPrepArgs b len p (Some 0%Z) 0%Z None None.

End SetupExamples.

(** ** [af_callback]: the session as a loss of an outer optimizer *)

Module Callback.

Import GeometryBinner PyTree Arrays SequenceRelaxer LossComposer.
Import DesignSession.
Local Open Scope string_scope.

Section Callback.

Context {J : Jax}.

(** What the callback touches of [af_model]: the entries of
    [af_model.opt] it looks for (absent ones are [None]), the batch of
    logits [af_model.params["seq"]], the gradient [af_model._grad["seq"]]
    of the same shape, the loss, and the dictionary
    [af_model._aux["losses"]]. *)
Record AfModel : Type := mkAfModel {
  af_soft : option R;
  af_temp : option R;
  af_hard : option R;
  af_pos : option (list nat);
  af_seq : list matrix;
  af_grad_seq : list matrix;
  af_loss : R;
  af_aux_losses : list (string * R)
}.

(** [for k in ["soft","temp","hard","pos"]: if k in self.opt and k in
    af_model.opt: self.opt[k] = af_model.opt[k]].  The session always has
    the first three; it has ["pos"] only when positions are configured. *)
Definition sync_opt (o : Options) (af : AfModel) : Options :=
  {| temp := or_keep (af_temp af) (temp o);
     soft := or_keep (af_soft af) (soft o);
     hard := or_keep (af_hard af) (hard o);
     model_num := model_num o; model_sample := model_sample o;
     weights := weights o;
     pos := match pos o, af_pos af with
            | Some _, Some p => Some p
            | _, _ => pos o
            end |}.

(** The local [get_loss(k)]: the weighted sum of the cached losses of the
    term [k]; a missing key raises. *)
Definition term_loss (s : Session) (k : string) : option R :=
  match _aux s with
  | None => None
  | Some ax =>
      match as_dict (losses ax), as_dict (weights (opt s)) with
      | Some ls, Some ws =>
          match lookup k ls, lookup k ws with
          | Some l, Some w => weighted_total l w
          | _, _ => None
          end
      | _, _ => None
      end
  end.

Definition with_grad (af : AfModel) (g : list matrix) : AfModel :=
  {| af_soft := af_soft af; af_temp := af_temp af; af_hard := af_hard af;
     af_pos := af_pos af; af_seq := af_seq af; af_grad_seq := g;
     af_loss := af_loss af; af_aux_losses := af_aux_losses af |}.

Definition with_loss (af : AfModel) (l : R) : AfModel :=
  {| af_soft := af_soft af; af_temp := af_temp af; af_hard := af_hard af;
     af_pos := af_pos af; af_seq := af_seq af;
     af_grad_seq := af_grad_seq af;
     af_loss := l; af_aux_losses := af_aux_losses af |}.

Definition with_aux_loss (af : AfModel) (k : string) (v : R) : AfModel :=
  {| af_soft := af_soft af; af_temp := af_temp af; af_hard := af_hard af;
     af_pos := af_pos af; af_seq := af_seq af;
     af_grad_seq := af_grad_seq af;
     af_loss := af_loss af;
     af_aux_losses := dict_set k v (af_aux_losses af) |}.

(** [weight > 0] *)
Definition positive (w : R) : bool := if Rlt_dec 0 w then true else false.

(** [af_model._grad["seq"] += weight * self._grad["seq"]], the gradient of
    the session being added to every member of the batch; the sum raises
    when the two cannot be broadcast together. *)
Definition add_grad (weight : R) (s : Session) (af : AfModel)
  : option AfModel :=
  match _grad s with
  | None => None
  | Some g =>
      match leaf_at ["seq"] g with
      | None => None
      | Some gm =>
          if forallb (fun m => fits2 m gm) (af_grad_seq af) then
            Some (with_grad af
                    (map (fun m => madd m (scale weight gm))
                         (af_grad_seq af)))
          else None
      end
  end.

(** [af_model._loss += weight * self._loss] *)
Definition add_to_loss (weight : R) (s : Session) (af : AfModel)
  : option AfModel :=
  match _loss s with
  | None => None
  | Some l => Some (with_loss af (af_loss af + weight * l)%R)
  end.

(** [af_model._aux["losses"][name] = get_loss(k)] when the protocol has the
    term. *)
Definition report (enabled : bool) (name k : string) (s : Session)
    (af : AfModel) : option AfModel :=
  if enabled then
    match term_loss s k with
    | None => None
    | Some v => Some (with_aux_loss af name v)
    end
  else Some af.

(** The steps of the callback after [run] has returned; when one raises,
    the optimizer is left as the steps before it made it. *)
Definition after_run (weight : R) (add_loss : bool) (s : Session)
    (af : AfModel) : AfModel * outcome :=
  match (if positive weight then add_grad weight s af else Some af) with
  | None => (af, Raised)
  | Some af1 =>
      match (if add_loss then add_to_loss weight s af1 else Some af1) with
      | None => (af1, Raised)
      | Some af2 =>
          match report (uses_bkg (protocol_of s)) "TrD_bkg" "bkg" s af2 with
          | None => (af2, Raised)
          | Some af3 =>
              match report (uses_cce (protocol_of s)) "TrD_cce" "cce" s af3
              with
              | None => (af3, Raised)
              | Some af4 => (af4, Returned)
              end
          end
      end
  end.

(** The arguments of [self.run(seq=seq, backprop=backprop)]. *)
Definition callback_args (x : matrix) (bp : bool) : RunArgs :=
  {| a_seq := Some x; a_params := None; a_opt := None; a_weights := None;
     backprop := bp |}.

(** [callback(af_model)] as returned by [af_callback(weight, add_loss)]. *)
Definition callback (weight : R) (add_loss : bool) (s : Session)
    (af : AfModel) : Session * AfModel * outcome :=
  let s0 := with_settings s (params s) (sync_opt (opt s) af) in
  match af_seq af with
  | [] => (s0, af, Raised)
  | x :: _ =>
      let (s1, r) := run s0 (callback_args x (positive weight)) in
      match r with
      | Raised => (s1, af, Raised)
      | Returned =>
          let (af', r') := after_run weight add_loss s1 af in
          (s1, af', r')
      end
  end.

End Callback.

End Callback.

(** ** The shape of the breakdown of the loss *)

Module Breakdown.

Import GeometryBinner PyTree SequenceRelaxer LossComposer ChannelNames.
Local Open Scope R_scope.

(** [aux["losses"]] as a table: for every term of the protocol the
    dictionary of its four channels. *)
Definition breakdown (proto : protocol) (g : string -> channel -> R)
  : pytree R :=
  Dict (map (fun k => (k, per_channel (g k))) (terms proto)).

(** [for k in ["dist","omega","theta","phi"]] *)
Definition channels : list channel := [Dist; Omega; Theta; Phi].

(** [weights[k][c]], read as 0 where the mapping has no such leaf. *)
Definition weight_at (ws : pytree R) (k : string) (c : channel) : R :=
  match leaf_at [k; chan_name c] ws with
  | Some w => w
  | None => 0
  end.

(** The weighted channels of one term, summed as Python's [sum] does. *)
Definition term_total (g W : string -> channel -> R) (k : string) : R :=
  fold_left Rplus (map (fun c => g k c * W k c) channels) 0.

(** The weighted channels of all the terms, summed as Python's [sum]
    does. *)
Definition grand_total (proto : protocol) (g W : string -> channel -> R)
  : R :=
  fold_left Rplus
    (flat_map (fun k => map (fun c => g k c * W k c) channels) (terms proto))
    0.

End Breakdown.

(** ** An outer optimizer to call the session back *)

Module CallbackExamples.

Import Arrays Callback.
Local Open Scope R_scope.

(** An optimizer with one sequence of one residue in its batch, which has
    accumulated nothing yet and sets none of the shared options. *)
Definition fresh_af : AfModel :=
  {| af_soft := None; af_temp := None; af_hard := None; af_pos := None;
     af_seq := [[repeat 0 20]]; af_grad_seq := [[repeat 0 20]];
     af_loss := 0; af_aux_losses := [] |}.

End CallbackExamples.

(** * Properties *)

(** ** Facts on indexing *)

Lemma nth_error_map2 {A B C : Type} (f : A -> B -> C) :
  forall xs ys i x y,
    nth_error xs i = Some x -> nth_error ys i = Some y ->
    nth_error (map2 f xs ys) i = Some (f x y).
Proof.
  induction xs as [|x0 xs IH]; intros [|y0 ys] [|i] x y Hx Hy;
    simpl in *; try discriminate.
  - now inversion Hx; inversion Hy.
  - now apply IH.
Qed.

Lemma at2_map {A B : Type} (f : A -> B) (m : list (list A)) i j :
  at2 (map (map f) m) i j = option_map f (at2 m i j).
Proof.
  unfold at2. rewrite nth_error_map.
  destruct (nth_error m i) as [row|]; simpl; [|reflexivity].
  now rewrite nth_error_map.
Qed.

Lemma at2_map2 {A B C : Type} (f : A -> B -> C) m1 m2 i j a b :
  at2 m1 i j = Some a -> at2 m2 i j = Some b ->
  at2 (map2 (map2 f) m1 m2) i j = Some (f a b).
Proof.
  unfold at2. intros H1 H2.
  destruct (nth_error m1 i) as [r1|] eqn:E1; [|discriminate].
  destruct (nth_error m2 i) as [r2|] eqn:E2; [|discriminate].
  rewrite (nth_error_map2 _ _ _ _ E1 E2).
  now apply nth_error_map2.
Qed.

Lemma map2_length {A B C : Type} (f : A -> B -> C) : forall xs ys,
  length xs = length ys -> length (map2 f xs ys) = length xs.
Proof.
  induction xs as [|x xs IH]; intros [|y ys] H; simpl in *;
    try discriminate; [reflexivity|].
  f_equal. apply IH. now injection H.
Qed.

Lemma map2_map_map {A B C D : Type} (f : B -> C -> D) (g : A -> B)
    (h : A -> C) (l : list A) :
  map2 f (map g l) (map h l) = map (fun a => f (g a) (h a)) l.
Proof. induction l as [|a l IH]; simpl; [reflexivity|now rewrite IH]. Qed.

Lemma map2_map_id {A B C : Type} (f : B -> A -> C) (g : A -> B)
    (l : list A) :
  map2 f (map g l) l = map (fun a => f (g a) a) l.
Proof. induction l as [|a l IH]; simpl; [reflexivity|now rewrite IH]. Qed.

(** On operands of one length broadcasting changes nothing. *)
Lemma bmap2_same_length {A B C : Type} (f : A -> B -> C) xs ys :
  length xs = length ys -> bmap2 f xs ys = map2 f xs ys.
Proof.
  destruct xs as [|x [|x' xs]], ys as [|y [|y' ys]]; simpl; intros H;
    try discriminate; reflexivity.
Qed.

Lemma bmap2_map_map {A B C D : Type} (f : B -> C -> D) (g : A -> B)
    (h : A -> C) (l : list A) :
  bmap2 f (map g l) (map h l) = map (fun a => f (g a) (h a)) l.
Proof.
  rewrite bmap2_same_length by now rewrite !length_map.
  apply map2_map_map.
Qed.

Lemma bmap2_map_id {A B C : Type} (f : B -> A -> C) (g : A -> B)
    (l : list A) :
  bmap2 f (map g l) l = map (fun a => f (g a) a) l.
Proof.
  rewrite bmap2_same_length by now rewrite length_map.
  apply map2_map_id.
Qed.

Lemma bmap2_Forall2_eq {A B C : Type} (f f' : A -> B -> C)
    (P : A -> B -> Prop) xs ys :
  Forall2 P xs ys -> (forall x y, P x y -> f x y = f' x y) ->
  bmap2 f xs ys = map2 f' xs ys.
Proof.
  intros H Hf. rewrite bmap2_same_length by (eapply Forall2_length; eauto).
  induction H as [|x y xs ys Hxy _ IH]; simpl; [reflexivity|].
  now rewrite (Hf x y Hxy), IH.
Qed.

Lemma map2_Forall2 {A B C : Type} (f : A -> B -> C) (P : A -> Prop)
    (Q : B -> Prop) (T : C -> Prop) :
  (forall a b, P a -> Q b -> T (f a b)) ->
  forall xs ys, Forall P xs -> Forall Q ys -> Forall T (map2 f xs ys).
Proof.
  intros Hf. induction xs as [|x xs IH]; intros [|y ys] Hx Hy; simpl;
    try constructor.
  - inversion Hx; inversion Hy; subst. now apply Hf.
  - inversion Hx; inversion Hy; subst. now apply IH.
Qed.

(** What holds of every combination of entries holds of the entries of the
    combined arrays, broadcast or not. *)
Lemma bmap2_Forall2 {A B C : Type} (f : A -> B -> C) (P : A -> Prop)
    (Q : B -> Prop) (T : C -> Prop) :
  (forall a b, P a -> Q b -> T (f a b)) ->
  forall xs ys, Forall P xs -> Forall Q ys -> Forall T (bmap2 f xs ys).
Proof.
  intros Hf xs ys Hx Hy.
  assert (Hl : forall x, P x -> Forall T (map (f x) ys)).
  { intros x Px. apply Forall_map. eapply Forall_impl; [|exact Hy].
    intros b Qb. now apply Hf. }
  assert (Hr : forall y, Q y -> Forall T (map (fun x => f x y) xs)).
  { intros y Qy. apply Forall_map. eapply Forall_impl; [|exact Hx].
    intros a Pa. now apply Hf. }
  pose proof (@map2_Forall2 _ _ _ f P Q T Hf xs ys Hx Hy) as Hm.
  destruct xs as [|x [|x' xs]], ys as [|y [|y' ys]]; cbn [bmap2];
    try exact Hm;
    try (apply Hl; now inversion Hx);
    try (apply Hr; now inversion Hy).
Qed.

Lemma at2_square {A : Type} n (m : list (list A)) i j :
  square n m -> (i < n)%nat -> (j < n)%nat -> exists a, at2 m i j = Some a.
Proof.
  intros [Hlen Hrows] Hi Hj. unfold at2.
  destruct (nth_error m i) as [row|] eqn:E.
  - assert (Hr : length row = n).
    { rewrite Forall_forall in Hrows. apply Hrows.
      eapply nth_error_In; eauto. }
    destruct (nth_error row j) as [a|] eqn:E'; [eauto|].
    apply nth_error_None in E'. lia.
  - apply nth_error_None in E. lia.
Qed.


(** ** GeometryBinner *)

Section BinnerFacts.

Import GeometryBinner.
Local Open Scope Q_scope.

Lemma linspace_length start stop num :
  length (linspace start stop num) = num.
Proof. unfold linspace. now rewrite length_map, length_seq. Qed.

Lemma digitize_le x bins : (digitize x bins <= length bins)%nat.
Proof.
  induction bins as [|b bs IH]; simpl; [lia|].
  destruct (Qle_bool b x); lia.
Qed.

Lemma digitize_full x bins :
  digitize x bins = length bins <-> Forall (fun b => b <= x) bins.
Proof.
  induction bins as [|b bs IH]; simpl.
  - split; auto.
  - destruct (Qle_bool b x) eqn:E.
    + apply Qle_bool_iff in E. split.
      * intros H. constructor; [exact E|]. apply IH. lia.
      * intros H. inversion H; subst. f_equal. now apply IH.
    + split; [lia|]. intros H. inversion H as [|? ? Hb]; subst.
      apply Qle_bool_iff in Hb. congruence.
Qed.

(** [np.digitize] on the thresholds of the distance channel: below the
    range, on the lower edge, inside, just below the upper edge, on it. *)
Example digitize_dist_points :
  map (fun x => digitize x (linspace 2 20 37))
      [1; 2; 9 # 4; 5 # 2; 79 # 4; 20; 25] =
  [0; 1; 1; 2; 36; 37; 37]%nat.
Proof. reflexivity. Qed.

Example linspace_dist_thresholds :
  Forall2 Qeq (firstn 3 (linspace 2 20 37)) [2; 5 # 2; 3] /\
  Forall2 Qeq (skipn 35 (linspace 2 20 37)) [39 # 2; 20].
Proof. split; repeat constructor. Qed.

Lemma as_uint8_small n : (n < 256)%nat -> as_uint8 n = n.
Proof. intros H. unfold as_uint8. now apply Nat.mod_small. Qed.

Lemma one_hot_drop_last_eq nbins r :
  one_hot_drop_last nbins r =
  map (fun c => if Nat.eqb c r then 1 else 0) (seq 0 nbins).
Proof.
  unfold one_hot_drop_last, eye_row.
  rewrite seq_app, map_app. simpl.
  now rewrite removelast_last.
Qed.

Lemma one_hot_length nbins r : length (one_hot_drop_last nbins r) = nbins.
Proof. now rewrite one_hot_drop_last_eq, length_map, length_seq. Qed.

Lemma one_hot_entries nbins r :
  Forall (fun x => x = 0 \/ x = 1) (one_hot_drop_last nbins r).
Proof.
  rewrite one_hot_drop_last_eq. apply Forall_forall. intros x Hx.
  apply in_map_iff in Hx. destruct Hx as [c [<- _]].
  destruct (Nat.eqb c r); auto.
Qed.

Lemma qsum_indicator r : forall n s,
  qsum (map (fun c => if Nat.eqb c r then 1 else 0) (seq s n)) ==
  if (Nat.leb s r && Nat.ltb r (s + n))%bool then 1 else 0.
Proof.
  induction n as [|n IH]; intros s; simpl.
  - replace (s + 0)%nat with s by lia.
    destruct (Nat.leb s r) eqn:E1, (Nat.ltb r s) eqn:E2; simpl;
      try reflexivity.
    apply Nat.leb_le in E1. apply Nat.ltb_lt in E2. lia.
  - rewrite IH.
    destruct (Nat.eqb s r) eqn:Es.
    + apply Nat.eqb_eq in Es. subst s.
      replace (Nat.leb (S r) r) with false
        by (symmetry; apply Nat.leb_gt; lia).
      rewrite Nat.leb_refl.
      replace (Nat.ltb r (r + S n)) with true
        by (symmetry; apply Nat.ltb_lt; lia).
      simpl. reflexivity.
    + apply Nat.eqb_neq in Es.
      replace (s + S n)%nat with (S s + n)%nat by lia.
      destruct (Nat.leb (S s) r) eqn:E1, (Nat.leb s r) eqn:E2; simpl;
        try (rewrite Qplus_0_l; reflexivity).
      * apply Nat.leb_le in E1. apply Nat.leb_gt in E2. lia.
      * apply Nat.leb_gt in E1. apply Nat.leb_le in E2.
        replace (Nat.ltb r (S s + n)) with true
          by (symmetry; apply Nat.ltb_lt; lia).
        lia.
Qed.

Lemma one_hot_sum nbins r :
  qsum (one_hot_drop_last nbins r) == if Nat.ltb r nbins then 1 else 0.
Proof.
  rewrite one_hot_drop_last_eq, qsum_indicator. simpl. reflexivity.
Qed.

Lemma bin_index_indicator r : forall n s,
  bin_index (map (fun c => if Nat.eqb c r then 1 else 0) (seq s n)) =
  if (Nat.leb s r && Nat.ltb r (s + n))%bool then Some (r - s)%nat else None.
Proof.
  induction n as [|n IH]; intros s.
  - cbn [seq map bin_index].
    destruct (Nat.leb_spec s r), (Nat.ltb_spec r (s + 0)); simpl;
      try reflexivity; lia.
  - cbn [seq map bin_index]. rewrite IH.
    destruct (Nat.eqb_spec s r) as [->|Hne].
    + simpl (Qeq_bool 1 1).
      destruct (Nat.leb_spec r r), (Nat.ltb_spec r (r + S n)); simpl;
        try lia.
      f_equal. lia.
    + simpl (Qeq_bool 0 1).
      destruct (Nat.leb_spec (S s) r), (Nat.ltb_spec r (S s + n)),
               (Nat.leb_spec s r), (Nat.ltb_spec r (s + S n));
        simpl; try reflexivity; try lia.
      f_equal. lia.
Qed.

Lemma one_hot_bin_index nbins r :
  bin_index (one_hot_drop_last nbins r) =
  if Nat.ltb r nbins then Some r else None.
Proof.
  rewrite one_hot_drop_last_eq, bin_index_indicator. simpl.
  now rewrite Nat.sub_0_r.
Qed.

Lemma linspace_all_le start stop num x :
  start <= stop -> (2 <= num)%nat ->
  (Forall (fun b => b <= x) (linspace start stop num) <-> stop <= x).
Proof.
  intros Hss Hnum. unfold linspace.
  set (k := inject_Z (Z.of_nat (num - 1))).
  set (step := (stop - start) / k).
  assert (Hk : 0 < k).
  { unfold k. change 0 with (inject_Z 0). rewrite <- Zlt_Qlt. lia. }
  assert (Hstep : step * k == stop - start).
  { unfold step. field. intros Hz. rewrite Hz in Hk.
    now apply Qlt_irrefl in Hk. }
  assert (Hpos : 0 <= step) by Lqa.nra.
  rewrite Forall_forall. split.
  - intros H.
    assert (Hin : In (inject_Z (Z.of_nat (num - 1)) * step + start)
                     (map (fun i => inject_Z (Z.of_nat i) * step + start)
                          (seq 0 num))).
    { apply in_map_iff. exists (num - 1)%nat. split; [reflexivity|].
      apply in_seq. lia. }
    apply H in Hin. fold k in Hin. Lqa.nra.
  - intros H b Hb. apply in_map_iff in Hb. destruct Hb as [i [<- Hi]].
    apply in_seq in Hi.
    assert (Hik : inject_Z (Z.of_nat i) <= k).
    { unfold k. rewrite <- Zle_Qle. lia. }
    assert (Hi0 : 0 <= inject_Z (Z.of_nat i)).
    { change 0 with (inject_Z 0). rewrite <- Zle_Qle. lia. }
    Lqa.nra.
Qed.

Lemma digitize_linspace_below start stop num x :
  start <= stop -> (2 <= num)%nat ->
  Nat.ltb (digitize x (linspace start stop num)) num = negb (Qle_bool stop x).
Proof.
  intros Hss Hnum.
  pose proof (digitize_le x (linspace start stop num)) as Hle.
  pose proof (digitize_full x (linspace start stop num)) as Hfull.
  rewrite linspace_length in Hle, Hfull.
  rewrite (linspace_all_le x Hss Hnum) in Hfull.
  destruct (Qle_bool stop x) eqn:E; simpl.
  - apply Qle_bool_iff in E. apply Nat.ltb_ge. apply Hfull in E. lia.
  - apply Nat.ltb_lt.
    assert (digitize x (linspace start stop num) <> num).
    { intros Heq. apply Hfull in Heq. apply Qle_bool_iff in Heq. congruence. }
    lia.
Qed.

Lemma chan_range c : chan_start c <= chan_stop c /\ (2 <= chan_nbins c)%nat.
Proof.
  destruct c; simpl; split; try lia; unfold np_pi; unfold Qle; simpl; lia.
Qed.

Lemma at2_eye_mask n i j :
  (i < n)%nat -> (j < n)%nat -> at2 (eye_mask n) i j = Some (Nat.eqb i j).
Proof.
  intros Hi Hj. unfold at2, eye_mask.
  rewrite nth_error_map, nth_error_seq.
  destruct (Nat.ltb_spec i n); [|lia]. simpl.
  rewrite nth_error_map, nth_error_seq.
  destruct (Nat.ltb_spec j n); [|lia]. reflexivity.
Qed.

Lemma at2_pair_mask n d i j x :
  square n d -> at2 d i j = Some x -> (i < n)%nat -> (j < n)%nat ->
  at2 (pair_mask d) i j = Some (negb (Qle_bool x 20) || Nat.eqb i j)%bool.
Proof.
  intros Hsq Hx Hi Hj. unfold pair_mask.
  apply at2_map2.
  - now rewrite at2_map, Hx.
  - destruct Hsq as [-> _]. now apply at2_eye_mask.
Qed.

Lemma at2_mtx2bins x_ref start stop nbins mask i j x m :
  at2 x_ref i j = Some x -> at2 mask i j = Some m ->
  at2 (mtx2bins x_ref start stop nbins mask) i j =
  Some (one_hot_drop_last nbins
          (if (m : bool) then 0%nat
           else as_uint8 (digitize x (linspace start stop nbins)))).
Proof.
  intros Hx Hm. unfold mtx2bins. rewrite at2_map.
  erewrite at2_map2; [reflexivity|exact Hm|].
  now rewrite at2_map, Hx.
Qed.

Lemma squeeze_square n (m : list (list Q)) :
  square n m -> square n (squeeze m).
Proof.
  intros [Hl Hr]. unfold squeeze. split; [now rewrite length_map|].
  apply Forall_map. eapply Forall_impl; [|exact Hr].
  intros row Hrow. now rewrite length_map.
Qed.

Lemma at2_squeeze (m : list (list Q)) i j :
  at2 (squeeze m) i j = option_map to_float32 (at2 m i j).
Proof. apply at2_map. Qed.

(** The [float32] values that the binner compares and bins. *)
Example to_float32_points :
  Forall2 Qeq
    (map to_float32
       [0; 5; 20; 1 # 10; - np_pi;
        5629499534184973 # 281474976710656;
        2814749781180309 # 140737488355328;
        1125899906786329 # 562949953421312])
    [0; 5; 20; 13421773 # 134217728; - (13176795 # 4194304); 20; 20; 2].
Proof. repeat constructor. Qed.

(** The vector stored for a pair: the mask is taken from the distance and
    the bin from the value, both as rounded to [float32]. *)
Lemma binned_pair n ref out c i j :
  ref_shape n ref -> np_get_6D_binned ref = Some out ->
  (i < n)%nat -> (j < n)%nat ->
  exists d x,
    at2 (dist ref) i j = Some d /\ at2 (chan c ref) i j = Some x /\
    at2 (chan c out) i j =
      Some (pair_row c (negb (Qle_bool (to_float32 d) 20) || Nat.eqb i j)%bool
                     (to_float32 x)).
Proof.
  intros Hshape Hout Hi Hj.
  unfold np_get_6D_binned in Hout.
  destruct (squeeze_fails ref); [discriminate|]. inversion Hout; subst out.
  cbn [dist omega theta phi].
  destruct Hshape as (Hd & Ho & Ht & Hp).
  destruct (at2_square Hd Hi Hj) as [d Ed].
  assert (Ed' : at2 (squeeze (dist ref)) i j = Some (to_float32 d))
    by now rewrite at2_squeeze, Ed.
  pose proof (at2_pair_mask (squeeze_square Hd) Ed' Hi Hj) as Hmask.
  assert (Hx : exists x, at2 (chan c ref) i j = Some x).
  { destruct c; simpl; eauto using at2_square. }
  destruct Hx as [x Ex]. exists d, x. repeat split; auto.
  assert (Hu : forall start stop,
             as_uint8 (digitize (to_float32 x)
                         (linspace start stop (chan_nbins c))) =
             digitize (to_float32 x) (linspace start stop (chan_nbins c))).
  { intros. apply as_uint8_small.
    pose proof (digitize_le (to_float32 x)
                  (linspace start stop (chan_nbins c))) as H.
    rewrite linspace_length in H. destruct c; cbn [chan_nbins] in *; lia. }
  unfold pair_row. rewrite <- Hu.
  destruct c;
    cbn [chan chan_nbins chan_start chan_stop dist omega theta phi] in *;
    (apply at2_mtx2bins; [now rewrite at2_squeeze, Ex|exact Hmask]).
Qed.

Lemma binned_total n ref :
  ref_shape n ref -> n <> 1%nat ->
  np_get_6D_binned ref =
  Some {| dist  := mtx2bins (squeeze (dist ref)) 2 20 37
                            (pair_mask (squeeze (dist ref)));
          omega := mtx2bins (squeeze (omega ref)) (- np_pi) np_pi 25
                            (pair_mask (squeeze (dist ref)));
          theta := mtx2bins (squeeze (theta ref)) (- np_pi) np_pi 25
                            (pair_mask (squeeze (dist ref)));
          phi   := mtx2bins (squeeze (phi ref)) 0 np_pi 13
                            (pair_mask (squeeze (dist ref))) |}.
Proof.
  intros [[Hlen _] _] Hn. unfold np_get_6D_binned, squeeze_fails.
  rewrite Hlen. destruct (Nat.eqb_spec n 1); [contradiction|reflexivity].
Qed.

Lemma const_geom_shape a b c d : ref_shape 2 (const_geom [[a; b]; [c; d]]).
Proof. repeat split; repeat constructor. Qed.

Lemma masked_flag i j d :
  i = j \/ 20 < d -> (negb (Qle_bool d 20) || Nat.eqb i j)%bool = true.
Proof.
  intros [-> | Hlt].
  - rewrite Nat.eqb_refl. apply orb_true_r.
  - destruct (Qle_bool d 20) eqn:E; [|reflexivity].
    apply Qle_bool_iff in E. Lqa.lra.
Qed.

Lemma unmasked_flag i j d :
  i <> j -> d <= 20 -> (negb (Qle_bool d 20) || Nat.eqb i j)%bool = false.
Proof.
  intros Hij Hd. apply Qle_bool_iff in Hd. rewrite Hd.
  destruct (Nat.eqb_spec i j); [contradiction|reflexivity].
Qed.

(** The index past the last threshold leaves no entry set. *)
Lemma one_hot_past_end nbins : one_hot_drop_last nbins nbins = repeat 0 nbins.
Proof.
  rewrite one_hot_drop_last_eq.
  assert (H : forall m s, (s + m <= nbins)%nat ->
            map (fun k => if Nat.eqb k nbins then 1 else 0) (seq s m) =
            repeat 0 m).
  { induction m as [|m IH]; intros s Hs; simpl; [reflexivity|].
    destruct (Nat.eqb_spec s nbins); [lia|]. f_equal. apply IH. lia. }
  apply H. lia.
Qed.

Lemma first_bin_row c :
  bin_index (one_hot_drop_last (chan_nbins c) 0) = Some 0%nat /\
  qsum (one_hot_drop_last (chan_nbins c) 0) == 1.
Proof.
  rewrite one_hot_bin_index, one_hot_sum.
  destruct (chan_range c) as [_ H2].
  destruct (Nat.ltb_spec 0 (chan_nbins c)); [split; reflexivity|lia].
Qed.

(** C1, as stated, fails: two residues at distance exactly 20.0 are not
    masked, [np.digitize] gives them the index past the last threshold, and
    the column of that index is the one [[...,:-1]] drops: their distance
    vector is all zero and sums to 0, not to 1. *)
Lemma C1_upper_edge_sums_to_zero :
  ref_shape 2 edge_ref /\
  exists out v,
    np_get_6D_binned edge_ref = Some out /\
    at2 (dist out) 0 1 = Some v /\
    v = repeat 0 37 /\ qsum v == 0 /\ ~ qsum v == 1.
Proof.
  split; [apply const_geom_shape|].
  eexists; eexists. split; [reflexivity|]. split; [vm_compute; reflexivity|].
  split; [reflexivity|]. split; [reflexivity|]. discriminate.
Qed.

(** C1 (amended): for every chain the binner accepts, every pair and every
    channel, the bin vector has the channel's number of bins, its entries are
    0 or 1 (none negative), and it sums to exactly 1 when the pair is masked
    or its value, as the binner rounds it to [float32], lies strictly below
    the channel's upper domain edge (the lower edge included); for an
    unmasked value that is on or above the upper edge once rounded, the
    vector is all zero. *)
Theorem C1_bin_vector_sum n ref :
  ref_shape n ref -> n <> 1%nat ->
  exists out, np_get_6D_binned ref = Some out /\
  forall c i j, (i < n)%nat -> (j < n)%nat ->
  exists d x v,
    at2 (dist ref) i j = Some d /\ at2 (chan c ref) i j = Some x /\
    at2 (chan c out) i j = Some v /\
    length v = chan_nbins c /\
    Forall (fun e => e = 0 \/ e = 1) v /\ Forall (fun e => 0 <= e) v /\
    qsum v ==
      (if ((negb (Qle_bool (to_float32 d) 20) || Nat.eqb i j)
           || negb (Qle_bool (chan_stop c) (to_float32 x)))%bool
       then 1 else 0) /\
    (i <> j -> to_float32 d <= 20 -> chan_stop c <= to_float32 x ->
     v = repeat 0 (chan_nbins c)).
Proof.
  intros Hshape Hn. eexists. split; [apply (binned_total Hshape Hn)|].
  intros c i j Hi Hj.
  destruct (binned_pair c Hshape (binned_total Hshape Hn) Hi Hj)
    as (d & x & Hd & Hx & Hv).
  exists d, x. eexists. split; [exact Hd|]. split; [exact Hx|].
  split; [exact Hv|]. split; [|split; [|split; [|split]]].
  - apply one_hot_length.
  - apply one_hot_entries.
  - eapply Forall_impl; [|apply one_hot_entries].
    intros e [-> | ->]; unfold Qle; simpl; lia.
  - unfold pair_row. rewrite one_hot_sum.
    destruct (negb (Qle_bool (to_float32 d) 20) || Nat.eqb i j)%bool; simpl.
    + destruct (chan_range c) as [_ H2].
      destruct (Nat.ltb_spec 0 (chan_nbins c)); [reflexivity|lia].
    + destruct (chan_range c) as [H1 H2].
      rewrite (digitize_linspace_below (to_float32 x) H1 H2). reflexivity.
  - intros Hij Hfar Hedge. rewrite (unmasked_flag Hij Hfar).
    unfold pair_row. destruct (chan_range c) as [H1 H2].
    pose proof (digitize_full (to_float32 x)
                  (linspace (chan_start c) (chan_stop c) (chan_nbins c)))
      as Hfull.
    rewrite linspace_length, (linspace_all_le (to_float32 x) H1 H2) in Hfull.
    rewrite (proj2 Hfull Hedge). apply one_hot_past_end.
Qed.

Lemma C1_bin_vector_sum_witness :
  exists out, np_get_6D_binned below_edge_ref = Some out /\
  forall c i j, (i < 2)%nat -> (j < 2)%nat ->
  exists d x v,
    at2 (dist below_edge_ref) i j = Some d /\
    at2 (chan c below_edge_ref) i j = Some x /\
    at2 (chan c out) i j = Some v /\
    length v = chan_nbins c /\
    Forall (fun e => e = 0 \/ e = 1) v /\ Forall (fun e => 0 <= e) v /\
    qsum v ==
      (if ((negb (Qle_bool (to_float32 d) 20) || Nat.eqb i j)
           || negb (Qle_bool (chan_stop c) (to_float32 x)))%bool
       then 1 else 0) /\
    (i <> j -> to_float32 d <= 20 -> chan_stop c <= to_float32 x ->
     v = repeat 0 (chan_nbins c)).
Proof.
  apply (@C1_bin_vector_sum 2 below_edge_ref).
  - apply const_geom_shape.
  - discriminate.
Defined.

(** C2, as stated, fails twice.  A distance of 20.0000001 exceeds 20.0, but
    the binner compares what is left of it in [float32], which is 20.0: the
    pair is not masked, and its distance vector is all zero, with no bin at
    all.  And the atom mask is never read: when [_np_get_6D] reports two
    residues 5.0 apart, the pair gets bin 7 of the distance whether or not
    the atom mask marks an atom of it missing. *)
Lemma C2_mask_is_rounded_distance_and_diagonal :
  (exists d out v,
     at2 (dist above_edge_ref) 0 1 = Some d /\ 20 < d /\
     np_get_6D_binned above_edge_ref = Some out /\
     at2 (pair_mask (squeeze (dist above_edge_ref))) 0 1 = Some false /\
     at2 (dist out) 0 1 = Some v /\ v = repeat 0 37 /\
     bin_index v = None) /\
  (pair_missing gap_mask 0 1 = true /\
   forall (Coords : Type)
          (np_get_6D : list Coords -> list (list bool)
                       -> Geom (list (list Q))) xs,
     np_get_6D xs gap_mask = gap_ref ->
     exists out v,
       binned_of np_get_6D xs gap_mask = Some out /\
       at2 (dist out) 0 1 = Some v /\ bin_index v = Some 7%nat).
Proof.
  split.
  - eexists; eexists; eexists. split; [reflexivity|].
    split; [unfold Qlt; simpl; lia|].
    split; [reflexivity|]. split; [vm_compute; reflexivity|].
    split; [vm_compute; reflexivity|]. split; reflexivity.
  - split; [reflexivity|]. intros Coords np_get_6D xs Href.
    unfold binned_of. rewrite Href. eexists; eexists.
    split; [reflexivity|]. split; [vm_compute; reflexivity|]. reflexivity.
Qed.

(** C2 (amended): the mask is computed once, from the distance matrix as
    rounded to [float32] and from the identity pattern, and it is the same
    for the four channels.  A self-pair and a pair whose rounded distance
    exceeds 20.0 are masked and get, in each channel, the vector with its
    single 1 at bin index 0, whatever their values.  Every other pair is
    unmasked and gets in each channel the vector of its own rounded value;
    the atom mask plays no part: it is handed to [_np_get_6D] and not read
    again. *)
Theorem C2_masked_pairs_bin_zero (Coords : Type)
    (np_get_6D : list Coords -> list (list bool) -> Geom (list (list Q)))
    (xs : list Coords) (all_atom_mask : list (list bool)) n :
  let ref := np_get_6D xs all_atom_mask in
  ref_shape n ref -> n <> 1%nat ->
  exists out, binned_of np_get_6D xs all_atom_mask = Some out /\
  forall i j d, (i < n)%nat -> (j < n)%nat ->
    at2 (dist ref) i j = Some d ->
    at2 (pair_mask (squeeze (dist ref))) i j =
      Some (negb (Qle_bool (to_float32 d) 20) || Nat.eqb i j)%bool /\
    (i = j \/ 20 < to_float32 d ->
       forall c, exists v,
         at2 (chan c out) i j = Some v /\
         v = one_hot_drop_last (chan_nbins c) 0 /\
         bin_index v = Some 0%nat /\ qsum v == 1) /\
    (i <> j -> to_float32 d <= 20 ->
       forall c x, at2 (chan c ref) i j = Some x ->
         at2 (chan c out) i j = Some (pair_row c false (to_float32 x))).
Proof.
  intros ref Hshape Hn. unfold binned_of. fold ref.
  eexists. split; [apply (binned_total Hshape Hn)|].
  intros i j d Hi Hj Hd. split; [|split].
  - destruct Hshape as [Hsq _].
    apply (at2_pair_mask (squeeze_square Hsq)); auto.
    now rewrite at2_squeeze, Hd.
  - intros Hcase c.
    destruct (binned_pair c Hshape (binned_total Hshape Hn) Hi Hj)
      as (d' & x & Hd' & Hx & Hv).
    rewrite Hd in Hd'. inversion Hd'; subst d'.
    rewrite (masked_flag Hcase) in Hv.
    eexists. split; [exact Hv|]. split; [reflexivity|].
    unfold pair_row. apply first_bin_row.
  - intros Hij Hfar c x Hx.
    destruct (binned_pair c Hshape (binned_total Hshape Hn) Hi Hj)
      as (d' & x' & Hd' & Hx' & Hv).
    rewrite Hd in Hd'. rewrite Hx in Hx'.
    inversion Hd'; inversion Hx'; subst d' x'.
    now rewrite (unmasked_flag Hij Hfar) in Hv.
Qed.

Lemma C2_masked_pairs_bin_zero_witness :
  exists out, binned_of (fun (_ : list unit) _ => gap_ref) [] gap_mask
              = Some out /\
  forall i j d, (i < 2)%nat -> (j < 2)%nat ->
    at2 (dist gap_ref) i j = Some d ->
    at2 (pair_mask (squeeze (dist gap_ref))) i j =
      Some (negb (Qle_bool (to_float32 d) 20) || Nat.eqb i j)%bool /\
    (i = j \/ 20 < to_float32 d ->
       forall c, exists v,
         at2 (chan c out) i j = Some v /\
         v = one_hot_drop_last (chan_nbins c) 0 /\
         bin_index v = Some 0%nat /\ qsum v == 1) /\
    (i <> j -> to_float32 d <= 20 ->
       forall c x, at2 (chan c gap_ref) i j = Some x ->
         at2 (chan c out) i j = Some (pair_row c false (to_float32 x))).
Proof.
  apply (@C2_masked_pairs_bin_zero unit (fun _ _ => gap_ref) [] gap_mask 2).
  - apply const_geom_shape.
  - discriminate.
Defined.

(** C10, as stated, fails twice.  A distance of 1.9999999999 is below 2.0,
    but in [float32] it is 2.0 and the pair gets bin 1 of the distance, not
    bin 0.  And a pair 1.0 apart does get bin 0 of the distance, as the
    masked self-pair does, but its angle 0.0 is binned like any other (bin
    13 of omega) while that of the masked pair is at bin 0: the output tells
    the two apart. *)
Lemma C10_close_pairs_are_told_apart :
  (exists d out v,
     at2 (dist below_low_ref) 0 1 = Some d /\ d < 2 /\
     np_get_6D_binned below_low_ref = Some out /\
     at2 (pair_mask (squeeze (dist below_low_ref))) 0 1 = Some false /\
     at2 (dist out) 0 1 = Some v /\ bin_index v = Some 1%nat) /\
  (exists out vd vd' vo vo',
     np_get_6D_binned close_ref = Some out /\
     at2 (pair_mask (squeeze (dist close_ref))) 0 1 = Some false /\
     at2 (pair_mask (squeeze (dist close_ref))) 0 0 = Some true /\
     at2 (dist out) 0 1 = Some vd /\ at2 (dist out) 0 0 = Some vd' /\
     vd = vd' /\
     at2 (omega out) 0 1 = Some vo /\ at2 (omega out) 0 0 = Some vo' /\
     bin_index vo = Some 13%nat /\ bin_index vo' = Some 0%nat).
Proof.
  split.
  - eexists; eexists; eexists. split; [reflexivity|].
    split; [unfold Qlt; simpl; lia|].
    split; [reflexivity|]. split; [vm_compute; reflexivity|].
    split; [vm_compute; reflexivity|]. reflexivity.
  - do 5 eexists. split; [reflexivity|].
    split; [vm_compute; reflexivity|]. split; [vm_compute; reflexivity|].
    split; [vm_compute; reflexivity|]. split; [vm_compute; reflexivity|].
    split; [reflexivity|].
    split; [vm_compute; reflexivity|]. split; [vm_compute; reflexivity|].
    split; reflexivity.
Qed.

(** C10 (amended): an unmasked pair (not a self-pair, rounded distance at
    most 20.0) whose distance, as rounded to [float32], is strictly below
    the lower edge 2.0 gets bin index 0 in the dist channel, the very vector
    that every masked pair gets there; in the three angle channels it gets
    the vector of its own rounded angle, where a masked pair gets bin 0. *)
Theorem C10_below_range_shares_bin_zero n ref :
  ref_shape n ref -> n <> 1%nat ->
  exists out, np_get_6D_binned ref = Some out /\
  forall i j d, (i < n)%nat -> (j < n)%nat ->
    at2 (dist ref) i j = Some d ->
    i <> j -> to_float32 d <= 20 -> to_float32 d < 2 ->
    at2 (pair_mask (squeeze (dist ref))) i j = Some false /\
    (exists v, at2 (dist out) i j = Some v /\ bin_index v = Some 0%nat /\
       forall i' j', (i' < n)%nat -> (j' < n)%nat ->
         at2 (pair_mask (squeeze (dist ref))) i' j' = Some true ->
         at2 (dist out) i' j' = Some v) /\
    (forall c x, at2 (chan c ref) i j = Some x ->
       at2 (chan c out) i j = Some (pair_row c false (to_float32 x))) /\
    (forall c i' j', (i' < n)%nat -> (j' < n)%nat ->
       at2 (pair_mask (squeeze (dist ref))) i' j' = Some true ->
       exists v', at2 (chan c out) i' j' = Some v' /\
                  bin_index v' = Some 0%nat).
Proof.
  intros Hshape Hn. eexists. split; [apply (binned_total Hshape Hn)|].
  intros i j d Hi Hj Hd Hij Hle Hlt.
  assert (Hsq : square n (squeeze (dist ref)))
    by (destruct Hshape as [Hsq _]; now apply squeeze_square).
  assert (Hd' : at2 (squeeze (dist ref)) i j = Some (to_float32 d))
    by now rewrite at2_squeeze, Hd.
  assert (Hmasked : forall c i' j', (i' < n)%nat -> (j' < n)%nat ->
            at2 (pair_mask (squeeze (dist ref))) i' j' = Some true ->
            at2 (chan c (match np_get_6D_binned ref with
                         | Some o => o
                         | None => {| dist := []; omega := []; theta := [];
                                      phi := [] |}
                         end)) i' j' =
            Some (one_hot_drop_last (chan_nbins c) 0)).
  { intros c i' j' Hi' Hj' Hmask'.
    rewrite (binned_total Hshape Hn).
    destruct (binned_pair c Hshape (binned_total Hshape Hn) Hi' Hj')
      as (d2 & x2 & Hd2 & Hx2 & Hv').
    assert (Hd2' : at2 (squeeze (dist ref)) i' j' = Some (to_float32 d2))
      by now rewrite at2_squeeze, Hd2.
    rewrite (at2_pair_mask Hsq Hd2' Hi' Hj') in Hmask'.
    inversion Hmask' as [Hm']. rewrite Hm' in Hv'. exact Hv'. }
  rewrite (binned_total Hshape Hn) in Hmasked.
  split; [|split; [|split]].
  - rewrite <- (unmasked_flag Hij Hle).
    now apply (at2_pair_mask Hsq Hd' Hi Hj).
  - destruct (binned_pair Dist Hshape (binned_total Hshape Hn) Hi Hj)
      as (d1 & x & Hd1 & Hx & Hv).
    cbn [chan dist] in Hx, Hv.
    rewrite Hd in Hd1, Hx. inversion Hd1; subst d1. inversion Hx; subst x.
    rewrite (unmasked_flag Hij Hle) in Hv.
    assert (Hdig : digitize (to_float32 d) (linspace 2 20 37) = 0%nat).
    { unfold linspace. cbn [seq map digitize].
      destruct (Qle_bool _ (to_float32 d)) eqn:E; [|reflexivity].
      apply Qle_bool_iff in E.
      assert (Hb : inject_Z (Z.of_nat 0)
                   * ((20 - 2) / inject_Z (Z.of_nat (37 - 1))) + 2 == 2)
        by reflexivity.
      rewrite Hb in E. Lqa.lra. }
    unfold pair_row in Hv. cbn [chan_start chan_stop chan_nbins] in Hv.
    rewrite Hdig in Hv.
    eexists. split; [exact Hv|]. split; [apply one_hot_bin_index|].
    intros i' j' Hi' Hj' Hmask'. exact (Hmasked Dist i' j' Hi' Hj' Hmask').
  - intros c x Hx.
    destruct (binned_pair c Hshape (binned_total Hshape Hn) Hi Hj)
      as (d1 & x1 & Hd1 & Hx1 & Hv).
    rewrite Hd in Hd1. rewrite Hx in Hx1.
    inversion Hd1; inversion Hx1; subst d1 x1.
    now rewrite (unmasked_flag Hij Hle) in Hv.
  - intros c i' j' Hi' Hj' Hmask'. eexists.
    split; [exact (Hmasked c i' j' Hi' Hj' Hmask')|]. apply first_bin_row.
Qed.

Lemma C10_below_range_shares_bin_zero_witness :
  exists out, np_get_6D_binned close_ref = Some out /\
  forall i j d, (i < 2)%nat -> (j < 2)%nat ->
    at2 (dist close_ref) i j = Some d ->
    i <> j -> to_float32 d <= 20 -> to_float32 d < 2 ->
    at2 (pair_mask (squeeze (dist close_ref))) i j = Some false /\
    (exists v, at2 (dist out) i j = Some v /\ bin_index v = Some 0%nat /\
       forall i' j', (i' < 2)%nat -> (j' < 2)%nat ->
         at2 (pair_mask (squeeze (dist close_ref))) i' j' = Some true ->
         at2 (dist out) i' j' = Some v) /\
    (forall c x, at2 (chan c close_ref) i j = Some x ->
       at2 (chan c out) i j = Some (pair_row c false (to_float32 x))) /\
    (forall c i' j', (i' < 2)%nat -> (j' < 2)%nat ->
       at2 (pair_mask (squeeze (dist close_ref))) i' j' = Some true ->
       exists v', at2 (chan c out) i' j' = Some v' /\
                  bin_index v' = Some 0%nat).
Proof.
  apply (@C10_below_range_shares_bin_zero 2 close_ref).
  - apply const_geom_shape.
  - discriminate.
Defined.

End BinnerFacts.

(** ** SequenceRelaxer *)

Section RelaxerFacts.

Import PyTree Arrays SequenceRelaxer Orders.
Local Open Scope R_scope.

(** [(a - b) + b] gives back [a], entry by entry. *)
Lemma straight_through_row : forall a b : list R,
  length a = length b -> map2 Rplus (map2 Rminus a b) b = a.
Proof.
  induction a as [|x a IH]; intros [|y b] Hlen; simpl in *;
    try discriminate; [reflexivity|].
  f_equal; [ring|]. apply IH. now injection Hlen.
Qed.

Lemma blend_all_row : forall (w : R) (a b : list R),
  w = 1 -> length a = length b ->
  map2 Rplus (map (Rmult w) a) (map (Rmult (1 - w)) b) = a.
Proof.
  intros w a b ->. revert b.
  induction a as [|x a IH]; intros [|y b] Hlen; simpl in *;
    try discriminate; [reflexivity|].
  f_equal; [ring|]. apply IH. now injection Hlen.
Qed.

Lemma blend_none_row : forall (w : R) (a b : list R),
  w = 0 -> length a = length b ->
  map2 Rplus (map (Rmult w) a) (map (Rmult (1 - w)) b) = b.
Proof.
  intros w a b ->. revert b.
  induction a as [|x a IH]; intros [|y b] Hlen; simpl in *;
    try discriminate; [reflexivity|].
  f_equal; [ring|]. apply IH. now injection Hlen.
Qed.

Lemma softmax_length v : length (softmax v) = length v.
Proof. unfold softmax. apply length_map. Qed.

Lemma one_hot_length_R n i : length (one_hot n i) = n.
Proof. unfold one_hot. now rewrite length_map, length_seq. Qed.

Lemma relax_rows x o :
  relax x o =
  {| input := x; logits := map (map (Rmult 2)) x;
     soft_view := map (row_soft o) x; hard_view := map (row_hard o) x;
     pseudo := map (row_pseudo o) x |}.
Proof.
  unfold relax, madd, msub, scale, stop_gradient.
  repeat (rewrite map_map || rewrite bmap2_map_map || rewrite bmap2_map_id).
  reflexivity.
Qed.

Lemma row_soft_length o r : length (row_soft o r) = length r.
Proof. unfold row_soft. now rewrite softmax_length, !length_map. Qed.

(** For a row of 20 logits nothing is broadcast. *)
Lemma row_hard_wide o r :
  length r = 20%nat ->
  row_hard o r =
  map2 Rplus
    (map2 Rminus (one_hot 20 (argmax (row_soft o r))) (row_soft o r))
    (row_soft o r).
Proof.
  intros H. unfold row_hard.
  rewrite (bmap2_same_length Rminus)
    by now rewrite one_hot_length_R, row_soft_length.
  apply bmap2_same_length.
  rewrite map2_length; now rewrite one_hot_length_R, ?row_soft_length.
Qed.

Lemma row_hard_one_hot o r :
  length r = 20%nat -> row_hard o r = one_hot 20 (argmax (row_soft o r)).
Proof.
  intros H. rewrite (@row_hard_wide o _ H). apply straight_through_row.
  now rewrite one_hot_length_R, row_soft_length.
Qed.

Lemma row_pseudo_wide o r :
  length r = 20%nat ->
  row_pseudo o r =
  map2 Rplus (map (Rmult (hard o)) (row_hard o r))
    (map (Rmult (1 - hard o))
       (map2 Rplus (map (Rmult (soft o)) (row_soft o r))
                   (map (Rmult (1 - soft o)) r))).
Proof.
  intros H. unfold row_pseudo.
  rewrite (bmap2_same_length Rplus (map (Rmult (soft o)) (row_soft o r)))
    by now rewrite !length_map, row_soft_length.
  apply bmap2_same_length.
  rewrite !length_map, (@row_hard_one_hot o _ H), one_hot_length_R.
  rewrite map2_length; rewrite !length_map, row_soft_length; congruence.
Qed.

Lemma row_pseudo_hard o r :
  length r = 20%nat -> soft o = 1 -> hard o = 1 ->
  row_pseudo o r = row_hard o r.
Proof.
  intros H Hs Hh. rewrite (@row_pseudo_wide o _ H).
  apply blend_all_row; [exact Hh|].
  rewrite (@row_hard_one_hot o _ H), one_hot_length_R.
  rewrite map2_length; rewrite !length_map, row_soft_length; congruence.
Qed.

Lemma row_pseudo_input o r :
  length r = 20%nat -> soft o = 0 -> hard o = 0 ->
  row_pseudo o r = r.
Proof.
  intros H Hs Hh. rewrite (@row_pseudo_wide o _ H).
  rewrite (blend_none_row (w := hard o)); [|exact Hh|].
  - apply blend_none_row; [exact Hs|]. apply row_soft_length.
  - rewrite (@row_hard_one_hot o _ H), one_hot_length_R.
    rewrite map2_length; rewrite !length_map, row_soft_length; congruence.
Qed.

Lemma row_pseudo_soft o r :
  length r = 20%nat -> soft o = 1 -> hard o = 0 ->
  row_pseudo o r = row_soft o r.
Proof.
  intros H Hs Hh. rewrite (@row_pseudo_wide o _ H).
  rewrite (blend_none_row (w := hard o)); [|exact Hh|].
  - apply blend_all_row; [exact Hs|]. apply row_soft_length.
  - rewrite (@row_hard_one_hot o _ H), one_hot_length_R.
    rewrite map2_length; rewrite !length_map, row_soft_length; congruence.
Qed.

Lemma row_pseudo_length o r :
  length r = 20%nat -> length (row_pseudo o r) = 20%nat.
Proof.
  intros H. rewrite (@row_pseudo_wide o _ H).
  rewrite map2_length; rewrite !length_map, (@row_hard_one_hot o _ H),
    one_hot_length_R; [reflexivity|].
  rewrite map2_length; rewrite !length_map, row_soft_length; congruence.
Qed.

Lemma map_ext_Forall {A B : Type} (f g : A -> B) (P : A -> Prop) l :
  Forall P l -> (forall a, P a -> f a = g a) -> map f l = map g l.
Proof.
  intros H Hfg. induction H as [|a l Ha _ IH]; simpl; [reflexivity|].
  now rewrite IH, (Hfg a Ha).
Qed.

Lemma nth_map2_R (f : R -> R -> R) : forall (a b : list R) j,
  (j < length a)%nat -> (j < length b)%nat ->
  nth j (map2 f a b) 0 = f (nth j a 0) (nth j b 0).
Proof.
  induction a as [|x a IH]; intros [|y b] [|j] Ha Hb; simpl in *; try lia.
  - reflexivity.
  - apply IH; lia.
Qed.

Lemma nth_map_R (g : R -> R) (a : list R) j :
  (j < length a)%nat -> nth j (map g a) 0 = g (nth j a 0).
Proof.
  intros H. rewrite (nth_indep _ 0 (g 0)) by now rewrite length_map.
  apply map_nth.
Qed.

Lemma nth_one_hot n k j :
  (j < n)%nat -> nth j (one_hot n k) 0 = if Nat.eqb j k then 1 else 0.
Proof.
  intros H. unfold one_hot.
  rewrite (nth_indep _ 0 ((fun c => if Nat.eqb c k then 1 else 0) 0%nat))
    by now rewrite length_map, length_seq.
  rewrite (map_nth (fun c => if Nat.eqb c k then 1 else 0)).
  now rewrite seq_nth.
Qed.

Lemma rsum_map_div (f : R -> R) c v :
  rsum (map (fun x => f x / c) v) = rsum (map f v) / c.
Proof.
  unfold rsum. induction v as [|x v IH]; simpl.
  - unfold Rdiv. ring.
  - rewrite IH. unfold Rdiv. ring.
Qed.

Lemma rsum_nonneg v : Forall (fun e => 0 <= e) v -> 0 <= rsum v.
Proof.
  unfold rsum. induction 1 as [|e v He _ IH]; simpl; lra.
Qed.

Lemma rsum_pos v : v <> [] -> Forall (fun e => 0 < e) v -> 0 < rsum v.
Proof.
  intros Hv H. destruct H as [|e v He Hrest]; [contradiction|].
  assert (0 <= rsum v).
  { apply rsum_nonneg. eapply Forall_impl; [|exact Hrest].
    intros a Ha. lra. }
  unfold rsum in *. simpl. lra.
Qed.

Lemma rsum_bounds_entry v e :
  Forall (fun a => 0 <= a) v -> In e v -> e <= rsum v.
Proof.
  unfold rsum. induction 1 as [|a v Ha Hrest IH]; intros Hin; [destruct Hin|].
  pose proof (rsum_nonneg Hrest) as Hs. unfold rsum in Hs.
  simpl. destruct Hin as [-> | Hin]; [lra|]. specialize (IH Hin). lra.
Qed.

Lemma exps_positive v : Forall (fun e => 0 < e) (map exp v).
Proof. apply Forall_map, Forall_forall. intros x _. apply exp_pos. Qed.

Lemma exps_sum_pos v : v <> [] -> 0 < rsum (map exp v).
Proof.
  intros Hv. apply rsum_pos; [|apply exps_positive].
  destruct v; [contradiction|discriminate].
Qed.

(** [jax.nn.softmax] gives a distribution. *)
Lemma softmax_distribution v :
  v <> [] ->
  rsum (softmax v) = 1 /\ Forall (fun e => 0 < e <= 1) (softmax v).
Proof.
  intros Hv. pose proof (exps_sum_pos Hv) as Hs. unfold softmax. split.
  - rewrite (rsum_map_div exp). field. lra.
  - apply Forall_map, Forall_forall. intros x Hx.
    pose proof (exp_pos x) as Hx0.
    assert (Hle : exp x <= rsum (map exp v)).
    { apply rsum_bounds_entry.
      - eapply Forall_impl; [|apply exps_positive]. intros a Ha. lra.
      - now apply in_map. }
    split.
    + now apply Rdiv_lt_0_compat.
    + apply Rmult_le_reg_r with (rsum (map exp v)); [exact Hs|].
      unfold Rdiv. rewrite Rmult_assoc, Rinv_l; lra.
Qed.

Lemma first_max_snoc_new pre besti x :
  first_max pre besti -> nth besti pre 0 < x ->
  first_max (pre ++ [x]) (length pre).
Proof.
  intros (Hk & Hmax & Hfirst) Hlt.
  assert (Hx : nth (length pre) (pre ++ [x]) 0 = x).
  { rewrite app_nth2 by lia. now rewrite Nat.sub_diag. }
  unfold first_max. rewrite Hx, length_app. simpl. repeat split.
  - lia.
  - intros j Hj. destruct (Nat.eq_dec j (length pre)) as [->|Hne].
    + rewrite Hx. lra.
    + rewrite app_nth1 by lia.
      assert (nth j pre 0 <= nth besti pre 0) by (apply Hmax; lia). lra.
  - intros j Hj. rewrite app_nth1 by lia.
    assert (nth j pre 0 <= nth besti pre 0) by (apply Hmax; lia). lra.
Qed.

Lemma first_max_snoc_keep pre besti x :
  first_max pre besti -> ~ nth besti pre 0 < x ->
  first_max (pre ++ [x]) besti.
Proof.
  intros (Hk & Hmax & Hfirst) Hge.
  unfold first_max. rewrite length_app. simpl.
  rewrite (app_nth1 pre [x] 0 Hk). repeat split.
  - lia.
  - intros j Hj. destruct (Nat.eq_dec j (length pre)) as [->|Hne].
    + rewrite app_nth2 by lia. rewrite Nat.sub_diag. simpl. lra.
    + rewrite app_nth1 by lia. apply Hmax. lia.
  - intros j Hj. rewrite app_nth1 by lia. now apply Hfirst.
Qed.

Lemma argmax_from_first_max : forall v pre best besti,
  first_max pre besti -> nth besti pre 0 = best ->
  first_max (pre ++ v) (argmax_from best besti (length pre) v).
Proof.
  induction v as [|x v IH]; intros pre best besti Hfm Hbest; simpl.
  - now rewrite app_nil_r.
  - replace (pre ++ x :: v) with ((pre ++ [x]) ++ v)
      by (now rewrite <- app_assoc).
    replace (S (length pre)) with (length (pre ++ [x]))
      by (rewrite length_app; simpl; lia).
    destruct (Rlt_dec best x) as [Hlt|Hge].
    + apply IH.
      * apply (first_max_snoc_new Hfm). now rewrite Hbest.
      * rewrite app_nth2 by lia. now rewrite Nat.sub_diag.
    + apply IH.
      * apply (first_max_snoc_keep Hfm). now rewrite Hbest.
      * destruct Hfm as (Hk & _). now rewrite app_nth1.
Qed.

(** [argmax] returns the first index of a largest entry. *)
Lemma argmax_first_max v : v <> [] -> first_max v (argmax v).
Proof.
  destruct v as [|x v]; [contradiction|]. intros _. unfold argmax.
  apply (@argmax_from_first_max v [x] x 0%nat).
  - unfold first_max. simpl. repeat split; try lia.
    intros j Hj. assert (j = 0%nat) as -> by lia. simpl. lra.
  - reflexivity.
Qed.

Lemma one_hot_out_of_range n a : (n <= a)%nat -> one_hot n a = repeat 0 n.
Proof.
  intros Ha. unfold one_hot.
  assert (H : forall m s, (s + m <= a)%nat ->
            map (fun c => if Nat.eqb c a then 1 else 0) (seq s m) =
            repeat 0 m).
  { induction m as [|m IH]; intros s Hs; simpl; [reflexivity|].
    destruct (Nat.eqb_spec s a); [lia|]. f_equal. apply IH. lia. }
  apply H. lia.
Qed.

Lemma set_row_length i r : forall m, length (set_row i r m) = length m.
Proof.
  revert i. induction i as [|i IH]; intros [|row m]; simpl; auto.
Qed.

Lemma set_row_same r : forall i m,
  (i < length m)%nat -> nth_error (set_row i r m) i = Some r.
Proof.
  induction i as [|i IH]; intros [|row m] H; simpl in *; try lia.
  - reflexivity.
  - apply IH. lia.
Qed.

Lemma set_row_other r : forall i j m,
  i <> j -> nth_error (set_row i r m) j = nth_error m j.
Proof.
  induction i as [|i IH]; intros [|j] [|row m] H; simpl; auto;
    try contradiction.
Qed.

Lemma write_rows_cons p0 idx r0 ref m :
  write_rows (p0 :: idx) (r0 :: ref) m = write_rows idx ref (set_row p0 r0 m).
Proof. reflexivity. Qed.

Lemma write_rows_length : forall idx ref m,
  length (write_rows idx ref m) = length m.
Proof.
  induction idx as [|p0 idx' IH]; intros [|r0 ref] m; try reflexivity.
  rewrite write_rows_cons, IH. apply set_row_length.
Qed.

Lemma write_rows_untouched : forall idx ref m j,
  ~ In j idx -> nth_error (write_rows idx ref m) j = nth_error m j.
Proof.
  induction idx as [|p0 idx' IH]; intros [|r0 ref] m j Hj; try reflexivity.
  rewrite write_rows_cons, IH.
  - apply set_row_other. intros ->. apply Hj. now left.
  - intros Hin. apply Hj. now right.
Qed.

(** Row [idx[k]] of the result is [ref[k]]. *)
Lemma write_rows_selected : forall idx ref m k i r,
  NoDup idx -> (forall j, In j idx -> (j < length m)%nat) ->
  nth_error idx k = Some i -> nth_error ref k = Some r ->
  nth_error (write_rows idx ref m) i = Some r.
Proof.
  induction idx as [|p0 idx' IH]; intros ref m k i r Hnd Hin Hp Hr.
  - destruct k; discriminate.
  - destruct ref as [|r0 ref]; [destruct k; discriminate|].
    inversion Hnd as [|? ? Hnot Hnd']; subst.
    rewrite write_rows_cons. destruct k as [|k]; simpl in Hp, Hr.
    + inversion Hp; inversion Hr; subst.
      rewrite write_rows_untouched by exact Hnot.
      apply set_row_same. apply Hin. now left.
    + apply (IH ref _ k); auto.
      intros j Hj. rewrite set_row_length. apply Hin. now right.
Qed.

(** ** What [_get_seq] returns, and when *)

Lemma relaxes_wide x :
  Forall (fun r => length r = 20%nat) x -> relaxes x = true.
Proof.
  intros H. unfold relaxes. apply orb_true_iff. left.
  apply forallb_forall. intros r Hr. rewrite Forall_forall in H.
  apply Nat.eqb_eq. auto.
Qed.

Lemma widen_wide w r : length r = 20%nat -> widen w r = r.
Proof.
  destruct r as [|a [|b r]]; simpl; intros H; try discriminate; reflexivity.
Qed.

Lemma reference_wide (aatype : list nat) :
  Forall (fun r => length r = 20%nat) (map (one_hot 20) aatype).
Proof.
  apply Forall_map, Forall_forall. intros a _. apply one_hot_length_R.
Qed.

(** Rows of 20 entries written into a matrix of 20 columns. *)
Lemma at_set_rows_wide p ref m :
  Forall (fun r => length r = 20%nat) ref ->
  Forall (fun r => length r = 20%nat) m ->
  length ref = length p ->
  at_set_rows p ref m = Some (write_rows p ref m).
Proof.
  intros Href Hm Hlen. unfold at_set_rows.
  rewrite Hlen, Nat.eqb_refl. cbn [orb andb].
  replace (forallb _ m) with true.
  - f_equal. f_equal. rewrite <- (map_id ref) at 2.
    apply (map_ext_Forall _ _ Href). intros r Hr. now apply widen_wide.
  - symmetry. apply forallb_forall. intros row Hrow.
    apply forallb_forall. intros r Hr.
    rewrite Forall_forall in Href, Hm.
    rewrite (Href r Hr), (Hm row Hrow). reflexivity.
Qed.

(** As many reference rows as positions, or a single one, or the call
    raises. *)
Lemma at_set_rows_misfit p ref m :
  length ref <> length p -> length ref <> 1%nat ->
  at_set_rows p ref m = None.
Proof.
  intros H1 H2. unfold at_set_rows.
  apply Nat.eqb_neq in H1. apply Nat.eqb_neq in H2. now rewrite H1, H2.
Qed.

(** The rows of 20 entries fit rows of 20 entries only. *)
Lemma at_set_rows_narrow p ref m r row :
  In r ref -> In row m -> length r = 20%nat -> length row <> 20%nat ->
  at_set_rows p ref m = None.
Proof.
  intros Hr Hrow H20 Hne. unfold at_set_rows.
  replace (forallb _ m) with false; [now rewrite andb_false_r|].
  symmetry. apply not_true_is_false. intros Hall.
  rewrite forallb_forall in Hall. specialize (Hall row Hrow).
  rewrite forallb_forall in Hall. specialize (Hall r Hr).
  rewrite H20 in Hall. apply orb_true_iff in Hall.
  destruct Hall as [H|H]; apply Nat.eqb_eq in H; [congruence|discriminate].
Qed.

(** What [at_set_rows] returns keeps the rows it was not asked to write. *)
Lemma at_set_rows_frame p ref m m' :
  at_set_rows p ref m = Some m' ->
  length m' = length m /\
  forall i, ~ In i p -> nth_error m' i = nth_error m i.
Proof.
  unfold at_set_rows. destruct (_ && _)%bool; [|discriminate].
  intros H. inversion H. split.
  - apply write_rows_length.
  - intros i Hi. now apply write_rows_untouched.
Qed.

Lemma seq_map_some f q s :
  seq_map f q = Some s ->
  f (input q) = Some (input s) /\ f (logits q) = Some (logits s) /\
  f (soft_view q) = Some (soft_view s) /\
  f (hard_view q) = Some (hard_view s) /\ f (pseudo q) = Some (pseudo s).
Proof.
  unfold seq_map.
  destruct (f (input q)), (f (logits q)), (f (soft_view q)),
           (f (hard_view q)), (f (pseudo q)); try discriminate.
  intros H. inversion H. repeat split.
Qed.

(** The five views of logits of 20 columns have 20 columns. *)
Lemma relax_wide x o :
  Forall (fun r => length r = 20%nat) x ->
  Forall (fun r => length r = 20%nat) (input (relax x o)) /\
  Forall (fun r => length r = 20%nat) (logits (relax x o)) /\
  Forall (fun r => length r = 20%nat) (soft_view (relax x o)) /\
  Forall (fun r => length r = 20%nat) (hard_view (relax x o)) /\
  Forall (fun r => length r = 20%nat) (pseudo (relax x o)).
Proof.
  intros Hx. rewrite relax_rows. cbn [input logits soft_view hard_view pseudo].
  repeat split; try exact Hx; apply Forall_map;
    (eapply Forall_impl; [|exact Hx]); intros r Hr.
  - now rewrite length_map.
  - now rewrite row_soft_length.
  - now rewrite (@row_hard_one_hot o _ Hr), one_hot_length_R.
  - now apply row_pseudo_length.
Qed.

Lemma get_seq_cases proto aatype (params : pytree matrix) o (x : matrix) :
  leaf_at ["seq"%string] params = Some x ->
  Forall (fun r => length r = 20%nat) x ->
  get_seq proto aatype params o =
  match is_partial proto, pos o with
  | true, Some p =>
      seq_map (at_set_rows p (map (one_hot 20) aatype)) (relax x o)
  | _, _ => Some (relax x o)
  end.
Proof.
  intros Hseq Hx. unfold get_seq. now rewrite Hseq, (relaxes_wide Hx).
Qed.

(** Without an overwrite [_get_seq] returns the views of [relax]. *)
Lemma get_seq_plain proto aatype (params : pytree matrix) o (x : matrix) :
  leaf_at ["seq"%string] params = Some x ->
  Forall (fun r => length r = 20%nat) x ->
  is_partial proto = false \/ pos o = None ->
  get_seq proto aatype params o = Some (relax x o).
Proof.
  intros Hseq Hx Hmode. rewrite (@get_seq_cases proto aatype params o x Hseq Hx).
  destruct Hmode as [-> | ->]; [reflexivity|].
  now destruct (is_partial proto).
Qed.

(** With an overwrite and one reference residue per position it returns
    the views with the reference rows written. *)
Lemma get_seq_written aatype (params : pytree matrix) o (x : matrix) p :
  leaf_at ["seq"%string] params = Some x ->
  Forall (fun r => length r = 20%nat) x ->
  pos o = Some p -> length aatype = length p ->
  get_seq partial aatype params o =
  Some {| input := write_rows p (map (one_hot 20) aatype) x;
          logits := write_rows p (map (one_hot 20) aatype)
                               (logits (relax x o));
          soft_view := write_rows p (map (one_hot 20) aatype)
                                  (soft_view (relax x o));
          hard_view := write_rows p (map (one_hot 20) aatype)
                                  (hard_view (relax x o));
          pseudo := write_rows p (map (one_hot 20) aatype)
                               (pseudo (relax x o)) |}.
Proof.
  intros Hseq Hx Hp Hlen. rewrite (@get_seq_cases partial aatype params o x Hseq Hx).
  rewrite Hp. cbn [is_partial]. unfold seq_map.
  destruct (relax_wide o Hx) as (H1 & H2 & H3 & H4 & H5).
  assert (Hl : length (map (one_hot 20) aatype) = length p)
    by now rewrite length_map.
  rewrite !(at_set_rows_wide _ (reference_wide aatype)) by assumption.
  reflexivity.
Qed.

(** With an overwrite, [_get_seq] raises unless there is one reference
    residue per configured position, or a single one. *)
Lemma get_seq_misfit aatype (params : pytree matrix) o p :
  pos o = Some p ->
  length aatype <> length p -> length aatype <> 1%nat ->
  get_seq partial aatype params o = None.
Proof.
  intros Hp H1 H2. unfold get_seq.
  destruct (leaf_at ["seq"%string] params) as [x|]; [|reflexivity].
  destruct (relaxes x); [|reflexivity].
  rewrite Hp. cbn [is_partial]. unfold seq_map.
  now rewrite at_set_rows_misfit by now rewrite length_map.
Qed.

(** Reference rows of 20 entries, one per position or a single one, can
    be written into a matrix of 20 columns. *)
Lemma at_set_rows_fits p (ref m : matrix) :
  Forall (fun r => length r = 20%nat) ref ->
  Forall (fun r => length r = 20%nat) m ->
  length ref = length p \/ length ref = 1%nat ->
  exists m', at_set_rows p ref m = Some m'.
Proof.
  intros Href Hm Hlen. unfold at_set_rows.
  replace (Nat.eqb (length ref) (length p) || Nat.eqb (length ref) 1)%bool
    with true.
  - replace (forallb _ m) with true; [cbn [andb]; eauto|].
    symmetry. apply forallb_forall. intros row Hrow.
    apply forallb_forall. intros r Hr.
    rewrite Forall_forall in Href, Hm.
    rewrite (Href r Hr), (Hm row Hrow). reflexivity.
  - symmetry. apply orb_true_iff.
    destruct Hlen as [H|H]; [left|right]; now apply Nat.eqb_eq.
Qed.

Lemma get_seq_returns proto aatype (params : pytree matrix) o (x : matrix) :
  leaf_at ["seq"%string] params = Some x ->
  Forall (fun r => length r = 20%nat) x ->
  reference_fits proto o aatype ->
  exists s, get_seq proto aatype params o = Some s.
Proof.
  intros Hseq Hx Hfit.
  rewrite (@get_seq_cases proto aatype params o x Hseq Hx).
  unfold reference_fits in Hfit.
  destruct (is_partial proto); [|eauto].
  destruct (pos o) as [p|]; [|eauto].
  destruct (relax_wide o Hx) as (W1 & W2 & W3 & W4 & W5).
  assert (Hl : length (map (one_hot 20) aatype) = length p \/
               length (map (one_hot 20) aatype) = 1%nat)
    by now rewrite length_map.
  unfold seq_map.
  destruct (at_set_rows_fits p (reference_wide aatype) W1 Hl) as [m1 ->].
  destruct (at_set_rows_fits p (reference_wide aatype) W2 Hl) as [m2 ->].
  destruct (at_set_rows_fits p (reference_wide aatype) W3 Hl) as [m3 ->].
  destruct (at_set_rows_fits p (reference_wide aatype) W4 Hl) as [m4 ->].
  destruct (at_set_rows_fits p (reference_wide aatype) W5 Hl) as [m5 ->].
  eauto.
Qed.

(** The softmax of a row, entry by entry. *)
Lemma row_soft_entries o r j :
  r <> [] -> (j < length r)%nat ->
  rsum (row_soft o r) = 1 /\ 0 < nth j (row_soft o r) 0 /\
  nth j (row_soft o r) 0 * rsum (map (fun l => exp (2 * l / temp o)) r) =
  exp (2 * nth j r 0 / temp o).
Proof.
  intros Hr Hj. unfold row_soft.
  set (v := map (fun l => l / temp o) (map (Rmult 2) r)).
  assert (Hv : v <> []) by (unfold v; destruct r; [contradiction|discriminate]).
  destruct (softmax_distribution Hv) as [Hsum Hall].
  assert (Hlen : length v = length r) by (unfold v; now rewrite !length_map).
  assert (Hs : rsum (map (fun l => exp (2 * l / temp o)) r) =
               rsum (map exp v)).
  { unfold v. now rewrite !map_map. }
  assert (Hvj : nth j v 0 = 2 * nth j r 0 / temp o).
  { unfold v. rewrite nth_map_R by now rewrite length_map.
    now rewrite nth_map_R. }
  split; [exact Hsum|].
  assert (Hnth : nth j (softmax v) 0 = exp (nth j v 0) / rsum (map exp v)).
  { unfold softmax.
    rewrite (nth_map_R (fun x => exp x / rsum (map exp v))) by lia.
    reflexivity. }
  split.
  - rewrite Forall_forall in Hall. apply Hall. apply nth_In.
    rewrite softmax_length. lia.
  - rewrite Hnth, Hs, Hvj. pose proof (exps_sum_pos Hv). field. lra.
Qed.



End RelaxerFacts.

(** ** Nested dictionaries *)

Section PyTreeFacts.

Import PyTree.

(** Induction on a tree with the hypothesis for every entry of a
    dictionary. *)
Lemma pytree_induction {A : Type} (P : pytree A -> Prop) :
  (forall a, P (Leaf a)) ->
  (forall kids, Forall (fun kv => P (snd kv)) kids -> P (Dict kids)) ->
  forall t, P t.
Proof.
  intros HL HD.
  fix IH 1. intros [a|kids].
  - apply HL.
  - apply HD. induction kids as [|kv kids IHk]; constructor.
    + apply IH.
    + exact IHk.
Qed.

Lemma leaf_at_nil {A : Type} (t : pytree A) : leaf_at [] t = as_leaf t.
Proof. destruct t; reflexivity. Qed.

Lemma leaf_at_cons {A : Type} k p (d : list (string * pytree A)) :
  leaf_at (k :: p) (Dict d) =
  match lookup k d with
  | Some sub => leaf_at p sub
  | None => None
  end.
Proof.
  simpl. induction d as [|[k' sub] d IH]; simpl; [reflexivity|].
  destruct (String.eqb k k'); [reflexivity|exact IH].
Qed.

Lemma mapM_ext {X Y : Type} (f g : X -> option Y) xs :
  (forall x, f x = g x) -> mapM f xs = mapM g xs.
Proof.
  intros H. induction xs as [|x xs IH]; simpl; [reflexivity|].
  now rewrite H, IH.
Qed.

Lemma mapM_length {X Y : Type} (f : X -> option Y) : forall xs ys,
  mapM f xs = Some ys -> length ys = length xs.
Proof.
  induction xs as [|x xs IH]; simpl; intros ys H.
  - now inversion H.
  - destruct (f x); [|discriminate].
    destruct (mapM f xs) as [ys'|]; [|discriminate].
    inversion H; subst. simpl. f_equal. now apply IH.
Qed.

(** Reading a leaf under [k :: p] in dictionaries is reading their entries
    of key [k] and then the leaf under [p]. *)
Lemma mapM_leaf_at_cons {A : Type} k p : forall (rest : list (pytree A)) rkids,
  mapM as_dict rest = Some rkids ->
  mapM (leaf_at (k :: p)) rest =
  match mapM (lookup k) rkids with
  | Some subs => mapM (leaf_at p) subs
  | None => None
  end.
Proof.
  induction rest as [|t rest IH]; intros rkids H; simpl in H.
  - inversion H; subst. reflexivity.
  - destruct t as [a|d]; simpl in H; [discriminate|].
    destruct (mapM as_dict rest) as [rk|] eqn:E; [|discriminate].
    inversion H; subst. cbn [mapM]. rewrite leaf_at_cons, (IH rk eq_refl).
    destruct (lookup k d) as [sub|]; [|reflexivity].
    destruct (mapM (lookup k) rk) as [subs|]; cbn [mapM].
    + reflexivity.
    + now destruct (leaf_at p sub).
Qed.

Lemma map_kids_leafwise {A B : Type} (f : list A -> option B) rest rkids k p :
  mapM as_dict rest = Some rkids ->
  forall kids rs,
    Forall (fun kv => forall rest' r', tree_map_n f (snd kv) rest' = Some r' ->
                      forall q, leafwise f (snd kv) rest' r' q) kids ->
    map_kids (tree_map_n f) rkids kids = Some rs ->
    leafwise f (Dict kids) rest (Dict rs) (k :: p).
Proof.
  intros Hrest. unfold leafwise. intros kids rs.
  rewrite !leaf_at_cons, (mapM_leaf_at_cons k p rest Hrest).
  revert rs. induction kids as [|[k0 sub] kids IHk]; intros rs HF Hgo.
  - simpl in Hgo. inversion Hgo; subst. simpl. split; [auto|discriminate].
  - inversion HF as [|? ? Hsub HF']; subst. cbn [map_kids fst snd] in Hgo.
    destruct (mapM (lookup k0) rkids) as [subs|] eqn:Esubs; [|discriminate].
    destruct (tree_map_n f sub subs) as [r0|] eqn:Er0; [|discriminate].
    fold (map_kids (tree_map_n f) rkids) in Hgo.
    destruct (map_kids (tree_map_n f) rkids kids) as [rs'|] eqn:Ers;
      [|discriminate].
    inversion Hgo; subst rs. cbn [lookup].
    destruct (String.eqb k k0) eqn:Ek.
    + apply String.eqb_eq in Ek. subst k0. rewrite Esubs.
      exact (Hsub subs r0 Er0 p).
    + exact (IHk rs' HF' eq_refl).
Qed.

Lemma tree_map_n_leafwise {A B : Type} (f : list A -> option B) :
  forall t rest r, tree_map_n f t rest = Some r ->
  forall p, leafwise f t rest r p.
Proof.
  induction t as [a|kids IH] using pytree_induction; intros rest r H p.
  - simpl in H. destruct (mapM as_leaf rest) as [bs|] eqn:E; [|discriminate].
    destruct (f (a :: bs)) as [b|] eqn:Eb; [|discriminate].
    inversion H; subst r. unfold leafwise. destruct p as [|k p]; simpl.
    + split; [discriminate|]. intros a' Ha. inversion Ha; subst a'.
      exists bs, b. repeat split; auto.
    + split; [reflexivity|discriminate].
  - simpl in H. destruct (mapM as_dict rest) as [rkids|] eqn:E; [|discriminate].
    destruct (forallb (same_keys kids) rkids); [|discriminate].
    destruct (map_kids (tree_map_n f) rkids kids) as [rs|] eqn:Ers;
      [|discriminate].
    inversion H; subst r. destruct p as [|k p].
    + unfold leafwise. simpl. split; [reflexivity|discriminate].
    + now apply (@map_kids_leafwise _ _ f rest rkids k p E kids).
Qed.

Lemma leaf_at_tree_map {A B : Type} (f : A -> B) :
  forall t p, leaf_at p (tree_map f t) = option_map f (leaf_at p t).
Proof.
  induction t as [a|kids IH] using pytree_induction; intros [|k p];
    try reflexivity.
  cbn [tree_map]. rewrite !leaf_at_cons.
  induction IH as [|[k0 sub] kids Hsub _ IHk]; [reflexivity|].
  cbn [map lookup fst snd]. destruct (String.eqb k k0); [apply Hsub|exact IHk].
Qed.

End PyTreeFacts.

(** ** Partial mode: overwritten rows and the region of the loss *)

Section PartialFacts.

Import GeometryBinner PyTree Arrays SequenceRelaxer LossComposer.
Local Open Scope R_scope.
Local Open Scope string_scope.

Lemma gather_map {A B : Type} (f : A -> B) idx (xs : list A) :
  gather idx (map f xs) = map f (gather idx xs).
Proof.
  unfold gather. rewrite length_map.
  induction idx as [|p idx IH]; simpl; [reflexivity|].
  rewrite map_app, IH, nth_error_map.
  now destruct (nth_error xs (Nat.min p (length xs - 1))).
Qed.

(** Taking the sub-matrix commutes with a map over the pairs. *)
Lemma submatrix_map {A B : Type} (f : A -> B) idx (t : list (list A)) :
  submatrix idx (map (map f) t) = map (map f) (submatrix idx t).
Proof.
  unfold submatrix. rewrite map_map, <- gather_map, map_map.
  f_equal. apply map_ext. intros row. apply gather_map.
Qed.

Lemma chan_geom_map {A B : Type} (f : A -> B) k (g : Geom A) :
  chan k (geom_map f g) = f (chan k g).
Proof. destruct k; reflexivity. Qed.

Lemma loss_terms_partial (o : Options) (p : list nat) (q b out : Geom tensor3) :
  pos o = Some p ->
  loss_terms partial (Some q) (Some b) out o =
  if geoms_fit out b
     && geoms_fit q (geom_map (submatrix p)
                              (geom_map (t3_map log_softmax) out))
  then
    Some (Dict
      [("bkg", per_channel (fun k => bkg_term (chan k out) (chan k b)));
       ("cce", per_channel (fun k =>
          cce_term (chan k q)
                   (t3_map log_softmax (submatrix p (chan k out)))))])
  else None.
Proof.
  intros Hp. unfold loss_terms. rewrite Hp.
  cbn [uses_bkg uses_cce is_partial].
  destruct (geoms_fit out b); [|reflexivity].
  destruct (geoms_fit q _); [|reflexivity].
  cbn [andb app].
  unfold per_channel. rewrite !chan_geom_map.
  unfold t3_map. now rewrite !submatrix_map.
Qed.

(** C5, as stated, fails on which positions are selected.  With position 0
    configured and reference amino acid 3 there, two different logits
    matrices give the same row 0 in the views, the one-hot of the reference,
    while row 1 follows the logits: the configured position is a fixed one,
    and it is the one the target-matching term is restricted to. *)
Lemma C5_selected_rows_are_fixed :
  let o := mkOptions 1 1 1 1 false (Dict []) (Some [0%nat]) in
  let xa := [repeat 0 20; repeat 0 20] in
  let xb := [repeat 1 20; repeat 1 20] in
  let target := {| dist := [[[1]]]; omega := [[[1]]];
                   theta := [[[1]]]; phi := [[[1]]] |} in
  let pairs := [[[0]; [1]]; [[2]; [3]]] in
  let out := {| dist := pairs; omega := pairs;
                theta := pairs; phi := pairs |} in
  (exists sa sb,
     get_seq partial [3%nat] (Dict [("seq", Leaf xa)]) o = Some sa /\
     get_seq partial [3%nat] (Dict [("seq", Leaf xb)]) o = Some sb /\
     nth_error (input sa) 0 = Some (one_hot 20 3) /\
     nth_error (input sb) 0 = Some (one_hot 20 3) /\
     nth_error (pseudo sa) 0 = Some (one_hot 20 3) /\
     nth_error (pseudo sb) 0 = Some (one_hot 20 3) /\
     nth_error (input sa) 1 = Some (repeat 0 20) /\
     nth_error (input sb) 1 = Some (repeat 1 20)) /\
  exists t,
    loss_terms partial (Some target) (Some out) out o = Some t /\
    leaf_at ["cce"; "dist"] t =
    Some (cce_term [[[1]]] (t3_map log_softmax [[[0]]])) /\
    leaf_at ["bkg"; "dist"] t = Some (bkg_term pairs pairs).
Proof.
  split.
  - eexists. eexists. repeat split.
  - eexists. repeat split.
Qed.

(** C5 (amended): in partial mode with a configured position index set,
    the target-matching term is computed from the sub-matrix of the
    prediction whose rows and columns the index set selects, and from
    nothing else, while the background term is computed from the whole
    prediction; the call raises unless the prediction can be combined with
    the background and its sub-matrix with the target.  The selected
    positions are those whose rows [_get_seq] overwrites, in every view,
    with the one-hot of the reference amino acid, for logits of 20 columns
    and one reference residue per position: the fixed positions, not the
    ones being optimized.  With another number of reference residues,
    other than one, [_get_seq] raises. *)
Theorem C5_partial_loss_region (o : Options) (p : list nat)
    (q b out : Geom tensor3) :
  pos o = Some p ->
  loss_terms partial (Some q) (Some b) out o =
  (if geoms_fit out b
      && geoms_fit q (geom_map (submatrix p)
                               (geom_map (t3_map log_softmax) out))
   then
     Some (Dict
       [("bkg", per_channel (fun k => bkg_term (chan k out) (chan k b)));
        ("cce", per_channel (fun k =>
           cce_term (chan k q)
                    (t3_map log_softmax (submatrix p (chan k out)))))])
   else None) /\
  forall aatype (params : pytree matrix) (x : matrix),
    leaf_at ["seq"] params = Some x ->
    Forall (fun r => length r = 20%nat) x ->
    NoDup p -> (forall j, In j p -> (j < length x)%nat) ->
    (length aatype <> length p -> length aatype <> 1%nat ->
     get_seq partial aatype params o = None) /\
    (length aatype = length p ->
     exists s, get_seq partial aatype params o = Some s /\
       length (input s) = length x /\
       forall k i a, nth_error p k = Some i -> nth_error aatype k = Some a ->
         nth_error (input s) i = Some (one_hot 20 a) /\
         nth_error (logits s) i = Some (one_hot 20 a) /\
         nth_error (soft_view s) i = Some (one_hot 20 a) /\
         nth_error (hard_view s) i = Some (one_hot 20 a) /\
         nth_error (pseudo s) i = Some (one_hot 20 a)).
Proof.
  intros Hp. split; [now apply loss_terms_partial|].
  intros aatype params x Hseq Hx Hnd Hin. split.
  - intros H1 H2. now apply (@get_seq_misfit aatype params o p).
  - intros Hlen.
    rewrite (@get_seq_written aatype params o x p Hseq Hx Hp Hlen).
    eexists. split; [reflexivity|].
    cbn [input logits soft_view hard_view pseudo].
    split; [apply write_rows_length|].
    intros k i a Hk Ha. rewrite relax_rows.
    cbn [input logits soft_view hard_view pseudo].
    assert (Hr : nth_error (map (one_hot 20) aatype) k = Some (one_hot 20 a)).
    { now rewrite nth_error_map, Ha. }
    repeat split; apply (write_rows_selected _ _ k Hnd); auto;
      intros j Hj; rewrite ?length_map; now apply Hin.
Qed.

Lemma C5_partial_loss_region_witness :
  let o := mkOptions 1 1 1 1 false (Dict []) (Some [0%nat]) in
  let target := {| dist := [[[1]]]; omega := [[[1]]];
                   theta := [[[1]]]; phi := [[[1]]] |} in
  let pairs := [[[0]; [1]]; [[2]; [3]]] in
  let out := {| dist := pairs; omega := pairs;
                theta := pairs; phi := pairs |} in
  loss_terms partial (Some target) (Some out) out o =
  Some (Dict
    [("bkg", per_channel (fun k => bkg_term (chan k out) (chan k out)));
     ("cce", per_channel (fun k =>
        cce_term (chan k target)
                 (t3_map log_softmax (submatrix [0%nat] (chan k out)))))]).
Proof.
  exact (proj1 (@C5_partial_loss_region
                  (mkOptions 1 1 1 1 false (Dict []) (Some [0%nat]))
                  [0%nat] _ _ _ eq_refl)).
Defined.

End PartialFacts.

(** ** Means across a list of arrays *)

Section MeanFacts.

Import PyTree Arrays.
Local Open Scope R_scope.

Lemma mapM_map {X Y Z : Type} (g : X -> Y) (f : Y -> option Z) xs :
  mapM f (map g xs) = mapM (fun x => f (g x)) xs.
Proof.
  induction xs as [|x xs IH]; simpl; [reflexivity|]. now rewrite IH.
Qed.

Lemma mapM_nth {X Y : Type} (f : X -> option Y) : forall xs ys i y,
  mapM f xs = Some ys -> nth_error ys i = Some y ->
  exists x, nth_error xs i = Some x /\ f x = Some y.
Proof.
  induction xs as [|x xs IH]; simpl; intros ys i y H Hy.
  - inversion H; subst. destruct i; discriminate.
  - destruct (f x) as [y0|] eqn:E; [|discriminate].
    destruct (mapM f xs) as [ys'|]; [|discriminate].
    inversion H; subst ys. destruct i as [|i]; simpl in *.
    + inversion Hy; subst. eauto.
    + now apply (IH ys').
Qed.

(** Two fallible readings in a row. *)
Lemma mapM_then {X Y Z : Type} (f : X -> option Y) (g : Y -> option Z) :
  forall xs ys zs,
    mapM f xs = Some ys -> mapM g ys = Some zs ->
    mapM (fun x => match f x with Some y => g y | None => None end) xs =
    Some zs.
Proof.
  induction xs as [|x xs IH]; simpl; intros ys zs H1 H2.
  - inversion H1; subst. exact H2.
  - destruct (f x) as [y|]; [|discriminate].
    destruct (mapM f xs) as [ys'|]; [|discriminate].
    inversion H1; subst ys. simpl in H2.
    destruct (g y) as [z|]; [|discriminate].
    destruct (mapM g ys') as [zs'|] eqn:E; [|discriminate].
    inversion H2; subst zs. now rewrite (IH ys' zs' eq_refl E).
Qed.

Lemma uncons_all {A : Type} : forall (rest : list (list A)) hts,
  mapM uncons rest = Some hts ->
  rest = map (fun ht => fst ht :: snd ht) hts.
Proof.
  induction rest as [|v rest IH]; simpl; intros hts H.
  - now inversion H.
  - destruct v as [|x v]; simpl in H; [discriminate|].
    destruct (mapM uncons rest) as [hts'|]; [|discriminate].
    inversion H; subst hts. simpl. f_equal. now apply IH.
Qed.

Lemma mapM_total {X Y : Type} (f : X -> Y) xs :
  mapM (fun x => Some (f x)) xs = Some (map f xs).
Proof.
  induction xs as [|x xs IH]; simpl; [reflexivity|]. now rewrite IH.
Qed.

(** Column [i] of [columns] holds the entries [i] of all the vectors. *)
Lemma columns_nth {A : Type} : forall (v : list A) rest cols i c,
  columns v rest = Some cols -> nth_error cols i = Some c ->
  mapM (fun u => nth_error u i) (v :: rest) = Some c.
Proof.
  induction v as [|x v IH]; intros rest cols i c H Hc; simpl in H.
  - destruct (forallb _ rest); [|discriminate].
    inversion H; subst. destruct i; discriminate.
  - destruct (mapM uncons rest) as [hts|] eqn:Eh; [|discriminate].
    destruct (columns v (map snd hts)) as [cols'|] eqn:Ec; [|discriminate].
    inversion H; subst cols. rewrite (uncons_all rest Eh).
    destruct i as [|i]; simpl in Hc.
    + inversion Hc; subst c. cbn [mapM nth_error].
      rewrite mapM_map. cbn [nth_error]. now rewrite mapM_total.
    + pose proof (IH _ _ _ _ Ec Hc) as Hrec. cbn [mapM nth_error] in *.
      rewrite mapM_map. cbn [nth_error]. rewrite mapM_map in Hrec.
      exact Hrec.
Qed.

(** The entry [i] of the mean of vectors is the mean of their entries
    [i]. *)
Lemma stack_mean_nth {A : Type} `{StackMean A} (vs : list (list A)) r i y :
  stack_mean vs = Some r -> nth_error r i = Some y ->
  exists col, mapM (fun u => nth_error u i) vs = Some col /\
              stack_mean col = Some y.
Proof.
  intros Hr Hy. destruct vs as [|v rest]; [discriminate|].
  cbn [stack_mean StackMean_list] in Hr.
  unfold stack_mean at 1 in Hr. cbn [StackMean_list] in Hr.
  destruct (columns v rest) as [cols|] eqn:Ec; [|discriminate].
  destruct (mapM_nth _ _ _ Hr Hy) as (col & Hcol & Hm).
  exists col. split; [|exact Hm]. now apply (columns_nth _ _ _ Ec).
Qed.

Lemma stack_mean_real (xs : list R) y :
  stack_mean xs = Some y -> y = rmean xs /\ xs <> [].
Proof.
  destruct xs; [discriminate|]. intros H. inversion H. split; auto.
  discriminate.
Qed.

(** Every entry of the mean of matrices is the arithmetic mean of the
    entries at that place. *)
Lemma stack_mean_entry2 (ms : list matrix) (r : matrix) i j y :
  stack_mean ms = Some r -> entry2 r i j = Some y ->
  exists xs, mapM (fun m => entry2 m i j) ms = Some xs /\ y = rmean xs.
Proof.
  unfold entry2, at2. intros Hr Hy.
  destruct (nth_error r i) as [row|] eqn:Ei; [|discriminate].
  destruct (stack_mean_nth _ _ Hr Ei) as (rows & Hrows & Hrow).
  destruct (stack_mean_nth _ _ Hrow Hy) as (xs & Hxs & Hx).
  exists xs. split; [|now apply stack_mean_real].
  exact (mapM_then _ _ _ Hrows Hxs).
Qed.

(** The same for arrays of rank three. *)
Lemma stack_mean_entry3 (ts : list tensor3) (r : tensor3) i j b y :
  stack_mean ts = Some r -> entry3 r i j b = Some y ->
  exists xs, mapM (fun t => entry3 t i j b) ts = Some xs /\ y = rmean xs.
Proof.
  unfold entry3. intros Hr Hy.
  destruct (nth_error r i) as [m|] eqn:Ei; [|discriminate].
  destruct (stack_mean_nth _ _ Hr Ei) as (ms & Hms & Hm).
  destruct (stack_mean_entry2 _ _ _ Hm Hy) as (xs & Hxs & Hx).
  exists xs. split; [|exact Hx].
  exact (mapM_then _ _ _ Hms Hxs).
Qed.

Lemma columns_length {A : Type} : forall (v : list A) rest cols,
  columns v rest = Some cols -> length cols = length v.
Proof.
  induction v as [|x v IH]; intros rest cols H; simpl in H.
  - destruct (forallb _ rest); [|discriminate]. now inversion H.
  - destruct (mapM uncons rest) as [hts|]; [|discriminate].
    destruct (columns v (map snd hts)) as [cols'|] eqn:Ec; [|discriminate].
    inversion H; subst cols. simpl. f_equal. now apply (IH _ _ Ec).
Qed.

(** The mean of vectors has an entry wherever the first vector has one: the
    mean of that entry and of the entries of the other vectors there. *)
Lemma stack_mean_has_nth {A : Type} `{StackMean A} (v : list A) rest r i x :
  stack_mean (v :: rest) = Some r -> nth_error v i = Some x ->
  exists y col, nth_error r i = Some y /\ stack_mean (x :: col) = Some y.
Proof.
  intros Hr Hx.
  assert (Hlen : length r = length v).
  { pose proof Hr as Hr'. cbn [stack_mean StackMean_list] in Hr'.
    unfold stack_mean at 1 in Hr'. cbn [StackMean_list] in Hr'.
    destruct (columns v rest) as [cols|] eqn:Ec; [|discriminate].
    rewrite (mapM_length _ _ Hr'). now apply (columns_length _ _ Ec). }
  destruct (nth_error r i) as [y|] eqn:Ey.
  - destruct (stack_mean_nth _ _ Hr Ey) as (col & Hcol & Hm).
    cbn [mapM] in Hcol. rewrite Hx in Hcol.
    destruct (mapM (fun u => nth_error u i) rest) as [col'|];
      [|discriminate].
    inversion Hcol; subst col. now exists y, col'.
  - apply nth_error_None in Ey.
    assert (i < length v)%nat by (apply nth_error_Some; congruence). lia.
Qed.

Lemma stack_mean_has_entry2 (m0 : matrix) ms (r : matrix) i j x :
  stack_mean (m0 :: ms) = Some r -> entry2 m0 i j = Some x ->
  exists y, entry2 r i j = Some y.
Proof.
  unfold entry2, at2. intros Hr Hx.
  destruct (nth_error m0 i) as [row0|] eqn:Ei; [|discriminate].
  destruct (@stack_mean_has_nth _ _ _ _ _ _ _ Hr Ei) as (row & rows & -> & Hrow).
  destruct (@stack_mean_has_nth _ _ _ _ _ _ _ Hrow Hx) as (y & _ & -> & _).
  now exists y.
Qed.

Lemma stack_mean_has_entry3 (t0 : tensor3) ts (r : tensor3) i j b x :
  stack_mean (t0 :: ts) = Some r -> entry3 t0 i j b = Some x ->
  exists y, entry3 r i j b = Some y.
Proof.
  unfold entry3. intros Hr Hx.
  destruct (nth_error t0 i) as [m0|] eqn:Ei; [|discriminate].
  destruct (@stack_mean_has_nth _ _ _ _ _ _ _ Hr Ei) as (m & ms & -> & Hm).
  exact (@stack_mean_has_entry2 _ _ _ _ _ _ Hm Hx).
Qed.

End MeanFacts.

(** ** DesignSession: [run] *)

Section RunFacts.

Import GeometryBinner PyTree Arrays SequenceRelaxer LossComposer.
Import DesignSession.
Local Open Scope string_scope.

Context {J : Jax}.

Lemma decide_draws s :
  draws s = true ->
  decide s = (with_key s (fst (split (_key s))),
              choice (snd (split (_key s))) (seq 0 5) (model_num (opt s))).
Proof.
  unfold draws, decide. change (Z.of_nat (length (seq 0 5))) with 5%Z.
  intros ->. now destruct (split (_key s)).
Qed.

Lemma decide_keeps s :
  draws s = false ->
  decide s = (s, Some (slice_to (seq 0 5) (model_num (opt s)))).
Proof.
  unfold draws, decide. change (Z.of_nat (length (seq 0 5))) with 5%Z.
  now intros ->.
Qed.

(** What [decide] writes: the key and nothing else. *)
Lemma decide_frame s :
  let s2 := fst (decide s) in
  params s2 = params s /\ opt s2 = opt s /\
  protocol_of s2 = protocol_of s /\ _model_params s2 = _model_params s /\
  aatype s2 = aatype s /\ feats s2 = feats s /\ bkg_feats s2 = bkg_feats s /\
  _loss s2 = _loss s /\ _aux s2 = _aux s /\ _grad s2 = _grad s /\
  _key s2 = if draws s then fst (split (_key s)) else _key s.
Proof.
  destruct (draws s) eqn:E.
  - rewrite (decide_draws s E). simpl. repeat split.
  - rewrite (decide_keeps s E). simpl. repeat split.
Qed.

(** [run] ends in the session left by the first two blocks, with the three
    result fields written when it returns. *)
Lemma run_cases s a :
  let s2 := fst (decide (override s a)) in
  (snd (run s a) = Raised /\ fst (run s a) = s2) \/
  (exists ns l ax g,
     snd (decide (override s a)) = Some ns /\
     run s a = (with_results s2 l (record_instances ax ns) g, Returned)).
Proof.
  unfold run. destruct (decide (override s a)) as [s2 [ns|]]; cbn [fst snd].
  - destruct (mapM (instance s2 (backprop a)) ns) as [rs|]; [|now left].
    destruct (average s2 (backprop a) (length ns) _ _ _) as [[[l ax] g]|];
      [|now left].
    right. now exists ns, l, ax, g.
  - now left.
Qed.

Lemma slice_to_prefix (m : Z) :
  (0 <= m <= 5)%Z -> slice_to (seq 0 5) m = seq 0 (Z.to_nat m).
Proof.
  intros H. unfold slice_to.
  destruct (Z.ltb_spec m 0); [lia|].
  assert (Hm : (Z.to_nat m <= 5)%nat) by lia.
  destruct (Z.to_nat m) as [|[|[|[|[|[|n]]]]]]; try reflexivity; lia.
Qed.

(** C8 (amended): [run] splits the key of the session exactly once when
    sampling is enabled and [model.num] differs from the ensemble size 5,
    and leaves it alone when sampling is disabled or [model.num] is 5.  In
    the first case the instances are drawn from the five members with the
    second half of the split key, without replacement: for a [model.num]
    from 0 to 4 they are that many distinct members, and for a [model.num]
    above 5 the draw raises and so does [run]; in the second case they are
    the first [model.num] members.  The instances used are recorded with
    the auxiliary outputs. *)
Theorem C8_key_and_instances (s : Session) (a : RunArgs) :
  let s1 := override s a in
  let m := model_num (opt s1) in
  (model_sample (opt s1) = true /\ m <> 5%Z ->
     _key (fst (run s a)) = fst (split (_key s)) /\
     snd (decide s1) = choice (snd (split (_key s))) (seq 0 5) m /\
     (forall ns, snd (decide s1) = Some ns -> (0 <= m)%Z ->
        NoDup ns /\ incl ns (seq 0 5) /\ Z.of_nat (length ns) = m /\
        (m < 5)%Z) /\
     ((5 < m)%Z -> snd (decide s1) = None /\ snd (run s a) = Raised)) /\
  (model_sample (opt s1) = false \/ m = 5%Z ->
     _key (fst (run s a)) = _key s /\
     snd (decide s1) = Some (slice_to (seq 0 5) m) /\
     ((0 <= m <= 5)%Z -> slice_to (seq 0 5) m = seq 0 (Z.to_nat m))) /\
  (forall s', run s a = (s', Returned) ->
     exists ns ax, snd (decide s1) = Some ns /\
                   _aux s' = Some ax /\ model_num_used ax = Some ns).
Proof.
  intros s1 m.
  assert (Hkey : _key (fst (run s a)) = _key (fst (decide s1))).
  { destruct (run_cases s a) as [[_ ->] | (ns & l & ax & g & _ & ->)];
      reflexivity. }
  destruct (decide_frame s1) as (_ & _ & _ & _ & _ & _ & _ & _ & _ & _ & Hk).
  cbn zeta in Hk. change (_key s1) with (_key s) in Hk.
  split; [|split].
  - intros [Hs Hm].
    assert (Hd : draws s1 = true).
    { unfold draws. fold m. rewrite Hs.
      destruct (Z.eqb_spec m 5); [contradiction|reflexivity]. }
    rewrite Hkey, Hk, Hd. rewrite (decide_draws s1 Hd). cbn [snd].
    change (_key s1) with (_key s). fold m.
    assert (Hdraw : forall ns,
              choice (snd (split (_key s))) (seq 0 5) m = Some ns ->
              (0 <= m)%Z ->
              NoDup ns /\ incl ns (seq 0 5) /\ Z.of_nat (length ns) = m /\
              (m < 5)%Z).
    { intros ns Hc H0.
      destruct (@choice_distinct _ _ _ _ _ Hc (seq_NoDup 5 0) H0)
        as (H1 & H2 & H3).
      pose proof (NoDup_incl_length H1 H2) as Hle.
      rewrite length_seq in Hle. repeat split; try assumption. lia. }
    split; [reflexivity|]. split; [reflexivity|]. split; [exact Hdraw|].
    intros Hbig.
    assert (Hnone : choice (snd (split (_key s))) (seq 0 5) m = None).
    { destruct (choice _ _ m) as [ns|] eqn:Hc; [|reflexivity].
      destruct (Hdraw ns eq_refl) as (_ & _ & _ & Hlt); lia. }
    split; [exact Hnone|].
    destruct (run_cases s a) as [[Hr _] | (ns & l & ax & g & Hns & _)];
      [exact Hr|].
    fold s1 in Hns. rewrite (decide_draws s1 Hd) in Hns. cbn [snd] in Hns.
    change (_key s1) with (_key s) in Hns. fold m in Hns. congruence.
  - intros Hcase.
    assert (Hd : draws s1 = false).
    { unfold draws. fold m. destruct Hcase as [-> | ->]; [reflexivity|].
      apply andb_false_r. }
    rewrite Hkey, Hk, Hd. rewrite (decide_keeps s1 Hd). cbn [snd]. fold m.
    repeat split. apply slice_to_prefix.
  - intros s' Hrun.
    destruct (run_cases s a) as [[Hr _] | (ns & l & ax & g & Hns & Heq)].
    + rewrite Hrun in Hr. discriminate.
    + rewrite Hrun in Heq. inversion Heq; subst s'.
      exists ns. eexists. split; [exact Hns|]. split; reflexivity.
Qed.

(** C9 (amended): [run] writes the session in three places.  Its first
    block merges the overrides into the parameters and the options, its
    second may split the key; these writes are made before any instance is
    evaluated and they stay when the call later raises.  The three result
    fields are written last, together, and only by a call that returns: a
    call that raises leaves them as they were.  Nothing else changes. *)
Theorem C9_writes_of_run (s : Session) (a : RunArgs) :
  let s' := fst (run s a) in
  let s1 := override s a in
  (params s' = params s1 /\ opt s' = opt s1 /\
   _key s' = (if draws s1 then fst (split (_key s)) else _key s)) /\
  (protocol_of s' = protocol_of s /\ _model_params s' = _model_params s /\
   aatype s' = aatype s /\ feats s' = feats s /\
   bkg_feats s' = bkg_feats s) /\
  (snd (run s a) = Raised ->
     _loss s' = _loss s /\ _aux s' = _aux s /\ _grad s' = _grad s) /\
  (snd (run s a) = Returned ->
     exists l ax g, _loss s' = Some l /\ _aux s' = Some ax /\
                    _grad s' = Some g).
Proof.
  intros s' s1. subst s'.
  destruct (decide_frame s1)
    as (H1 & H2 & H3 & H4 & H5 & H6 & H7 & H8 & H9 & H10 & H11).
  cbn zeta in *.
  destruct (run_cases s a) as [[Hr Hs] | (ns & l & ax & g & _ & Heq)].
  - rewrite Hs, Hr. repeat split; try assumption; try discriminate.
  - rewrite Heq. cbn [fst snd with_results params opt _key protocol_of
                      _model_params aatype feats bkg_feats _loss _aux _grad].
    repeat split; try assumption; try discriminate.
    intros _. do 3 eexists. repeat split.
Qed.

(** The forward function and the value component of the value-and-gradient
    function agree. *)
Lemma grad_fn_value s ps mp o :
  option_map fst (_grad_fn s ps mp o) = _fn s ps mp o.
Proof.
  unfold _grad_fn, value_and_grad, _fn.
  now destruct (_model s ps mp o).
Qed.

(** A leaf of the mean of trees is the mean of the leaves at its place. *)
Lemma tree_mean_leaf {A : Type} `{StackMean A} (ts : list (pytree A)) r p y :
  tree_mean ts = Some r -> leaf_at p r = Some y ->
  exists xs, mapM (leaf_at p) ts = Some xs /\ stack_mean xs = Some y.
Proof.
  destruct ts as [|t rest]; [discriminate|]. cbn [tree_mean]. intros Hr Hy.
  destruct (tree_map_n_leafwise _ _ _ Hr p) as [Hnone Hsome].
  destruct (leaf_at p t) as [a0|] eqn:Et.
  - destruct (Hsome a0 eq_refl) as (bs & b & Hbs & Hb & Hrb).
    exists (a0 :: bs). cbn [mapM]. rewrite Et, Hbs. split; [reflexivity|].
    congruence.
  - rewrite (Hnone eq_refl) in Hy. discriminate.
Qed.

(** The mean of trees has a leaf wherever the first tree has one. *)
Lemma tree_mean_has_leaf {A : Type} `{StackMean A} (t : pytree A) rest r p x :
  tree_mean (t :: rest) = Some r -> leaf_at p t = Some x ->
  exists y bs, leaf_at p r = Some y /\ stack_mean (x :: bs) = Some y.
Proof.
  cbn [tree_mean]. intros Hr Hx.
  destruct (tree_map_n_leafwise _ _ _ Hr p) as [_ Hsome].
  destruct (Hsome x Hx) as (bs & b & _ & Hb & Hrb). now exists b, bs.
Qed.

Lemma geom_mean_chan gs o k :
  geom_mean gs = Some o ->
  stack_mean (map (chan k) gs) = Some (chan k o).
Proof.
  unfold geom_mean.
  destruct (stack_mean (map (@dist _) gs)) as [d|] eqn:Ed; [|discriminate].
  destruct (stack_mean (map (@omega _) gs)) as [w|] eqn:Eo; [|discriminate].
  destruct (stack_mean (map (@theta _) gs)) as [t|] eqn:Et; [|discriminate].
  destruct (stack_mean (map (@phi _) gs)) as [f|] eqn:Ep; [|discriminate].
  intros H. inversion H; subst o. destruct k; assumption.
Qed.

(** What one turn of the loop computes is the forward value of the model
    for that instance. *)
Lemma instance_value s bp n r :
  instance s bp n = Some r ->
  exists mp, nth_error (_model_params s) n = Some mp /\
             _fn s (params s) mp (opt s) = Some (fst r) /\
             (bp = true ->
                exists g, snd r = [g] /\
                  _grad_fn s (params s) mp (opt s) = Some (fst r, g)) /\
             (bp = false -> snd r = []).
Proof.
  unfold instance. destruct (nth_error (_model_params s) n) as [mp|];
    [|discriminate].
  intros H. exists mp. split; [reflexivity|]. destruct bp.
  - pose proof (grad_fn_value s (params s) mp (opt s)) as Hv.
    destruct (_grad_fn s (params s) mp (opt s)) as [[[l a] g]|];
      [|discriminate].
    inversion H; subst r. simpl in Hv. cbn [fst snd].
    split; [now rewrite <- Hv|]. split; [intros _; eauto|discriminate].
  - destruct (_fn s (params s) mp (opt s)) as [[l a]|]; [|discriminate].
    inversion H; subst r. cbn [fst snd].
    split; [reflexivity|]. split; [discriminate|reflexivity].
Qed.


Lemma instance_forward s n l ax gs :
  instance s true n = Some (l, ax, gs) ->
  instance s false n = Some (l, ax, []) /\ exists g, gs = [g].
Proof.
  unfold instance. destruct (nth_error (_model_params s) n) as [mp|];
    [|discriminate].
  pose proof (grad_fn_value s (params s) mp (opt s)) as Hv.
  destruct (_grad_fn s (params s) mp (opt s)) as [[[l' a'] g]|];
    [|discriminate].
  simpl in Hv. rewrite <- Hv. intros H. inversion H; subst. eauto.
Qed.

Lemma mapM_instance_forward s : forall ns rs,
  mapM (instance s true) ns = Some rs ->
  mapM (instance s false) ns = Some (map (fun r => (fst r, [])) rs).
Proof.
  induction ns as [|n ns IH]; simpl; intros rs H.
  - now inversion H.
  - destruct (instance s true n) as [[[l ax] gs]|] eqn:E; [|discriminate].
    destruct (mapM (instance s true) ns) as [rs'|]; [|discriminate].
    inversion H; subst rs.
    destruct (instance_forward s n E) as [-> _].
    now rewrite (IH rs' eq_refl).
Qed.

Lemma average_forward s k ls auxs gs gs' l ax g :
  average s true k ls auxs gs = Some (l, ax, g) ->
  average s false k ls auxs gs' =
  Some (l, ax, tree_map zeros_like (params s)).
Proof.
  unfold average. destruct (Nat.ltb 1 k).
  - destruct (aux_mean auxs); [|discriminate].
    destruct (tree_mean gs); [|discriminate].
    intros H. now inversion H.
  - destruct ls; [discriminate|]. destruct auxs; [discriminate|].
    destruct gs; [discriminate|]. intros H. now inversion H.
Qed.

(** C7: when [run] with [backprop=True] returns, [run] with
    [backprop=False] from the same session and arguments returns too, with
    the same instances, the same loss and the same auxiliary outputs; its
    gradient has a leaf wherever the parameters have one, of the same shape
    and zero everywhere.  The forward function and the value component of
    the value-and-gradient function agree on every input. *)
Theorem C7_forward_only_run (s : Session) (a : RunArgs) (s_t : Session) :
  run s (with_backprop a true) = (s_t, Returned) ->
  (exists s_f,
     run s (with_backprop a false) = (s_f, Returned) /\
     _loss s_f = _loss s_t /\ _aux s_f = _aux s_t /\
     params s_f = params s_t /\ _key s_f = _key s_t /\
     _grad s_f = Some (tree_map zeros_like (params s_f)) /\
     forall p, leaf_at p (tree_map zeros_like (params s_f)) =
               option_map zeros_like (leaf_at p (params s_f))) /\
  (forall (m : matrix) i j,
     at2 (zeros_like m) i j = option_map (fun _ => 0%R) (at2 m i j)) /\
  (forall s0 ps mp o, option_map fst (_grad_fn s0 ps mp o) = _fn s0 ps mp o).
Proof.
  intros Hrun. split; [|split].
  - unfold run in *.
    change (override s (with_backprop a true)) with (override s a) in Hrun.
    change (override s (with_backprop a false)) with (override s a).
    cbn [backprop with_backprop] in *.
    destruct (decide (override s a)) as [s2 [ns|]]; [|discriminate].
    destruct (mapM (instance s2 true) ns) as [rs|] eqn:Ers; [|discriminate].
    rewrite (mapM_instance_forward s2 ns Ers).
    destruct (average s2 true (length ns) _ _ _) as [[[l ax] g]|] eqn:Eav;
      [|discriminate].
    inversion Hrun; subst s_t.
    rewrite !map_map. cbn [fst snd].
    erewrite average_forward by exact Eav.
    eexists. split; [reflexivity|].
    cbn [with_results _loss _aux _grad params _key].
    repeat split. intros p. apply leaf_at_tree_map.
  - intros m i j. apply at2_map.
  - intros. apply grad_fn_value.
Qed.

End RunFacts.

(** ** [run] on the example sessions *)

Section RunExamples.

Import GeometryBinner PyTree Arrays SequenceRelaxer LossComposer.
Import DesignSession Examples.
Local Open Scope string_scope.

(** C8, as stated, fails: with sampling enabled and [model.num] equal to
    5, [run] returns and the key of the session is the one it had; it has
    not been split. *)
Lemma C8_key_kept_when_all_five_are_used :
  let s := toy_session 5 true in
  model_sample (opt s) = true /\
  snd (run s (plain_args true)) = Returned /\
  _key (fst (run s (plain_args true))) = _key s /\
  fst (split (_key s)) <> _key s.
Proof. repeat split. discriminate. Qed.

(** C9, as stated, fails: a call that raises, here because six instances
    cannot be drawn from five, has already changed the parameters, the
    options and the key of the session. *)
Lemma C9_failed_run_changes_the_session :
  let s := toy_session 1 true in
  let s' := fst (run s six_args) in
  snd (run s six_args) = Raised /\
  params s' <> params s /\ opt s' <> opt s /\ _key s' <> _key s.
Proof.
  repeat split.
  - intros H. inversion H as [H1]. revert H1. apply R1_neq_R0.
  - intros H. inversion H.
  - discriminate.
Qed.

Lemma C7_forward_only_run_witness :
  exists s_f,
    run (toy_session 3 true) (plain_args false) = (s_f, Returned) /\
    _loss s_f = _loss (fst (run (toy_session 3 true) (plain_args true))) /\
    _aux s_f = _aux (fst (run (toy_session 3 true) (plain_args true))) /\
    _grad s_f = Some (tree_map zeros_like (params s_f)).
Proof.
  destruct (@C7_forward_only_run toy_jax (toy_session 3 true)
              (plain_args true)
              (fst (run (toy_session 3 true) (plain_args true))) eq_refl)
    as [[s_f (H1 & H2 & H3 & _ & _ & H4 & _)] _].
  exists s_f. repeat split; assumption.
Defined.


End RunExamples.

(** ** GeometryBinner: shape of the result and natural bins *)

Section BinnerBins.

Import GeometryBinner Thresholds.
Local Open Scope Q_scope.

Lemma map2_rect {A B C : Type} (f : A -> B -> C) n : forall m a b,
  rect m n a -> rect m n b -> rect m n (map2 (map2 f) a b).
Proof.
  unfold rect.
  induction m as [|m IH]; intros [|ra a] [|rb b] [La Fa] [Lb Fb];
    simpl in *; try discriminate.
  - split; [reflexivity|constructor].
  - inversion Fa; inversion Fb; subst.
    destruct (IH a b) as [L F]; try (split; [lia|assumption]).
    split; [now rewrite L|]. constructor; [|exact F].
    rewrite map2_length; congruence.
Qed.

Lemma map_rect {A B : Type} (f : A -> B) m n a :
  rect m n a -> rect m n (map (map f) a).
Proof.
  intros [L F]. split; [now rewrite length_map|].
  apply Forall_map. eapply Forall_impl; [|exact F].
  intros row Hrow. now rewrite length_map.
Qed.

Lemma eye_mask_rect n : rect n n (eye_mask n).
Proof.
  unfold eye_mask. split; [now rewrite length_map, length_seq|].
  apply Forall_map, Forall_forall. intros i _.
  now rewrite length_map, length_seq.
Qed.

Lemma pair_mask_rect n d : rect n n d -> rect n n (pair_mask d).
Proof.
  intros Hd. unfold pair_mask. apply map2_rect; [now apply map_rect|].
  destruct Hd as [<- _]. apply eye_mask_rect.
Qed.

Lemma mtx2bins_shape n x start stop nbins mask :
  rect n n x -> rect n n mask ->
  rect n n (mtx2bins x start stop nbins mask) /\
  Forall (Forall (fun v => length v = nbins))
         (mtx2bins x start stop nbins mask).
Proof.
  intros Hx Hm. unfold mtx2bins. split.
  - apply map_rect, map2_rect; [exact Hm|now apply map_rect].
  - apply Forall_map, Forall_forall. intros row _.
    apply Forall_map, Forall_forall. intros r _. apply one_hot_length.
Qed.

(** X1: for a chain of [n] residues, [n] other than 1, every channel of the
    result has [n] rows of [n] pairs, and every pair a vector of the
    channel's number of bins: 37 for dist, 25 for omega and theta, 13 for
    phi. *)
Theorem binned_shape n ref :
  ref_shape n ref -> n <> 1%nat ->
  exists out, np_get_6D_binned ref = Some out /\
    forall c, length (chan c out) = n /\
              Forall (fun row => length row = n) (chan c out) /\
              Forall (Forall (fun v => length v = chan_nbins c)) (chan c out).
Proof.
  intros Hshape Hn. eexists. split; [apply (binned_total Hshape Hn)|].
  destruct Hshape as (Hd & Ho & Ht & Hp).
  apply squeeze_square in Hd, Ho, Ht, Hp.
  pose proof (pair_mask_rect Hd) as Hm.
  intros c.
  destruct c; cbn [chan dist omega theta phi chan_nbins];
    match goal with
    | |- context [mtx2bins ?x ?a ?b ?k ?m] =>
        destruct (@mtx2bins_shape n x a b k m) as [[L F] V]; auto
    end.
Qed.

Lemma binned_shape_witness :
  exists out, np_get_6D_binned edge_ref = Some out /\
    forall c, length (chan c out) = 2%nat /\
              Forall (fun row => length row = 2%nat) (chan c out) /\
              Forall (Forall (fun v => length v = chan_nbins c)) (chan c out).
Proof.
  apply (@binned_shape 2 edge_ref).
  - apply const_geom_shape.
  - discriminate.
Defined.

Lemma linspace_thresholds c :
  linspace (chan_start c) (chan_stop c) (chan_nbins c) =
  map (threshold c) (seq 0 (chan_nbins c)).
Proof. reflexivity. Qed.

Lemma threshold_step_nonneg c :
  0 <= (chan_stop c - chan_start c)
       / inject_Z (Z.of_nat (chan_nbins c - 1)).
Proof.
  destruct (chan_range c) as [Hss Hn].
  apply Qle_shift_div_l.
  - change 0 with (inject_Z 0). rewrite <- Zlt_Qlt. lia.
  - Lqa.lra.
Qed.

Lemma threshold_mono c i j :
  (i <= j)%nat -> threshold c i <= threshold c j.
Proof.
  intros Hij. unfold threshold.
  pose proof (threshold_step_nonneg c) as Hs.
  assert (Hq : inject_Z (Z.of_nat i) <= inject_Z (Z.of_nat j)).
  { rewrite <- Zle_Qle. lia. }
  Lqa.nra.
Qed.

Lemma threshold_first c : threshold c 0 == chan_start c.
Proof. unfold threshold. simpl (Z.of_nat 0). ring. Qed.

(** [np.digitize] gives [k] when the first [k] thresholds are at most [x]
    and the next one, if any, is above it. *)
Lemma digitize_count (t : nat -> Q) x : forall m s k,
  (k <= m)%nat ->
  (forall i, (s <= i < s + k)%nat -> t i <= x) ->
  ((k < m)%nat -> x < t (s + k)%nat) ->
  digitize x (map t (seq s m)) = k.
Proof.
  induction m as [|m IH]; intros s k Hk Hle Hlt; simpl.
  - lia.
  - destruct k as [|k].
    + replace (s + 0)%nat with s in Hlt by lia.
      destruct (Qle_bool (t s) x) eqn:E; [|reflexivity].
      apply Qle_bool_iff in E. assert (x < t s) by (apply Hlt; lia).
      Lqa.lra.
    + assert (E : Qle_bool (t s) x = true).
      { apply Qle_bool_iff. apply Hle. lia. }
      rewrite E. f_equal. apply IH.
      * lia.
      * intros i Hi. apply Hle. lia.
      * intros Hk'. replace (S s + k)%nat with (s + S k)%nat by lia.
        apply Hlt. lia.
Qed.

Lemma digitize_mono bins x y :
  x <= y -> (digitize x bins <= digitize y bins)%nat.
Proof.
  intros Hxy. induction bins as [|b bs IH]; simpl; [lia|].
  destruct (Qle_bool b x) eqn:Ex; [|lia].
  apply Qle_bool_iff in Ex.
  assert (Ey : Qle_bool b y = true) by (apply Qle_bool_iff; Lqa.lra).
  rewrite Ey. lia.
Qed.

(** X2: an unmasked pair (not a self-pair, rounded distance at most 20.0)
    whose value, as the binner rounds it to [float32], lies between two
    consecutive thresholds of its channel, the lower one included, is stored
    in the bin that counts the thresholds up to the lower one; for the
    distance, a rounded value in [2 + (k-1)/2, 2 + k/2) goes to bin [k], so
    that the lower edge 2.0 itself goes to bin 1. *)
Theorem binned_natural_bin n ref :
  ref_shape n ref -> n <> 1%nat ->
  exists out, np_get_6D_binned ref = Some out /\
  forall c i j d x k, (i < n)%nat -> (j < n)%nat ->
    at2 (dist ref) i j = Some d -> at2 (chan c ref) i j = Some x ->
    i <> j -> to_float32 d <= 20 ->
    (1 <= k < chan_nbins c)%nat ->
    threshold c (k - 1) <= to_float32 x -> to_float32 x < threshold c k ->
    exists v, at2 (chan c out) i j = Some v /\
              bin_index v = Some k /\ qsum v == 1.
Proof.
  intros Hshape Hn. eexists. split; [apply (binned_total Hshape Hn)|].
  intros c i j d x k Hi Hj Hd Hx Hij Hfar Hk Hlo Hhi.
  destruct (binned_pair c Hshape (binned_total Hshape Hn) Hi Hj)
    as (d' & x' & Hd' & Hx' & Hv).
  rewrite Hd in Hd'. rewrite Hx in Hx'.
  inversion Hd'; inversion Hx'; subst d' x'.
  rewrite (unmasked_flag Hij Hfar) in Hv.
  eexists. split; [exact Hv|]. unfold pair_row.
  assert (Hdig : digitize (to_float32 x)
                   (linspace (chan_start c) (chan_stop c) (chan_nbins c))
                 = k).
  { rewrite linspace_thresholds. apply digitize_count.
    - lia.
    - intros i0 Hi0.
      apply Qle_trans with (threshold c (k - 1)); [|exact Hlo].
      apply threshold_mono. lia.
    - intros _. exact Hhi. }
  rewrite Hdig, one_hot_bin_index, one_hot_sum.
  destruct (Nat.ltb_spec k (chan_nbins c)); [split; reflexivity|lia].
Qed.

Lemma binned_natural_bin_witness :
  exists v, at2 (dist (match np_get_6D_binned gap_ref with
                       | Some out => out
                       | None => {| dist := []; omega := []; theta := [];
                                    phi := [] |}
                       end)) 0 1 = Some v /\
            bin_index v = Some 7%nat /\ qsum v == 1.
Proof.
  destruct (@binned_natural_bin 2 gap_ref (const_geom_shape _ _ _ _)
              ltac:(discriminate)) as (out & Hout & Hbins).
  rewrite Hout.
  apply (Hbins Dist 0%nat 1%nat 5 5 7%nat).
  - lia.
  - lia.
  - reflexivity.
  - reflexivity.
  - discriminate.
  - vm_compute. discriminate.
  - simpl. lia.
  - vm_compute. discriminate.
  - vm_compute. reflexivity.
Defined.

(** X3: the first bin of a channel is given to a pair exactly when the pair
    is masked (a self-pair or a rounded distance above 20.0) or its value,
    as rounded to [float32], lies below the lower edge of the channel. *)
Theorem binned_first_bin_iff n ref :
  ref_shape n ref -> n <> 1%nat ->
  exists out, np_get_6D_binned ref = Some out /\
  forall c i j d x v, (i < n)%nat -> (j < n)%nat ->
    at2 (dist ref) i j = Some d -> at2 (chan c ref) i j = Some x ->
    at2 (chan c out) i j = Some v ->
    (bin_index v = Some 0%nat <->
     i = j \/ 20 < to_float32 d \/ to_float32 x < chan_start c).
Proof.
  intros Hshape Hn. eexists. split; [apply (binned_total Hshape Hn)|].
  intros c i j d x v Hi Hj Hd Hx Hv.
  destruct (binned_pair c Hshape (binned_total Hshape Hn) Hi Hj)
    as (d' & x' & Hd' & Hx' & Hv').
  rewrite Hd in Hd'. rewrite Hx in Hx'. rewrite Hv in Hv'.
  inversion Hd'; inversion Hx'; inversion Hv'; subst d' x' v.
  clear Hd' Hx' Hv'.
  destruct (chan_range c) as [_ Hnb].
  unfold pair_row. rewrite one_hot_bin_index.
  assert (Hfirst : forall r, (r <= chan_nbins c)%nat ->
            ((if Nat.ltb r (chan_nbins c) then Some r else None) = Some 0%nat
             <-> r = 0%nat)).
  { intros r Hr. destruct (Nat.ltb_spec r (chan_nbins c)).
    - split; [now intros Hs; inversion Hs|now intros ->].
    - split; [discriminate|lia]. }
  destruct (Nat.eqb_spec i j) as [Hij|Hij].
  - rewrite orb_true_r, Hfirst by lia. split; auto.
  - rewrite orb_false_r.
    destruct (Qle_bool (to_float32 d) 20) eqn:Ed; cbn [negb].
    + apply Qle_bool_iff in Ed.
      pose proof (digitize_le (to_float32 x)
                    (linspace (chan_start c) (chan_stop c) (chan_nbins c)))
        as Hle.
      rewrite linspace_length in Hle. rewrite Hfirst by exact Hle.
      rewrite linspace_thresholds.
      destruct (chan_nbins c) as [|m]; [lia|]. cbn [seq map digitize].
      pose proof (threshold_first c) as Ht.
      destruct (Qle_bool (threshold c 0) (to_float32 x)) eqn:Ex.
      * apply Qle_bool_iff in Ex. split; [discriminate|].
        intros [Hq | [Hq | Hq]]; try contradiction; Lqa.lra.
      * split; [|reflexivity]. intros _. right. right.
        apply Qnot_le_lt. intros Hc.
        assert (Qle_bool (threshold c 0) (to_float32 x) = true).
        { apply Qle_bool_iff. Lqa.lra. }
        congruence.
    + rewrite Hfirst by lia. split; [|reflexivity]. intros _. right. left.
      apply Qnot_le_lt. intros Hc. apply Qle_bool_iff in Hc. congruence.
Qed.

Lemma binned_first_bin_iff_witness :
  exists out, np_get_6D_binned close_ref = Some out /\
  forall c i j d x v, (i < 2)%nat -> (j < 2)%nat ->
    at2 (dist close_ref) i j = Some d ->
    at2 (chan c close_ref) i j = Some x ->
    at2 (chan c out) i j = Some v ->
    (bin_index v = Some 0%nat <->
     i = j \/ 20 < to_float32 d \/ to_float32 x < chan_start c).
Proof.
  apply (@binned_first_bin_iff 2 close_ref).
  - apply const_geom_shape.
  - discriminate.
Defined.

(** X4: binning keeps the order of the values it bins: of two unmasked pairs
    of a channel whose values, as rounded to [float32], lie below the upper
    edge, the one with the larger rounded value never gets the smaller
    bin. *)
Theorem binned_order n ref :
  ref_shape n ref -> n <> 1%nat ->
  exists out, np_get_6D_binned ref = Some out /\
  forall c i j d x i' j' d' x', (i < n)%nat -> (j < n)%nat ->
    (i' < n)%nat -> (j' < n)%nat ->
    at2 (dist ref) i j = Some d -> at2 (chan c ref) i j = Some x ->
    at2 (dist ref) i' j' = Some d' -> at2 (chan c ref) i' j' = Some x' ->
    i <> j -> to_float32 d <= 20 -> i' <> j' -> to_float32 d' <= 20 ->
    to_float32 x <= to_float32 x' -> to_float32 x' < chan_stop c ->
    exists v v' k k',
      at2 (chan c out) i j = Some v /\ at2 (chan c out) i' j' = Some v' /\
      bin_index v = Some k /\ bin_index v' = Some k' /\ (k <= k')%nat.
Proof.
  intros Hshape Hn. eexists. split; [apply (binned_total Hshape Hn)|].
  intros c i j d x i' j' d' x' Hi Hj Hi' Hj' Hd Hx Hd' Hx'
         Hij Hfar Hij' Hfar' Hxx Hstop.
  destruct (binned_pair c Hshape (binned_total Hshape Hn) Hi Hj)
    as (d1 & x1 & Hd1 & Hx1 & Hv).
  destruct (binned_pair c Hshape (binned_total Hshape Hn) Hi' Hj')
    as (d2 & x2 & Hd2 & Hx2 & Hv').
  rewrite Hd in Hd1. rewrite Hx in Hx1. rewrite Hd' in Hd2.
  rewrite Hx' in Hx2.
  inversion Hd1; inversion Hx1; inversion Hd2; inversion Hx2.
  subst d1 x1 d2 x2.
  rewrite (unmasked_flag Hij Hfar) in Hv.
  rewrite (unmasked_flag Hij' Hfar') in Hv'.
  destruct (chan_range c) as [H1 H2].
  set (bins := linspace (chan_start c) (chan_stop c) (chan_nbins c)) in *.
  assert (Hb : forall y, y < chan_stop c ->
            Nat.ltb (digitize y bins) (chan_nbins c) = true).
  { intros y Hy. unfold bins. rewrite (digitize_linspace_below y H1 H2).
    destruct (Qle_bool (chan_stop c) y) eqn:E; [|reflexivity].
    apply Qle_bool_iff in E. Lqa.lra. }
  exists (pair_row c false (to_float32 x)),
         (pair_row c false (to_float32 x')),
         (digitize (to_float32 x) bins), (digitize (to_float32 x') bins).
  repeat split; try assumption.
  - unfold pair_row. fold bins. rewrite one_hot_bin_index, Hb; [reflexivity|].
    Lqa.lra.
  - unfold pair_row. fold bins. now rewrite one_hot_bin_index, Hb.
  - now apply digitize_mono.
Qed.

Lemma binned_order_witness :
  exists out, np_get_6D_binned close_ref = Some out /\
  forall c i j d x i' j' d' x', (i < 2)%nat -> (j < 2)%nat ->
    (i' < 2)%nat -> (j' < 2)%nat ->
    at2 (dist close_ref) i j = Some d ->
    at2 (chan c close_ref) i j = Some x ->
    at2 (dist close_ref) i' j' = Some d' ->
    at2 (chan c close_ref) i' j' = Some x' ->
    i <> j -> to_float32 d <= 20 -> i' <> j' -> to_float32 d' <= 20 ->
    to_float32 x <= to_float32 x' -> to_float32 x' < chan_stop c ->
    exists v v' k k',
      at2 (chan c out) i j = Some v /\ at2 (chan c out) i' j' = Some v' /\
      bin_index v = Some k /\ bin_index v' = Some k' /\ (k <= k')%nat.
Proof.
  apply (@binned_order 2 close_ref).
  - apply const_geom_shape.
  - discriminate.
Defined.

End BinnerBins.

(** ** SequenceRelaxer: what the views hold *)

Section RelaxerViews.

Import PyTree Arrays SequenceRelaxer Orders.
Local Open Scope R_scope.

(** X5: for a logits matrix of 20 columns and a temperature other than 0,
    every row of the soft view is a probability distribution: its entries
    lie in (0, 1] and sum to 1. *)
Theorem soft_rows_are_distributions (x : matrix) (o : Options) :
  Forall (fun r => length r = 20%nat) x ->
  temp o <> 0 ->
  length (soft_view (relax x o)) = length x /\
  Forall (fun r => length r = 20%nat /\ rsum r = 1 /\
                   Forall (fun e => 0 < e <= 1) r)
         (soft_view (relax x o)).
Proof.
  intros Hx _. rewrite relax_rows. cbn [soft_view].
  split; [apply length_map|].
  apply Forall_map. eapply Forall_impl; [|exact Hx].
  intros r Hr. split; [now rewrite row_soft_length|].
  unfold row_soft. apply softmax_distribution.
  destruct r; [discriminate|discriminate].
Qed.

Lemma soft_rows_are_distributions_witness :
  Forall (fun r => length r = 20%nat /\ rsum r = 1 /\
                   Forall (fun e => 0 < e <= 1) r)
         (soft_view (relax [repeat 0 20; repeat 1 20]
                           (mkOptions 1 1 1 1 false (Dict []) None))).
Proof.
  apply (@soft_rows_are_distributions [repeat 0 20; repeat 1 20]).
  - repeat constructor.
  - simpl. lra.
Defined.

(** X6: for a logits matrix of 20 columns, every row of the hard view is
    the one-hot of an index below 20 at which the soft row is largest, and
    the first such index: of equal probabilities the amino acid with the
    smaller index wins. *)
Theorem hard_rows_pick_first_largest (x : matrix) (o : Options) :
  Forall (fun r => length r = 20%nat) x ->
  forall i r, nth_error (soft_view (relax x o)) i = Some r ->
    exists k, nth_error (hard_view (relax x o)) i = Some (one_hot 20 k) /\
              (k < 20)%nat /\
              (forall j, (j < 20)%nat -> nth j r 0 <= nth k r 0) /\
              (forall j, (j < k)%nat -> nth j r 0 < nth k r 0).
Proof.
  intros Hx i r. rewrite relax_rows. cbn [soft_view hard_view].
  rewrite !nth_error_map. destruct (nth_error x i) as [row|] eqn:E;
    [|discriminate].
  cbn [option_map]. intros Hr. inversion Hr; subst r.
  assert (Hrow : length row = 20%nat).
  { rewrite Forall_forall in Hx. apply Hx. eapply nth_error_In; eauto. }
  exists (argmax (row_soft o row)).
  rewrite (@row_hard_one_hot o row Hrow).
  destruct (@argmax_first_max (row_soft o row)) as (Hk & Hmax & Hfirst).
  { intros Hnil. pose proof (row_soft_length o row) as Hl.
    rewrite Hnil, Hrow in Hl. discriminate. }
  rewrite row_soft_length, Hrow in Hk, Hmax. auto.
Qed.

Lemma hard_rows_pick_first_largest_witness :
  exists k,
    nth_error (hard_view (relax [repeat 0 20]
                 (mkOptions 1 1 1 1 false (Dict []) None))) 0 =
    Some (one_hot 20 k) /\ (k < 20)%nat.
Proof.
  destruct (@hard_rows_pick_first_largest [repeat 0 20]
              (mkOptions 1 1 1 1 false (Dict []) None)
              ltac:(repeat constructor) 0%nat _ eq_refl)
    as (k & Hk & Hlt & _).
  exists k. split; assumption.
Defined.

(** X7: partial mode writes the configured rows and nothing else.  For
    logits of 20 columns and one reference residue per configured position,
    or a single one, [_get_seq] returns; the views keep their number of
    rows, and every row whose index is not configured is the row computed
    from the logits. *)
Theorem partial_keeps_other_rows aatype (params : pytree matrix)
    (o : Options) (x : matrix) (p : list nat) :
  leaf_at ["seq"%string] params = Some x ->
  Forall (fun r => length r = 20%nat) x ->
  pos o = Some p ->
  length aatype = length p \/ length aatype = 1%nat ->
  exists s, get_seq partial aatype params o = Some s /\
    length (input s) = length x /\ length (pseudo s) = length x /\
    forall i, ~ In i p ->
      nth_error (input s) i = nth_error x i /\
      nth_error (logits s) i = nth_error (logits (relax x o)) i /\
      nth_error (soft_view s) i = nth_error (soft_view (relax x o)) i /\
      nth_error (hard_view s) i = nth_error (hard_view (relax x o)) i /\
      nth_error (pseudo s) i = nth_error (pseudo (relax x o)) i.
Proof.
  intros Hseq Hx Hp Hfit.
  destruct (@get_seq_returns partial aatype params o x Hseq Hx) as [s Hs].
  { unfold reference_fits. now rewrite Hp. }
  exists s. split; [exact Hs|].
  rewrite (@get_seq_cases partial aatype params o x Hseq Hx), Hp in Hs.
  cbn [is_partial] in Hs.
  destruct (seq_map_some _ _ Hs) as (H1 & H2 & H3 & H4 & H5).
  destruct (at_set_rows_frame _ _ _ H1) as [L1 F1].
  destruct (at_set_rows_frame _ _ _ H2) as [_ F2].
  destruct (at_set_rows_frame _ _ _ H3) as [_ F3].
  destruct (at_set_rows_frame _ _ _ H4) as [_ F4].
  destruct (at_set_rows_frame _ _ _ H5) as [L5 F5].
  assert (Hin : input (relax x o) = x) by now rewrite relax_rows.
  assert (Hps : length (pseudo (relax x o)) = length x).
  { rewrite relax_rows. cbn [pseudo]. apply length_map. }
  rewrite Hin in L1, F1.
  split; [exact L1|]. split; [congruence|].
  intros i Hi. repeat split; auto.
Qed.

Lemma partial_keeps_other_rows_witness :
  exists s,
    get_seq partial [3%nat]
      (Dict [("seq"%string, Leaf [repeat 0 20; repeat 1 20])])
      (mkOptions 1 1 1 1 false (Dict []) (Some [0%nat])) = Some s /\
    nth_error (input s) 1 = Some (repeat 1 20).
Proof.
  destruct (@partial_keeps_other_rows [3%nat]
              (Dict [("seq"%string, Leaf [repeat 0 20; repeat 1 20])])
              (mkOptions 1 1 1 1 false (Dict []) (Some [0%nat]))
              [repeat 0 20; repeat 1 20] [0%nat] eq_refl
              ltac:(repeat constructor) eq_refl (or_introl eq_refl))
    as (s & Hs & _ & _ & Hrows).
  exists s. split; [exact Hs|].
  destruct (Hrows 1%nat) as [Hin _].
  - intros [H|[]]. discriminate.
  - exact Hin.
Defined.

(** X8: a reference residue whose type index is 20 or more (an unknown
    residue) has no column among the 20 amino acids: for logits of 20
    columns and one reference residue per configured position, partial mode
    then writes an all-zero row at its position, in the pseudo-sequence
    handed to the network as in the other views. *)
Theorem partial_unknown_residue_row aatype (params : pytree matrix)
    (o : Options) (x : matrix) (p : list nat) :
  leaf_at ["seq"%string] params = Some x ->
  Forall (fun r => length r = 20%nat) x ->
  pos o = Some p -> length aatype = length p ->
  NoDup p -> (forall j, In j p -> (j < length x)%nat) ->
  exists s, get_seq partial aatype params o = Some s /\
    forall k i a, nth_error p k = Some i -> nth_error aatype k = Some a ->
      (20 <= a)%nat ->
      nth_error (pseudo s) i = Some (repeat 0 20) /\
      nth_error (hard_view s) i = Some (repeat 0 20) /\
      nth_error (soft_view s) i = Some (repeat 0 20).
Proof.
  intros Hseq Hx Hp Hlen Hnd Hin.
  rewrite (@get_seq_written aatype params o x p Hseq Hx Hp Hlen).
  eexists. split; [reflexivity|].
  intros k i a Hk Ha Hbig. rewrite relax_rows.
  cbn [soft_view hard_view pseudo].
  assert (Hr : nth_error (map (one_hot 20) aatype) k = Some (repeat 0 20)).
  { rewrite nth_error_map, Ha. cbn [option_map].
    now rewrite one_hot_out_of_range. }
  repeat split; apply (write_rows_selected _ _ k Hnd); auto;
    intros j Hj; rewrite ?length_map; now apply Hin.
Qed.

Lemma partial_unknown_residue_row_witness :
  exists s,
    get_seq partial [20%nat]
      (Dict [("seq"%string, Leaf [repeat 1 20])])
      (mkOptions 1 1 1 1 false (Dict []) (Some [0%nat])) = Some s /\
    nth_error (pseudo s) 0 = Some (repeat 0 20).
Proof.
  destruct (@partial_unknown_residue_row [20%nat]
              (Dict [("seq"%string, Leaf [repeat 1 20])])
              (mkOptions 1 1 1 1 false (Dict []) (Some [0%nat]))
              [repeat 1 20] [0%nat] eq_refl ltac:(repeat constructor)
              eq_refl eq_refl)
    as (s & Hs & Hrows).
  - repeat constructor. intros [].
  - intros j [<-|[]]. simpl. lia.
  - exists s. split; [exact Hs|].
    destruct (Hrows 0%nat 0%nat 20%nat eq_refl eq_refl) as [H _];
      [lia|exact H].
Defined.

(** X9: with the soft weight at 1 and the hard weight at 0 the
    pseudo-sequence of a logits matrix of 20 columns is the soft view
    itself, in every protocol, whenever the reference residues fit the
    configured positions. *)
Theorem pseudo_is_soft proto aatype (params : pytree matrix) (o : Options)
    (x : matrix) :
  leaf_at ["seq"%string] params = Some x ->
  Forall (fun r => length r = 20%nat) x ->
  reference_fits proto o aatype ->
  soft o = 1 -> hard o = 0 ->
  exists s, get_seq proto aatype params o = Some s /\
            pseudo s = soft_view s.
Proof.
  intros Hseq Hx Hfit Hs Hh.
  destruct (@get_seq_returns proto aatype params o x Hseq Hx Hfit)
    as [s Hget].
  exists s. split; [exact Hget|].
  rewrite (@get_seq_cases proto aatype params o x Hseq Hx) in Hget.
  assert (Hrows : pseudo (relax x o) = soft_view (relax x o)).
  { rewrite relax_rows. cbn [pseudo soft_view].
    apply (map_ext_Forall _ _ Hx). intros r Hr.
    now apply row_pseudo_soft. }
  destruct (is_partial proto); [|now inversion Hget; subst].
  destruct (pos o) as [p|]; [|now inversion Hget; subst].
  destruct (seq_map_some _ _ Hget) as (_ & _ & H3 & _ & H5).
  rewrite Hrows in H5. congruence.
Qed.

Lemma pseudo_is_soft_witness :
  exists s,
    get_seq fixbb [] (Dict [("seq"%string, Leaf [repeat 0 20])])
            (mkOptions 1 1 0 1 false (Dict []) None) = Some s /\
    pseudo s = soft_view s.
Proof.
  apply (@pseudo_is_soft fixbb [] (Dict [("seq"%string, Leaf [repeat 0 20])])
           (mkOptions 1 1 0 1 false (Dict []) None) [repeat 0 20]).
  - reflexivity.
  - repeat constructor.
  - exact I.
  - reflexivity.
  - reflexivity.
Defined.

End RelaxerViews.

(** ** LossComposer: signs of the terms *)

Section LossSigns.

Import GeometryBinner PyTree Arrays SequenceRelaxer LossComposer.
Import ChannelNames.
Local Open Scope R_scope.
Local Open Scope string_scope.

Lemma ln_le_weak x y : 0 < x -> x <= y -> ln x <= ln y.
Proof.
  intros Hx [Hlt | ->]; [|lra]. left. now apply ln_increasing.
Qed.

(** Log-probabilities are never positive. *)
Lemma log_softmax_nonpos v : Forall (fun e => e <= 0) (log_softmax v).
Proof.
  unfold log_softmax. apply Forall_map, Forall_forall. intros x Hx.
  assert (Hle : exp x <= rsum (map exp v)).
  { apply rsum_bounds_entry.
    - eapply Forall_impl; [|apply exps_positive]. intros a Ha. lra.
    - now apply in_map. }
  pose proof (ln_le_weak (exp_pos x) Hle) as H. rewrite ln_exp in H. lra.
Qed.

Lemma rsum_nonpos v : Forall (fun e => e <= 0) v -> rsum v <= 0.
Proof. unfold rsum. induction 1 as [|e v He _ IH]; simpl; lra. Qed.

Lemma rsum_app a b : rsum (a ++ b) = rsum a + rsum b.
Proof.
  unfold rsum. induction a as [|x a IH]; simpl; [ring|]. rewrite IH. ring.
Qed.

Lemma rmean_nonpos v : Forall (fun e => e <= 0) v -> rmean v <= 0.
Proof.
  intros H. unfold rmean, Rdiv. pose proof (rsum_nonpos H) as Hs.
  destruct v as [|x v].
  - simpl. rewrite Rinv_0. lra.
  - assert (Hn : 0 < / INR (length (x :: v))).
    { apply Rinv_0_lt_compat. apply lt_0_INR. simpl. lia. }
    nra.
Qed.

Lemma rmean_nonneg v : Forall (fun e => 0 <= e) v -> 0 <= rmean v.
Proof.
  intros H. unfold rmean, Rdiv. pose proof (rsum_nonneg H) as Hs.
  destruct v as [|x v].
  - simpl. rewrite Rinv_0. lra.
  - assert (Hn : 0 < / INR (length (x :: v))).
    { apply Rinv_0_lt_compat. apply lt_0_INR. simpl. lia. }
    nra.
Qed.

Lemma Forall_concat {A : Type} (P : A -> Prop) (m : list (list A)) :
  Forall (Forall P) m -> Forall P (concat m).
Proof.
  induction 1 as [|row m Hrow _ IH]; simpl; [constructor|].
  apply Forall_app. now split.
Qed.

(** A target with non-negative entries against log-probabilities. *)
Lemma cce_term_nonneg (q lp : tensor3) :
  Forall (Forall (Forall (fun e => 0 <= e))) q ->
  Forall (Forall (Forall (fun e => e <= 0))) lp ->
  0 <= cce_term q lp.
Proof.
  intros Hq Hl. unfold cce_term, sum_last_mean, mean_all, t3_mul.
  assert (H : rmean (concat (map (map rsum)
                (bmap2 (bmap2 (bmap2 Rmult)) q lp))) <= 0).
  { apply rmean_nonpos, Forall_concat, Forall_map.
    apply (@bmap2_Forall2 _ _ _ (bmap2 (bmap2 Rmult))
             (Forall (Forall (fun e => 0 <= e)))
             (Forall (Forall (fun e => e <= 0)))
             (fun row => Forall (fun e => e <= 0) (map rsum row)));
      [|exact Hq|exact Hl].
    intros rq rl Hrq Hrl. apply Forall_map.
    apply (@bmap2_Forall2 _ _ _ (bmap2 Rmult)
             (Forall (fun e => 0 <= e)) (Forall (fun e => e <= 0))
             (fun v => rsum v <= 0));
      [|exact Hrq|exact Hrl].
    intros vq vl Hvq Hvl. apply rsum_nonpos.
    apply (@bmap2_Forall2 _ _ _ Rmult
             (fun e => 0 <= e) (fun e => e <= 0) (fun e => e <= 0));
      [|exact Hvq|exact Hvl].
    intros x y Hx Hy. nra. }
  lra.
Qed.

Lemma Forall_gather {A : Type} (P : A -> Prop) idx (xs : list A) :
  Forall P xs -> Forall P (gather idx xs).
Proof.
  intros H. unfold gather. induction idx as [|i idx IH]; simpl;
    [constructor|].
  apply Forall_app. split; [|exact IH].
  destruct (nth_error xs (Nat.min i (length xs - 1))) as [a|] eqn:E;
    [|constructor].
  constructor; [|constructor]. rewrite Forall_forall in H. apply H.
  eapply nth_error_In; eauto.
Qed.

Lemma log_probs_nonpos (t : tensor3) :
  Forall (Forall (Forall (fun e => e <= 0))) (t3_map log_softmax t).
Proof.
  unfold t3_map. apply Forall_map, Forall_forall. intros row _.
  apply Forall_map, Forall_forall. intros v _. apply log_softmax_nonpos.
Qed.

Lemma submatrix_Forall {A : Type} (P : A -> Prop) idx (t : list (list A)) :
  Forall (Forall P) t -> Forall (Forall P) (submatrix idx t).
Proof.
  intros H. unfold submatrix. apply Forall_gather, Forall_map.
  eapply Forall_impl; [|exact H]. intros row. apply Forall_gather.
Qed.

Lemma leaf_at_per_channel (f : channel -> R) k :
  leaf_at [chan_name k] (per_channel f) = Some (f k).
Proof. destruct k; reflexivity. Qed.

(** The breakdown holds, under each term of the protocol, the four
    channels; the target-matching ones are [cce_term]s on the prediction
    or, in partial mode with positions, on its sub-matrix. *)
Lemma loss_terms_cce_leaf proto feats bkg out o t k l :
  loss_terms proto feats bkg out o = Some t ->
  leaf_at ["cce"; chan_name k] t = Some l ->
  exists q lp, feats = Some q /\
    Forall (Forall (Forall (fun e => e <= 0))) lp /\
    l = cce_term (chan k q) lp.
Proof.
  unfold loss_terms. intros Ht Hl.
  assert (Hlp : forall g : Geom tensor3,
            (g = geom_map (t3_map log_softmax) out \/
             exists p, g = geom_map (submatrix p)
                             (geom_map (t3_map log_softmax) out)) ->
            Forall (Forall (Forall (fun e => e <= 0))) (chan k g)).
  { intros g [-> | [p ->]]; rewrite !chan_geom_map.
    - apply log_probs_nonpos.
    - apply submatrix_Forall, log_probs_nonpos. }
  destruct proto; cbn [uses_bkg uses_cce is_partial] in Ht.
  - destruct feats as [q|]; [|discriminate].
    destruct (geoms_fit q _); [|discriminate]. inversion Ht; subst t.
    cbn [app] in Hl. rewrite leaf_at_cons in Hl. cbn [lookup] in Hl.
    simpl (String.eqb _ _) in Hl. cbv iota in Hl.
    rewrite leaf_at_per_channel in Hl. inversion Hl; subst l.
    exists q. eexists. split; [reflexivity|]. split; [|reflexivity].
    apply Hlp. now left.
  - destruct bkg as [b|]; [|discriminate].
    destruct (geoms_fit out b); [|discriminate]. inversion Ht; subst t.
    cbn [app] in Hl. rewrite leaf_at_cons in Hl. discriminate.
  - destruct bkg as [b|]; [|discriminate].
    destruct (geoms_fit out b); [|discriminate].
    destruct feats as [q|]; [|discriminate].
    destruct (geoms_fit q _); [|discriminate]. inversion Ht; subst t.
    cbn [app] in Hl. rewrite leaf_at_cons in Hl. cbn [lookup] in Hl.
    simpl (String.eqb _ _) in Hl. cbv iota in Hl.
    rewrite leaf_at_per_channel in Hl. inversion Hl; subst l.
    exists q. eexists. split; [reflexivity|]. split; [|reflexivity].
    apply Hlp. destruct (pos o); [right; eauto|now left].
Qed.

(** X10: the target-matching losses are never negative: whenever the cached
    target has no negative entry, every channel under ["cce"] of the
    breakdown is at least 0, in fixed-backbone mode as in partial mode. *)
Theorem cce_losses_nonneg proto feats bkg out o q t :
  feats = Some q ->
  (forall k, Forall (Forall (Forall (fun e => 0 <= e))) (chan k q)) ->
  loss_terms proto feats bkg out o = Some t ->
  forall k l, leaf_at ["cce"; chan_name k] t = Some l -> 0 <= l.
Proof.
  intros Hf Hq Ht k l Hl.
  destruct (loss_terms_cce_leaf _ _ _ _ _ k Ht Hl) as (q' & lp & Hq' & Hlp & ->).
  rewrite Hf in Hq'. inversion Hq'; subst q'.
  apply cce_term_nonneg; [apply Hq|exact Hlp].
Qed.

Lemma cce_losses_nonneg_witness :
  0 <= cce_term (dist Examples.first_bin)
                (t3_map log_softmax (dist Examples.flat_geom)).
Proof.
  eapply (@cce_losses_nonneg fixbb (Some Examples.first_bin) None
            Examples.flat_geom (mkOptions 1 1 1 1 false (Dict []) None)
            Examples.first_bin) with (k := Dist).
  - reflexivity.
  - intros k. destruct k; repeat constructor; simpl; lra.
  - reflexivity.
  - reflexivity.
Defined.

(** One entry of the divergence: [p (log p - log q) >= p - q]. *)
Lemma divergence_entry sa sb x y :
  0 < sa -> 0 < sb ->
  exp x / sa - exp y / sb <=
  exp x / sa * ((x - ln sa) - (y - ln sb)).
Proof.
  intros Ha Hb.
  pose proof (exp_pos x) as Hex. pose proof (exp_pos y) as Hey.
  set (u := (y - ln sb) - (x - ln sa)).
  assert (Hu : exp u = (exp y / sb) / (exp x / sa)).
  { unfold u.
    replace (y - ln sb - (x - ln sa)) with (y + - ln sb + (- x + ln sa))
      by ring.
    rewrite !exp_plus, !exp_Ropp, !exp_ln by assumption.
    field. repeat split; lra. }
  pose proof (exp_ineq1_le u) as Hineq. rewrite Hu in Hineq.
  assert (Hp : 0 < exp x / sa).
  { apply Rdiv_lt_0_compat; [apply exp_pos|exact Ha]. }
  assert (Hq : exp x / sa * (1 + u) <= exp y / sb).
  { apply Rmult_le_compat_l with (r := exp x / sa) in Hineq; [|lra].
    replace (exp x / sa * (exp y / sb / (exp x / sa))) with (exp y / sb)
      in Hineq by (field; repeat split; lra).
    exact Hineq. }
  replace (x - ln sa - (y - ln sb)) with (- u) by (unfold u; ring).
  nra.
Qed.

Lemma divergence_rows sa sb : forall a b : list R,
  0 < sa -> 0 < sb -> length a = length b ->
  rsum (map (fun x => exp x / sa) a) - rsum (map (fun y => exp y / sb) b) <=
  rsum (map2 Rmult (map (fun x => exp x / sa) a)
          (map2 Rminus (map (fun x => x - ln sa) a)
                       (map (fun y => y - ln sb) b))).
Proof.
  induction a as [|x a IH]; intros [|y b] Ha Hb Hlen; simpl in Hlen;
    try discriminate.
  - unfold rsum. simpl. lra.
  - injection Hlen as Hlen. specialize (IH b Ha Hb Hlen).
    pose proof (divergence_entry x y Ha Hb) as He.
    unfold rsum in *. simpl. lra.
Qed.

(** Gibbs' inequality for the two softmax distributions of a pair. *)
Lemma divergence_nonneg (a b : list R) :
  length a = length b ->
  0 <= rsum (map2 Rmult (softmax a)
               (map2 Rminus (log_softmax a) (log_softmax b))).
Proof.
  intros Hlen. destruct a as [|x a].
  - destruct b; [|discriminate]. unfold rsum. simpl. lra.
  - destruct b as [|y b]; [discriminate|].
    assert (Ha : 0 < rsum (map exp (x :: a)))
      by (apply exps_sum_pos; discriminate).
    assert (Hb : 0 < rsum (map exp (y :: b)))
      by (apply exps_sum_pos; discriminate).
    pose proof (divergence_rows (x :: a) (y :: b) Ha Hb Hlen) as H.
    rewrite !(rsum_map_div exp) in H.
    unfold softmax, log_softmax.
    replace (rsum (map exp (x :: a)) / rsum (map exp (x :: a))) with 1 in H
      by (field; lra).
    replace (rsum (map exp (y :: b)) / rsum (map exp (y :: b))) with 1 in H
      by (field; lra).
    lra.
Qed.

Lemma pair_divergences_nonneg : forall ra rb : list (list R),
  Forall2 (fun va vb => length va = length vb) ra rb ->
  Forall (fun e => 0 <= e)
    (map rsum
       (map2 (map2 Rmult) (map softmax ra)
          (map2 (map2 Rminus) (map log_softmax ra) (map log_softmax rb)))).
Proof.
  induction 1 as [|va vb ra rb Hlen _ IH]; simpl; constructor.
  - now apply divergence_nonneg.
  - exact IH.
Qed.

(** Arrays with the same bins pair by pair are combined entry by entry:
    nothing is broadcast. *)
Lemma t3_same_bins (f : R -> R -> R) (a b : tensor3) :
  same_bins a b ->
  bmap2 (bmap2 (bmap2 f)) a b = map2 (map2 (map2 f)) a b.
Proof.
  intros Hs.
  apply (@bmap2_Forall2_eq _ _ _ (bmap2 (bmap2 f)) (map2 (map2 f))
           (Forall2 (fun va vb : list R => length va = length vb)) a b Hs).
  intros ra rb Hr.
  apply (@bmap2_Forall2_eq _ _ _ (bmap2 f) (map2 f)
           (fun va vb : list R => length va = length vb) ra rb Hr).
  intros va vb Hlen. now apply bmap2_same_length.
Qed.

Lemma bkg_term_nonpos (outp b : tensor3) :
  same_bins outp b -> bkg_term outp b <= 0.
Proof.
  intros Hs. unfold bkg_term, sum_last_mean, mean_all, t3_mul, t3_sub, t3_map.
  assert (H1 : same_bins (map (map log_softmax) outp)
                         (map (map log_softmax) b)).
  { induction Hs as [|ra rb outp b Hrow _ IH]; simpl; constructor;
      [|exact IH].
    induction Hrow as [|va vb ra rb Hlen _ IHr]; simpl; constructor;
      [|exact IHr].
    unfold log_softmax. now rewrite !length_map. }
  rewrite (t3_same_bins Rminus H1).
  assert (H2 : same_bins (map (map softmax) outp)
                 (map2 (map2 (map2 Rminus)) (map (map log_softmax) outp)
                                            (map (map log_softmax) b))).
  { clear H1.
    induction Hs as [|ra rb outp b Hrow _ IH]; simpl; constructor;
      [|exact IH].
    induction Hrow as [|va vb ra rb Hlen _ IHr]; simpl; constructor;
      [|exact IHr].
    rewrite map2_length; unfold softmax, log_softmax;
      now rewrite !length_map. }
  rewrite (t3_same_bins Rmult H2).
  assert (H : 0 <= rmean (concat (map (map rsum)
      (map2 (map2 (map2 Rmult)) (map (map softmax) outp)
         (map2 (map2 (map2 Rminus)) (map (map log_softmax) outp)
                                    (map (map log_softmax) b)))))).
  { apply rmean_nonneg, Forall_concat. clear H1 H2.
    induction Hs as [|ra rb outp b Hrow _ IH]; simpl; constructor.
    - now apply pair_divergences_nonneg.
    - exact IH. }
  lra.
Qed.

Lemma loss_terms_bkg_leaf proto feats bkg out o t k l :
  loss_terms proto feats bkg out o = Some t ->
  leaf_at ["bkg"; chan_name k] t = Some l ->
  exists b, bkg = Some b /\ l = bkg_term (chan k out) (chan k b).
Proof.
  unfold loss_terms. intros Ht Hl.
  destruct proto; cbn [uses_bkg uses_cce is_partial] in Ht.
  - destruct feats as [q|]; [|discriminate].
    destruct (geoms_fit q _); [|discriminate]. inversion Ht; subst t.
    cbn [app] in Hl. rewrite leaf_at_cons in Hl. discriminate.
  - destruct bkg as [b|]; [|discriminate].
    destruct (geoms_fit out b); [|discriminate]. inversion Ht; subst t.
    cbn [app] in Hl. rewrite leaf_at_cons in Hl. cbn [lookup] in Hl.
    simpl (String.eqb _ _) in Hl. cbv iota in Hl.
    rewrite leaf_at_per_channel in Hl. inversion Hl; subst l. eauto.
  - destruct bkg as [b|]; [|discriminate].
    destruct (geoms_fit out b); [|discriminate].
    destruct feats as [q|]; [|discriminate].
    destruct (geoms_fit q _); [|discriminate]. inversion Ht; subst t.
    cbn [app] in Hl. rewrite leaf_at_cons in Hl. cbn [lookup] in Hl.
    simpl (String.eqb _ _) in Hl. cbv iota in Hl.
    rewrite leaf_at_per_channel in Hl. inversion Hl; subst l. eauto.
Qed.

(** X11: the background losses are never positive: each channel under
    ["bkg"] is minus the divergence of the predicted distribution from the
    background distribution, averaged over the pairs, and that divergence
    is at least 0 wherever prediction and background have the same bins. *)
Theorem bkg_losses_nonpos proto feats bkg out o b t :
  bkg = Some b ->
  (forall k, same_bins (chan k out) (chan k b)) ->
  loss_terms proto feats bkg out o = Some t ->
  forall k l, leaf_at ["bkg"; chan_name k] t = Some l -> l <= 0.
Proof.
  intros Hb Hs Ht k l Hl.
  destruct (loss_terms_bkg_leaf _ _ _ _ _ k Ht Hl) as (b' & Hb' & ->).
  rewrite Hb in Hb'. inversion Hb'; subst b'.
  apply bkg_term_nonpos, Hs.
Qed.

Lemma bkg_losses_nonpos_witness :
  bkg_term (dist Examples.flat_geom) (dist Examples.first_bin) <= 0.
Proof.
  eapply (@bkg_losses_nonpos hallucination None (Some Examples.first_bin)
            Examples.flat_geom (mkOptions 1 1 1 1 false (Dict []) None)
            Examples.first_bin) with (k := Dist).
  - reflexivity.
  - intros k. destruct k; repeat constructor.
  - reflexivity.
  - reflexivity.
Defined.

Lemma terms_nodup proto : NoDup (terms proto).
Proof.
  destruct proto; cbn; repeat constructor; simpl; intuition discriminate.
Qed.

Lemma loss_terms_keys proto feats bkg out o t :
  loss_terms proto feats bkg out o = Some t ->
  exists kids, t = Dict kids /\ keys kids = terms proto.
Proof.
  unfold loss_terms. intros Ht.
  destruct proto; cbn [uses_bkg uses_cce is_partial] in Ht.
  - destruct feats as [q|]; [|discriminate].
    destruct (geoms_fit q _); [|discriminate]. inversion Ht. eexists.
    split; reflexivity.
  - destruct bkg as [b|]; [|discriminate].
    destruct (geoms_fit out b); [|discriminate]. inversion Ht. eexists.
    split; reflexivity.
  - destruct bkg as [b|]; [|discriminate].
    destruct (geoms_fit out b); [|discriminate].
    destruct feats as [q|]; [|discriminate].
    destruct (geoms_fit q _); [|discriminate].
    inversion Ht. eexists. split; reflexivity.
Qed.

Lemma same_keys_incl {V W : Type} (d1 : list (string * V))
    (d2 : list (string * W)) :
  same_keys d1 d2 = true ->
  length d1 = length d2 /\ incl (keys d1) (keys d2).
Proof.
  unfold same_keys. intros H. apply andb_true_iff in H. destruct H as [Hl Hk].
  apply Nat.eqb_eq in Hl. split; [exact Hl|].
  intros k Hin. rewrite forallb_forall in Hk. specialize (Hk k Hin).
  apply existsb_exists in Hk. destruct Hk as (k' & Hin' & Heq).
  apply String.eqb_eq in Heq. now subst k'.
Qed.

(** X12: [_get_loss] returns only for a weights mapping whose terms are
    exactly the terms that the protocol computes ("cce" in fixed-backbone
    mode, "bkg" in hallucination, both in partial mode): a missing term or
    one term more makes it raise. *)
Theorem get_loss_needs_matching_terms proto feats bkg out o r :
  get_loss proto feats bkg out o = Some r ->
  exists wkids, weights o = Dict wkids /\
    length wkids = length (terms proto) /\
    forall k, In k (keys wkids) <-> In k (terms proto).
Proof.
  unfold get_loss. intros H.
  destruct (loss_terms proto feats bkg out o) as [t|] eqn:Et; [|discriminate].
  destruct (loss_terms_keys _ _ _ _ _ Et) as (kids & -> & Hkeys).
  destruct (weighted_total (Dict kids) (weights o)) as [tot|] eqn:Ew;
    [|discriminate].
  unfold weighted_total in Ew. cbn [tree_map_n mapM] in Ew.
  destruct (weights o) as [w|wkids]; cbn [as_dict] in Ew; [discriminate|].
  cbn [forallb] in Ew.
  destruct (same_keys kids wkids) eqn:Es; [|discriminate].
  destruct (same_keys_incl _ _ Es) as [Hlen Hincl].
  exists wkids. split; [reflexivity|].
  assert (Hl : length wkids = length (terms proto)).
  { rewrite <- Hkeys. unfold keys. rewrite length_map. now symmetry. }
  split; [exact Hl|]. intros k. rewrite <- Hkeys. split.
  - apply NoDup_length_incl; [rewrite Hkeys; apply terms_nodup| |exact Hincl].
    unfold keys. rewrite !length_map. lia.
  - apply Hincl.
Qed.

Lemma get_loss_needs_matching_terms_witness :
  exists wkids,
    Examples.unit_weights = Dict wkids /\ length wkids = 1%nat.
Proof.
  destruct (@get_loss_needs_matching_terms fixbb (Some Examples.first_bin)
              None Examples.flat_geom
              (mkOptions 1 1 1 1 false Examples.unit_weights None)
              _ eq_refl)
    as (wkids & Hw & Hl & _).
  exists wkids. split; assumption.
Defined.

End LossSigns.

(** ** DesignSession: which instances [run] uses, and when it raises *)

Section RunEdges.

Import GeometryBinner PyTree Arrays SequenceRelaxer LossComposer.
Import DesignSession.
Local Open Scope string_scope.

Context {J : Jax}.

Lemma firstn_seq_min n : forall s len,
  firstn n (seq s len) = seq s (Nat.min n len).
Proof.
  induction n as [|n IH]; intros s [|len]; simpl; try reflexivity.
  now rewrite IH.
Qed.

(** X13: with sampling disabled [run] uses the instances [ns[:m]] of
    Python slicing and keeps the key: [model.num] above 5 silently means
    all five instances, a negative [model.num] counts from the end (-1
    gives the first four), and 0 or anything up to -5 gives none. *)
Theorem instances_without_sampling (s : Session) :
  model_sample (opt s) = false ->
  let m := model_num (opt s) in
  decide s =
  (s, Some (seq 0 (if (m <? 0)%Z then Z.to_nat (5 + m)
                   else Nat.min (Z.to_nat m) 5))).
Proof.
  intros Hs m. rewrite decide_keeps by (unfold draws; now rewrite Hs).
  fold m. unfold slice_to. rewrite firstn_seq_min. cbn [length seq].
  change (Z.of_nat 5) with 5%Z.
  destruct (Z.ltb_spec m 0); [|reflexivity].
  do 3 f_equal. lia.
Qed.

Lemma average_of_nothing s bp :
  average s bp 0 [] [] [] = None.
Proof. reflexivity. Qed.

(** X14: a call of [run] that asks for no instance at all ([model.num]
    is 0 once the overrides are merged) raises, with or without sampling,
    and leaves the cached loss, auxiliary outputs and gradient as they
    were. *)
Theorem run_without_instances_raises (s : Session) (a : RunArgs) :
  model_num (opt (override s a)) = 0%Z ->
  snd (run s a) = Raised /\
  _loss (fst (run s a)) = _loss s /\ _aux (fst (run s a)) = _aux s /\
  _grad (fst (run s a)) = _grad s.
Proof.
  intros Hm.
  assert (Hns : forall ns, snd (decide (override s a)) = Some ns -> ns = []).
  { intros ns Hns. destruct (draws (override s a)) eqn:Ed.
    - rewrite (decide_draws _ Ed) in Hns. cbn [snd] in Hns.
      rewrite Hm in Hns.
      destruct (@choice_distinct _ _ _ _ _ Hns (seq_NoDup 5 0) (Z.le_refl 0))
        as (_ & _ & Hlen).
      destruct ns; [reflexivity|discriminate].
    - rewrite (decide_keeps _ Ed) in Hns. cbn [snd] in Hns.
      rewrite Hm in Hns. now inversion Hns. }
  destruct (run_cases s a) as [[Hr Hs] | (ns & l & ax & g & Hd & Heq)].
  - split; [exact Hr|]. rewrite Hs.
    destruct (decide_frame (override s a))
      as (_ & _ & _ & _ & _ & _ & _ & H8 & H9 & H10 & _).
    cbn zeta in *. repeat split; assumption.
  - exfalso. pose proof (Hns ns Hd) as ->.
    unfold run in Heq.
    destruct (decide (override s a)) as [s2 chosen]. cbn [snd] in Hd.
    subst chosen. cbn [mapM map flat_map length] in Heq.
    rewrite average_of_nothing in Heq. discriminate.
Qed.

(** X15: with sampling enabled, asking for more than five instances makes
    [run] raise, since no draw without replacement can give them; the key
    of the session has been split by then and stays split. *)
Theorem oversampling_raises_after_split (s : Session) (a : RunArgs) :
  model_sample (opt (override s a)) = true ->
  (5 < model_num (opt (override s a)))%Z ->
  snd (run s a) = Raised /\
  _key (fst (run s a)) = fst (split (_key s)).
Proof.
  intros Hs Hm. set (s1 := override s a) in *.
  assert (Hd : draws s1 = true).
  { unfold draws. rewrite Hs.
    destruct (Z.eqb_spec (model_num (opt s1)) 5); [lia|reflexivity]. }
  assert (Hnone : snd (decide s1) = None).
  { rewrite (decide_draws _ Hd). cbn [snd].
    destruct (choice _ _ _) as [l|] eqn:El; [|reflexivity].
    destruct (@choice_distinct _ _ _ _ _ El (seq_NoDup 5 0))
      as (Hnd & Hin & Hlen); [lia|].
    pose proof (NoDup_incl_length Hnd Hin) as Hle.
    rewrite length_seq in Hle. lia. }
  destruct (run_cases s a) as [[Hr Hst] | (ns & l & ax & g & Hns & _)].
  - split; [exact Hr|]. rewrite Hst. fold s1.
    rewrite (decide_draws _ Hd). reflexivity.
  - fold s1 in Hns. congruence.
Qed.

(** X16: with sampling disabled and [model.num] at 1, [run] evaluates the
    first parameter set only; it returns exactly when that evaluation of
    the model does, and then stores its loss and its auxiliary outputs,
    recording the instance 0; when the evaluation raises, so does [run]. *)
Theorem single_instance_run (s : Session) (a : RunArgs) (mp : ModelParams) :
  let s1 := override s a in
  model_sample (opt s1) = false -> model_num (opt s1) = 1%Z ->
  nth_error (_model_params s) 0 = Some mp ->
  (forall l ax, _fn s1 (params s1) mp (opt s1) = Some (l, ax) ->
     snd (run s a) = Returned /\
     _loss (fst (run s a)) = Some l /\
     _aux (fst (run s a)) = Some (record_instances ax [0%nat])) /\
  (_fn s1 (params s1) mp (opt s1) = None -> snd (run s a) = Raised).
Proof.
  intros s1 Hs Hm Hmp.
  assert (Hd : decide s1 = (s1, Some [0%nat])).
  { rewrite decide_keeps by (unfold draws; now rewrite Hs).
    now rewrite Hm. }
  unfold run. fold s1. rewrite Hd. cbn [mapM].
  unfold instance. change (_model_params s1) with (_model_params s).
  rewrite Hmp. unfold _grad_fn, value_and_grad, _fn.
  split.
  - intros l ax Hv. rewrite Hv.
    destruct (backprop a); cbn [map flat_map fst snd length app average
                                 Nat.ltb Nat.leb]; repeat split.
  - intros Hv. rewrite Hv. now destruct (backprop a).
Qed.

End RunEdges.

Section RunEdgeExamples.

Import DesignSession.

Lemma instances_without_sampling_witness :
  decide (Examples.toy_session (-1) false) =
  (Examples.toy_session (-1) false, Some [0; 1; 2; 3]%nat).
Proof.
  exact (@instances_without_sampling Examples.toy_jax
           (Examples.toy_session (-1) false) eq_refl).
Defined.

Lemma run_without_instances_raises_witness :
  snd (run (Examples.toy_session 0 true) (Examples.plain_args true))
  = Raised.
Proof.
  exact (proj1 (@run_without_instances_raises Examples.toy_jax
                  (Examples.toy_session 0 true)
                  (Examples.plain_args true) eq_refl)).
Defined.

Lemma oversampling_raises_after_split_witness :
  snd (run (Examples.toy_session 6 true) (Examples.plain_args true))
  = Raised /\
  _key (fst (run (Examples.toy_session 6 true) (Examples.plain_args true)))
  = 15%nat.
Proof.
  apply (@oversampling_raises_after_split Examples.toy_jax
           (Examples.toy_session 6 true) (Examples.plain_args true)).
  - reflexivity.
  - reflexivity.
Defined.

Lemma single_instance_run_witness :
  snd (run (Examples.toy_session 1 false) (Examples.plain_args true))
  = Returned.
Proof.
  destruct (@single_instance_run Examples.toy_jax
              (Examples.toy_session 1 false) (Examples.plain_args true) tt
              eq_refl eq_refl eq_refl) as [Hret _].
  destruct (_fn (override (Examples.toy_session 1 false)
                          (Examples.plain_args true))
                (params (override (Examples.toy_session 1 false)
                                  (Examples.plain_args true)))
                tt
                (opt (override (Examples.toy_session 1 false)
                               (Examples.plain_args true))))
    as [[l ax]|] eqn:E.
  - exact (proj1 (Hret l ax eq_refl)).
  - discriminate E.
Defined.

End RunEdgeExamples.

(** ** Session set-up *)

Section SetupFacts.

Import GeometryBinner PyTree Arrays SequenceRelaxer LossComposer.
Import DesignSession Setup.
Local Open Scope R_scope.
Local Open Scope string_scope.

Context {J : Jax}.
Variable Coords : Type.
Variable PRNGKey : Z -> Key.
Variable np_get_6D : list Coords -> list (list bool) -> Geom (list (list Q)).
Variable bkg_model : nat -> Key -> nat -> option (Geom tensor3).

Lemma lookup_dict_set_same {V : Type} k (v : V) : forall d,
  lookup k (dict_set k v d) = Some v.
Proof.
  induction d as [|[k' v'] d IH]; simpl.
  - now rewrite String.eqb_refl.
  - destruct (String.eqb k k') eqn:E; simpl; rewrite ?E, ?String.eqb_refl;
      auto.
Qed.

Lemma lookup_dict_set_other {V : Type} k k' (v : V) : forall d,
  k <> k' -> lookup k (dict_set k' v d) = lookup k d.
Proof.
  intros d Hne. apply String.eqb_neq in Hne.
  induction d as [|[k0 v0] d IH]; simpl.
  - now rewrite Hne.
  - destruct (String.eqb k' k0) eqn:E; simpl.
    + apply String.eqb_eq in E. subst k0. now rewrite Hne.
    + destruct (String.eqb k k0); [reflexivity|exact IH].
Qed.

Lemma rsum_repeat e n : rsum (repeat e n) = INR n * e.
Proof.
  unfold rsum. induction n as [|n IH]; [simpl; ring|].
  cbn [repeat fold_right]. rewrite IH, S_INR. ring.
Qed.

(** The softmax of equal logits is uniform. *)
Lemma softmax_const c n :
  (0 < n)%nat -> softmax (repeat c n) = repeat (1 / INR n) n.
Proof.
  intros Hn. unfold softmax. rewrite !map_repeat. f_equal.
  rewrite rsum_repeat. pose proof (exp_pos c).
  assert (0 < INR n) by now apply lt_0_INR.
  field. split; lra.
Qed.

Lemma argmax_from_const e b : forall m i,
  argmax_from e b i (repeat e m) = b.
Proof.
  induction m as [|m IH]; intros i; simpl; [reflexivity|].
  destruct (Rlt_dec e e) as [H|_]; [lra|apply IH].
Qed.

Lemma argmax_const e n : argmax (repeat e n) = 0%nat.
Proof. destruct n; [reflexivity|]. simpl. apply argmax_from_const. Qed.

Lemma row_soft_zero o : row_soft o (repeat 0 20) = repeat (1 / 20) 20.
Proof.
  unfold row_soft. rewrite !map_repeat, softmax_const by lia.
  f_equal. f_equal. simpl. lra.
Qed.

Lemma restart_params s len seed drawn o w s' :
  restart PRNGKey s len seed drawn o w = Some s' ->
  exists L, len = Some L /\
    leaf_at ["seq"] (params s') = Some (repeat (repeat 0 20) L) /\
    _key s' = PRNGKey (or_keep seed drawn) /\
    opt s' = set_weights (set_opt (opt s) o) w /\
    protocol_of s' = protocol_of s /\ aatype s' = aatype s /\
    feats s' = feats s /\ bkg_feats s' = bkg_feats s.
Proof.
  unfold restart. destruct len as [L|]; [|discriminate].
  destruct (params s) as [m|kids]; [discriminate|].
  intros H. inversion H; subst s'. exists L. split; [reflexivity|].
  cbn [with_settings with_key params _key opt protocol_of aatype feats
       bkg_feats].
  rewrite leaf_at_cons, lookup_dict_set_same. repeat split.
Qed.

(** X17: [restart] puts all-zero logits of [self._len] rows and 20 columns
    in place; with the soft and hard weights at 1 and no partial overwrite,
    the next evaluation sees a uniform soft view, 1/20 everywhere, and,
    the arg-max breaking the tie by the first index, the pseudo-sequence
    that has amino acid 0 at every position. *)
Theorem restart_starts_from_first_residue s len seed drawn o w s' :
  restart PRNGKey s len seed drawn o w = Some s' ->
  is_partial (protocol_of s') = false \/ pos (opt s') = None ->
  soft (opt s') = 1 -> hard (opt s') = 1 ->
  exists L v,
    len = Some L /\
    get_seq (protocol_of s') (aatype s') (params s') (opt s') = Some v /\
    input v = repeat (repeat 0 20) L /\
    soft_view v = repeat (repeat (1 / 20) 20) L /\
    pseudo v = repeat (one_hot 20 0) L.
Proof.
  intros Hr Hmode Hs Hh.
  destruct (restart_params _ _ _ _ _ _ Hr) as (L & HL & Hseq & _).
  assert (Hwide : Forall (fun r => length r = 20%nat)
                         (repeat (repeat 0 20) L)).
  { apply Forall_forall. intros r Hin. apply repeat_spec in Hin.
    now subst r. }
  exists L. eexists. split; [exact HL|].
  split; [exact (@get_seq_plain (protocol_of s') (aatype s') (params s')
                   (opt s') _ Hseq Hwide Hmode)|].
  rewrite relax_rows. cbn [input soft_view pseudo].
  rewrite !map_repeat. split; [reflexivity|].
  assert (H20 : length (repeat 0 20) = 20%nat) by reflexivity.
  rewrite (@row_pseudo_hard (opt s') (repeat 0 20) H20 Hs Hh).
  rewrite (@row_hard_one_hot (opt s') (repeat 0 20) H20).
  rewrite row_soft_zero, argmax_const. split; reflexivity.
Qed.

Lemma set_weight_term_weights k v o o' :
  set_weight_term k v o = Some o' ->
  exists kids, weights o = Dict kids /\
               weights o' = Dict (dict_set k v kids) /\
               pos o' = pos o /\ soft o' = soft o /\ hard o' = hard o /\
               temp o' = temp o.
Proof.
  unfold set_weight_term. destruct (weights o) as [x|kids]; [discriminate|].
  intros H. inversion H; subst o'. exists kids. repeat split.
Qed.

Lemma prep_target_result s len (a : PrepArgs Coords) s1 len1 :
  prep_target np_get_6D s len a = Some (s1, len1) ->
  protocol_of s1 = protocol_of s /\ params s1 = params s /\
  bkg_feats s1 = bkg_feats s /\
  (uses_cce (protocol_of s) = false -> s1 = s /\ len1 = len) /\
  (uses_cce (protocol_of s) = true ->
     exists b0 b q kids,
       pdb a = Some b0 /\ feats s1 = Some q /\ aatype s1 = b_aatype b /\
       len1 = Some (length (b_aatype b)) /\
       weights (opt s) = Dict kids /\
       weights (opt s1) = Dict (dict_set "cce" channel_weights kids) /\
       match is_partial (protocol_of s), pos_arg a with
       | true, Some p =>
           take p (b_aatype b0) = Some (b_aatype b) /\
           pos (opt s1) = Some (seq 0 (length p))
       | _, _ => b = b0 /\ pos (opt s1) = pos (opt s)
       end).
Proof.
  unfold prep_target. destruct (uses_cce (protocol_of s)) eqn:Eu.
  - destruct (pdb a) as [b0|]; [|discriminate].
    destruct (match is_partial (protocol_of s), pos_arg a with
              | true, Some p =>
                  match batch_take p b0 with
                  | Some b => Some (b, with_pos (opt s) (seq 0 (length p)))
                  | None => None
                  end
              | _, _ => Some (b0, opt s)
              end) as [[b o1]|] eqn:Er; [|discriminate].
    destruct (np_get_6D_binned _) as [f|]; [|discriminate].
    destruct (set_weight_term "cce" channel_weights o1) as [o2|] eqn:Ew;
      [|discriminate].
    intros H. inversion H; subst s1 len1. clear H.
    destruct (set_weight_term_weights _ _ _ Ew)
      as (kids & Hk & Hk' & Hp & _).
    cbn [protocol_of params bkg_feats with_target feats aatype opt].
    repeat split; try discriminate.
    intros _. exists b0, b, (to_real f), kids.
    assert (Hcase : weights (opt s) = weights o1 /\
              match is_partial (protocol_of s), pos_arg a with
              | true, Some p =>
                  take p (b_aatype b0) = Some (b_aatype b) /\
                  pos o1 = Some (seq 0 (length p))
              | _, _ => b = b0 /\ pos o1 = pos (opt s)
              end).
    { destruct (is_partial (protocol_of s)); [|now inversion Er].
      destruct (pos_arg a) as [p|]; [|now inversion Er].
      unfold batch_take in Er.
      destruct (take p (b_aatype b0)) as [ta|]; [|discriminate].
      destruct (take p (all_atom_positions b0)); [|discriminate].
      destruct (take p (all_atom_mask b0)); [|discriminate].
      inversion Er; subst b o1. repeat split. }
    destruct Hcase as [Hw Hc]. rewrite Hw.
    repeat split; try assumption.
    destruct (is_partial (protocol_of s)), (pos_arg a);
      destruct Hc as [Hc1 Hc2]; split; congruence.
  - intros H. inversion H; subst. repeat split; discriminate.
Qed.

Lemma prep_background_result s len (a : PrepArgs Coords) s2 len2 :
  prep_background PRNGKey bkg_model s len a = Some (s2, len2) ->
  protocol_of s2 = protocol_of s /\ params s2 = params s /\
  feats s2 = feats s /\ aatype s2 = aatype s /\ pos (opt s2) = pos (opt s) /\
  (uses_bkg (protocol_of s) = false -> s2 = s /\ len2 = len) /\
  (uses_bkg (protocol_of s) = true ->
     exists b kids,
       bkg_feats s2 = Some b /\
       len2 = match length_arg a with Some L => Some L | None => len end /\
       weights (opt s) = Dict kids /\
       weights (opt s2) = Dict (dict_set "bkg" channel_weights kids)).
Proof.
  unfold prep_background. destruct (uses_bkg (protocol_of s)) eqn:Eu.
  - destruct (match length_arg a with Some L => Some L | None => len end)
      as [L|] eqn:El; [|discriminate].
    destruct (mapM _ (seq 1 5)) as [outs|]; [|discriminate].
    destruct (geom_mean outs) as [b|]; [|discriminate].
    destruct (set_weight_term "bkg" channel_weights (opt s)) as [o|] eqn:Ew;
      [|discriminate].
    intros H. inversion H; subst s2 len2. clear H.
    destruct (set_weight_term_weights _ _ _ Ew)
      as (kids & Hk & Hk' & Hp & _).
    cbn [protocol_of params feats aatype bkg_feats with_background opt].
    repeat split; try assumption; try discriminate.
    intros _. exists b, kids. repeat split; assumption.
  - intros H. inversion H; subst. repeat split; discriminate.
Qed.

(** [prep_inputs] is its two blocks followed by [restart]. *)
Lemma prep_inputs_stages s len (a : PrepArgs Coords) s' L :
  prep_inputs PRNGKey np_get_6D bkg_model s len a = Some (s', L) ->
  exists s1 len1 s2,
    prep_target np_get_6D s len a = Some (s1, len1) /\
    prep_background PRNGKey bkg_model s1 len1 a = Some (s2, Some L) /\
    restart PRNGKey s2 (Some L) (seed_arg a) (drawn_seed a) (opt_arg a)
            (weights_arg a) = Some s'.
Proof.
  unfold prep_inputs. intros H.
  destruct (prep_target np_get_6D s len a) as [[s1 len1]|] eqn:E1;
    [|discriminate].
  destruct (prep_background PRNGKey bkg_model s1 len1 a) as [[s2 len2]|]
    eqn:E2; [|discriminate].
  destruct (restart PRNGKey s2 len2 _ _ _ _) as [s3|] eqn:Er; [|discriminate].
  destruct len2 as [L2|]; [|discriminate].
  inversion H; subst. exists s1, len1, s2. repeat split; assumption.
Qed.

(** X18: in a session whose weights were empty, [prep_inputs] installs for
    each term of the protocol the channel weights 1/6, 1/6, 2/6, 2/6, and
    caches the features that term needs; [_get_loss] then returns for every
    prediction that can be combined with the cached features, and raises
    for the others; its loss is the sum over the protocol's terms of that
    weighted average of the four channels. *)
Theorem prepared_loss_is_weighted_average s len (a : PrepArgs Coords) s' L
    (out : Geom tensor3) :
  prep_inputs PRNGKey np_get_6D bkg_model s len a = Some (s', L) ->
  weights (opt s) = Dict [] -> opt_arg a = None -> weights_arg a = None ->
  (loss_shapes_fit (protocol_of s') (feats s') (bkg_feats s') out (opt s')
     = false ->
   get_loss (protocol_of s') (feats s') (bkg_feats s') out (opt s') = None) /\
  (loss_shapes_fit (protocol_of s') (feats s') (bkg_feats s') out (opt s')
     = true ->
   exists l ax,
     get_loss (protocol_of s') (feats s') (bkg_feats s') out (opt s')
       = Some (l, ax) /\
     l = ((if uses_bkg (protocol_of s') then channel_mix (losses ax) "bkg"
           else 0) +
          (if uses_cce (protocol_of s') then channel_mix (losses ax) "cce"
           else 0))).
Proof.
  intros Hprep Hw Ho Hwa.
  destruct (prep_inputs_stages _ _ _ Hprep) as (s1 & len1 & s2 & H1 & H2 & H3).
  rewrite Ho, Hwa in H3.
  destruct (restart_params _ _ _ _ _ _ H3)
    as (_ & _ & _ & _ & Hopt & Hproto & _ & Hf & Hb).
  assert (Hws : weights (opt s') = weights (opt s2)) by now rewrite Hopt.
  assert (Hps : pos (opt s') = pos (opt s2)) by now rewrite Hopt.
  destruct (prep_target_result _ _ _ H1) as (P1 & _ & B1 & T0 & T1).
  destruct (prep_background_result _ _ _ H2)
    as (P2 & _ & F2 & _ & _ & G0 & G1).
  rewrite P1 in P2, G0, G1. rewrite Hproto, P2. rewrite Hf, Hb.
  unfold get_loss, loss_terms, loss_shapes_fit. rewrite Hws.
  destruct (protocol_of s) eqn:Ep;
    cbn [uses_cce uses_bkg is_partial] in *.
  - destruct (T1 eq_refl) as (b0 & b & q & kids & _ & Hq & _ & _ & Hk & Hk' & _).
    destruct (G0 eq_refl) as [-> _]. rewrite Hq.
    rewrite Hw in Hk. inversion Hk; subst kids. rewrite Hk'.
    cbn [andb]. destruct (geoms_fit q _); split; try discriminate;
      try reflexivity.
    intros _. eexists. eexists. split; [reflexivity|].
    unfold channel_mix. cbn. lra.
  - destruct (T0 eq_refl) as [-> _].
    destruct (G1 eq_refl) as (b & kids & Hbk & _ & Hk & Hk').
    rewrite Hbk. rewrite Hw in Hk. inversion Hk; subst kids. rewrite Hk'.
    rewrite andb_true_r.
    destruct (geoms_fit out b); split; try discriminate; try reflexivity.
    intros _. eexists. eexists. split; [reflexivity|].
    unfold channel_mix. cbn. lra.
  - destruct (T1 eq_refl) as (b0 & b & q & kids & _ & Hq & _ & _ & Hk & Hk' & _).
    destruct (G1 eq_refl) as (bg & kids2 & Hbk & _ & Hk2 & Hk2').
    rewrite F2, Hq, Hbk.
    rewrite Hw in Hk. inversion Hk; subst kids.
    rewrite Hk' in Hk2. inversion Hk2; subst kids2. rewrite Hk2'.
    destruct (geoms_fit out bg); cbn [andb];
      [|split; [reflexivity|discriminate]].
    destruct (geoms_fit q _); split; try discriminate; try reflexivity.
    intros _. eexists. eexists. split; [reflexivity|].
    unfold channel_mix. cbn. lra.
Qed.

Lemma nth_error_seq0 n k : (k < n)%nat -> nth_error (seq 0 n) k = Some k.
Proof.
  intros H. rewrite nth_error_seq. destruct (Nat.ltb_spec k n); [|lia].
  reflexivity.
Qed.

(** X19: in partial mode [prep_inputs] with positions [p] and a length
    keeps the reference residues at [p], configures the positions
    [0 .. len(p)) and starts from logits of [length] rows; every later
    evaluation of logits with that many rows, at least [len(p)], and 20
    columns shows in the first [len(p)] rows of the pseudo-sequence the
    one-hot of those reference residues and in all the rows after them what
    the logits give. *)
Theorem prepared_partial_rows s len (a : PrepArgs Coords) s' L b0 p n :
  prep_inputs PRNGKey np_get_6D bkg_model s len a = Some (s', L) ->
  protocol_of s = partial -> pdb a = Some b0 -> pos_arg a = Some p ->
  length_arg a = Some n -> opt_arg a = None ->
  L = n /\ take p (b_aatype b0) = Some (aatype s') /\
  pos (opt s') = Some (seq 0 (length p)) /\
  leaf_at ["seq"] (params s') = Some (repeat (repeat 0 20) n) /\
  forall x : matrix, length x = n -> (length p <= n)%nat ->
    Forall (fun r => length r = 20%nat) x ->
    exists v,
      get_seq partial (aatype s') (Dict [("seq", Leaf x)]) (opt s')
        = Some v /\
      (forall k r, nth_error (aatype s') k = Some r ->
         nth_error (pseudo v) k = Some (one_hot 20 r)) /\
      (forall i, (length p <= i)%nat ->
         nth_error (pseudo v) i = nth_error (pseudo (relax x (opt s'))) i).
Proof.
  intros Hprep Hpart Hpdb Hpos Hlen Ho.
  destruct (prep_inputs_stages _ _ _ Hprep) as (s1 & len1 & s2 & H1 & H2 & H3).
  rewrite Ho in H3.
  destruct (restart_params _ _ _ _ _ _ H3)
    as (L' & HL & Hseq & _ & Hopt & _ & Haa & _).
  inversion HL; subst L'.
  assert (Hps : pos (opt s') = pos (opt s2)).
  { rewrite Hopt. unfold set_weights. reflexivity. }
  destruct (prep_target_result _ _ _ H1) as (P1 & _ & _ & _ & T1).
  destruct (prep_background_result _ _ _ H2)
    as (_ & _ & _ & A2 & Q2 & _ & G1).
  rewrite Hpart in T1. rewrite P1, Hpart in G1.
  destruct (T1 eq_refl)
    as (b0' & b & q & kids & Hb0 & _ & Hab & _ & _ & _ & Hc).
  rewrite Hpdb in Hb0. inversion Hb0; subst b0'.
  cbn [is_partial] in Hc. rewrite Hpos in Hc. destruct Hc as [Htake Hp1].
  destruct (G1 eq_refl) as (bg & kids2 & _ & Hl2 & _).
  rewrite Hlen in Hl2. inversion Hl2; subst n.
  assert (Haat : aatype s' = b_aatype b) by congruence.
  assert (Hlp : length (aatype s') = length p).
  { rewrite Haat. unfold take in Htake.
    now rewrite (mapM_length _ _ Htake). }
  split; [reflexivity|]. split; [now rewrite Haat|].
  split; [congruence|]. split; [exact Hseq|].
  intros x Hx Hle Hwide.
  assert (Hpv : pos (opt s') = Some (seq 0 (length p))) by congruence.
  assert (Hls : length (aatype s') = length (seq 0 (length p)))
    by now rewrite length_seq.
  rewrite (@get_seq_written (aatype s') (Dict [("seq", Leaf x)]) (opt s') x
             (seq 0 (length p)) eq_refl Hwide Hpv Hls).
  eexists. split; [reflexivity|].
  cbn [pseudo]. split.
  - intros k r Hr.
    assert (Hk : (k < length p)%nat).
    { rewrite <- Hlp. apply nth_error_Some. congruence. }
    apply (write_rows_selected _ _ k (seq_NoDup (length p) 0)).
    + intros j Hj. apply in_seq in Hj. rewrite relax_rows.
      cbn [pseudo]. rewrite length_map. lia.
    + now apply nth_error_seq0.
    + now rewrite nth_error_map, Hr.
  - intros i Hi. apply write_rows_untouched.
    intros Hin. apply in_seq in Hin. lia.
Qed.

End SetupFacts.

(** ** Set-up of the example sessions *)

Section SetupRuns.

Import GeometryBinner PyTree Arrays SequenceRelaxer LossComposer.
Import DesignSession Setup Examples SetupExamples.
Local Open Scope string_scope.

Lemma restart_starts_from_first_residue_witness :
  exists s' v,
    restart toy_key (toy_session 1 false) (Some 3%nat) None 5%Z None None
      = Some s' /\
    get_seq (protocol_of s') (aatype s') (params s') (opt s') = Some v /\
    pseudo v = repeat (one_hot 20 0) 3.
Proof.
  edestruct (@restart_starts_from_first_residue toy_jax toy_key
               (toy_session 1 false) (Some 3%nat) None 5%Z None None)
    as (L & v & HL & Hv & _ & _ & Hp).
  - reflexivity.
  - left. reflexivity.
  - reflexivity.
  - reflexivity.
  - inversion HL; subst L. eexists. exists v.
    split; [reflexivity|]. split; [exact Hv|exact Hp].
Defined.

Lemma prepared_loss_is_weighted_average_witness :
  exists s' L l ax,
    prep_inputs toy_key toy_6D toy_bkg (fresh_session partial) None
      (prep_args (Some three_residues) (Some 4%nat) (Some [0; 2]%nat))
      = Some (s', L) /\
    get_loss (protocol_of s') (feats s') (bkg_feats s') (flat_pairs 4)
             (opt s')
      = Some (l, ax).
Proof.
  edestruct (@prepared_loss_is_weighted_average toy_jax unit toy_key toy_6D
               toy_bkg (fresh_session partial) None
               (prep_args (Some three_residues) (Some 4%nat)
                          (Some [0; 2]%nat)))
    with (out := flat_pairs 4) as (_ & Hfit).
  - reflexivity.
  - reflexivity.
  - reflexivity.
  - reflexivity.
  - destruct (Hfit eq_refl) as (l & ax & Hl & _).
    do 2 eexists. exists l, ax. split; [reflexivity|exact Hl].
Defined.

Lemma prepared_partial_rows_witness :
  exists s',
    prep_inputs toy_key toy_6D toy_bkg (fresh_session partial) None
      (prep_args (Some three_residues) (Some 4%nat) (Some [0; 2]%nat))
      = Some (s', 4%nat) /\
    pos (opt s') = Some [0; 1]%nat /\ aatype s' = [3; 20]%nat.
Proof.
  edestruct (@prepared_partial_rows toy_jax unit toy_key toy_6D toy_bkg
               (fresh_session partial) None
               (prep_args (Some three_residues) (Some 4%nat)
                          (Some [0; 2]%nat)))
    as (HL & Ht & Hp & _).
  - reflexivity.
  - reflexivity.
  - reflexivity.
  - reflexivity.
  - reflexivity.
  - reflexivity.
  - eexists. split; [reflexivity|]. split; [exact Hp|].
    cbv in Ht. now inversion Ht.
Defined.

End SetupRuns.

(** ** The loss and its breakdown; the session as a callback *)

Section Accounting.

Import GeometryBinner PyTree Arrays SequenceRelaxer LossComposer.
Import DesignSession ChannelNames Breakdown Callback.
Local Open Scope R_scope.
Local Open Scope string_scope.

Context {J : Jax}.

Lemma map_kids_cons {A B : Type}
    (rec : pytree A -> list (pytree A) -> option (pytree B)) rkids k t d :
  map_kids rec rkids ((k, t) :: d) =
  match mapM (lookup k) rkids with
  | None => None
  | Some subs =>
      match rec t subs, map_kids rec rkids d with
      | Some r, Some rs => Some ((k, r) :: rs)
      | _, _ => None
      end
  end.
Proof. reflexivity. Qed.

Lemma tree_map_n_times_leaf a w :
  tree_map_n times (Leaf a) [w] =
  match w with
  | Leaf x => Some (Leaf (a * x))
  | Dict _ => None
  end.
Proof. destruct w; reflexivity. Qed.

Lemma forallb_map_true {X Y : Type} (h : X -> Y) (p : Y -> bool) xs :
  (forall x, p (h x) = true) -> forallb p (map h xs) = true.
Proof.
  intros H. induction xs as [|x xs IH]; simpl; [reflexivity|].
  now rewrite H, IH.
Qed.

Lemma mapM_map_some {X Y Z : Type} (h : X -> Y) (g : Y -> option Z)
    (k : X -> Z) xs :
  (forall x, g (h x) = Some (k x)) -> mapM g (map h xs) = Some (map k xs).
Proof.
  intros H. rewrite mapM_map, <- mapM_total. now apply mapM_ext.
Qed.

(** The terms computed for one prediction have the shape of the breakdown. *)
Lemma loss_terms_breakdown proto feats bkg o :
  exists F : Geom tensor3 -> string -> channel -> R,
    forall out t, loss_terms proto feats bkg out o = Some t ->
                  t = breakdown proto (F out).
Proof.
  exists (fun out k c =>
            if String.eqb k "bkg" then
              match bkg with
              | Some b => bkg_term (chan c out) (chan c b)
              | None => 0
              end
            else
              match feats with
              | Some q =>
                  cce_term (chan c q)
                    (chan c
                       match is_partial proto, pos o with
                       | true, Some p =>
                           geom_map (submatrix p)
                             (geom_map (t3_map log_softmax) out)
                       | _, _ => geom_map (t3_map log_softmax) out
                       end)
              | None => 0
              end).
  intros out t H. unfold loss_terms in H.
  destruct proto; cbn [uses_bkg uses_cce is_partial] in H.
  - destruct feats as [q|]; [|discriminate].
    destruct (geoms_fit q _); [|discriminate]. inversion H. reflexivity.
  - destruct bkg as [b|]; [|discriminate].
    destruct (geoms_fit out b); [|discriminate]. inversion H. reflexivity.
  - destruct bkg as [b|]; [|discriminate].
    destruct (geoms_fit out b); [|discriminate].
    destruct feats as [q|]; [|discriminate].
    destruct (geoms_fit q _); [|discriminate].
    inversion H. reflexivity.
Qed.

(** The weights that let the four channels of one term be weighted are a
    dictionary with a leaf for each of the four channels. *)
Lemma weighted_per_channel f wk v :
  weighted_total (per_channel f) wk = Some v ->
  exists W : channel -> R,
    (forall c, leaf_at [chan_name c] wk = Some (W c)) /\
    forall f', tree_map_n times (per_channel f') [wk] =
               Some (per_channel (fun c => f' c * W c)).
Proof.
  unfold weighted_total. intros H.
  destruct (tree_map_n times (per_channel f) [wk]) as [r|] eqn:E;
    [clear H|discriminate].
  unfold per_channel in E. cbn [tree_map_n mapM] in E.
  destruct wk as [x|ck]; cbn [as_dict forallb] in E; [discriminate|].
  destruct (same_keys _ ck) eqn:Es; [|discriminate].
  cbn [andb] in E. rewrite !map_kids_cons in E. cbn [mapM] in E.
  destruct (lookup "dist" ck) as [[wd|]|] eqn:Ld; try discriminate.
  destruct (lookup "omega" ck) as [[wo|]|] eqn:Lo; try discriminate.
  destruct (lookup "theta" ck) as [[wt|]|] eqn:Lt; try discriminate.
  destruct (lookup "phi" ck) as [[wp|]|] eqn:Lp; try discriminate.
  clear E.
  exists (fun c => match c with
                   | Dist => wd | Omega => wo | Theta => wt | Phi => wp
                   end).
  split.
  - intros c. rewrite leaf_at_cons.
    destruct c; cbn [chan_name]; rewrite ?Ld, ?Lo, ?Lt, ?Lp; reflexivity.
  - intros f'. unfold per_channel. cbn [tree_map_n mapM as_dict forallb].
    unfold same_keys, keys in *. cbn [length map fst] in *. rewrite Es.
    cbn [andb]. rewrite !map_kids_cons. cbn [mapM].
    rewrite Ld, Lo, Lt, Lp. reflexivity.
Qed.

Lemma weighted_term k wkids wk f v :
  lookup k wkids = Some wk ->
  weighted_total (per_channel f) wk = Some v ->
  forall g' : string -> channel -> R,
    tree_map_n times (per_channel (g' k)) [wk] =
    Some (per_channel (fun c => g' k c * weight_at (Dict wkids) k c)).
Proof.
  intros Hl Hv g'.
  destruct (weighted_per_channel _ _ Hv) as (W & HW & Hf).
  rewrite Hf. unfold per_channel, weight_at.
  rewrite !leaf_at_cons, Hl, (HW Dist), (HW Omega), (HW Theta), (HW Phi).
  reflexivity.
Qed.

Lemma term_total_leaves g W k :
  fold_left Rplus (tree_leaves (per_channel (fun c => g k c * W k c))) 0 =
  term_total g W k.
Proof. reflexivity. Qed.

(** When the weights fit one breakdown they fit every breakdown of the
    protocol, term by term and as a whole. *)
Lemma weighted_breakdown proto g ws L :
  weighted_total (breakdown proto g) ws = Some L ->
  exists wkids, ws = Dict wkids /\
    (forall k, In k (terms proto) ->
       exists wk, lookup k wkids = Some wk /\
         forall g', weighted_total (per_channel (g' k)) wk =
                    Some (term_total g' (weight_at ws) k)) /\
    forall g', weighted_total (breakdown proto g') ws =
               Some (grand_total proto g' (weight_at ws)).
Proof.
  unfold weighted_total at 1. intros H.
  destruct (tree_map_n times (breakdown proto g) [ws]) as [r|] eqn:E;
    [clear H|discriminate].
  unfold breakdown in E. cbn [tree_map_n mapM] in E.
  destruct ws as [x|wkids]; cbn [as_dict forallb] in E; [discriminate|].
  exists wkids. split; [reflexivity|].
  destruct (same_keys _ wkids) eqn:Es; [|discriminate]. cbn [andb] in E.
  assert (Hterm : forall k f, lookup k wkids = Some f ->
            forall r0, tree_map_n times (per_channel (g k)) [f] = Some r0 ->
            forall g', weighted_total (per_channel (g' k)) f =
                       Some (term_total g' (weight_at (Dict wkids)) k)).
  { intros k f Hl r0 Hr0 g'.
    assert (Hv : weighted_total (per_channel (g k)) f =
                 Some (fold_left Rplus (tree_leaves r0) 0))
      by (unfold weighted_total; now rewrite Hr0).
    unfold weighted_total. rewrite (@weighted_term _ _ _ _ _ Hl Hv g').
    now rewrite term_total_leaves. }
  assert (Hwhole : forall k f, lookup k wkids = Some f ->
            forall r0, tree_map_n times (per_channel (g k)) [f] = Some r0 ->
            forall g' : string -> channel -> R,
              tree_map_n times (per_channel (g' k)) [f] =
              Some (per_channel
                      (fun c => g' k c * weight_at (Dict wkids) k c))).
  { intros k f Hl r0 Hr0 g'.
    assert (Hv : weighted_total (per_channel (g k)) f =
                 Some (fold_left Rplus (tree_leaves r0) 0))
      by (unfold weighted_total; now rewrite Hr0).
    exact (@weighted_term _ _ _ _ _ Hl Hv g'). }
  destruct proto; cbn [terms uses_bkg uses_cce app map] in *;
    rewrite !map_kids_cons in E; cbn [mapM] in E.
  - destruct (lookup "cce" wkids) as [wc|] eqn:Lc; [|discriminate].
    destruct (tree_map_n times (per_channel (g "cce")) [wc]) as [rc|] eqn:Ec;
      [|discriminate].
    split.
    + intros k [<-|[]]. exists wc. split; [exact Lc|].
      exact (Hterm _ _ Lc _ Ec).
    + intros g'. unfold weighted_total, breakdown, grand_total.
      cbn [tree_map_n mapM as_dict forallb terms uses_bkg uses_cce app map].
      unfold same_keys, keys in *. cbn [length map fst] in *. rewrite Es.
      cbn [andb]. rewrite !map_kids_cons. cbn [mapM]. rewrite Lc.
      rewrite (Hwhole _ _ Lc _ Ec g'). reflexivity.
  - destruct (lookup "bkg" wkids) as [wb|] eqn:Lb; [|discriminate].
    destruct (tree_map_n times (per_channel (g "bkg")) [wb]) as [rb|] eqn:Eb;
      [|discriminate].
    split.
    + intros k [<-|[]]. exists wb. split; [exact Lb|].
      exact (Hterm _ _ Lb _ Eb).
    + intros g'. unfold weighted_total, breakdown, grand_total.
      cbn [tree_map_n mapM as_dict forallb terms uses_bkg uses_cce app map].
      unfold same_keys, keys in *. cbn [length map fst] in *. rewrite Es.
      cbn [andb]. rewrite !map_kids_cons. cbn [mapM]. rewrite Lb.
      rewrite (Hwhole _ _ Lb _ Eb g'). reflexivity.
  - destruct (lookup "bkg" wkids) as [wb|] eqn:Lb; [|discriminate].
    destruct (tree_map_n times (per_channel (g "bkg")) [wb]) as [rb|] eqn:Eb;
      [|discriminate].
    destruct (lookup "cce" wkids) as [wc|] eqn:Lc; [|discriminate].
    destruct (tree_map_n times (per_channel (g "cce")) [wc]) as [rc|] eqn:Ec;
      [|discriminate].
    split.
    + intros k [<-|[<-|[]]].
      * exists wb. split; [exact Lb|]. exact (Hterm _ _ Lb _ Eb).
      * exists wc. split; [exact Lc|]. exact (Hterm _ _ Lc _ Ec).
    + intros g'. unfold weighted_total, breakdown, grand_total.
      cbn [tree_map_n mapM as_dict forallb terms uses_bkg uses_cce app map].
      unfold same_keys, keys in *. cbn [length map fst] in *. rewrite Es.
      cbn [andb]. rewrite !map_kids_cons. cbn [mapM]. rewrite Lb, Lc.
      rewrite (Hwhole _ _ Lb _ Eb g'), (Hwhole _ _ Lc _ Ec g'). reflexivity.
Qed.

Lemma breakdown_leaf proto g k c :
  In k (terms proto) ->
  leaf_at [k; chan_name c] (breakdown proto g) = Some (g k c).
Proof.
  intros Hk.
  destruct proto; cbn [terms uses_bkg uses_cce app] in Hk;
    repeat (destruct Hk as [<-|Hk]); try contradiction;
    destruct c; reflexivity.
Qed.

(** C6, as stated, fails: with the four target-matching losses and a weights
    mapping that has no entry for them, or that lacks one channel, the
    weighted total is not a sum in which the unweighted losses count for
    zero: [jax.tree_map] raises on dictionaries whose keys differ, and so
    does [_get_loss], which returns for the same prediction once every
    channel has its weight. *)
Lemma C6_missing_weight_raises :
  let ls := Dict [("cce", per_channel (fun _ => 1))] in
  weighted_total ls (Dict []) = None /\
  weighted_total ls
    (Dict [("cce", Dict [("dist", Leaf 1); ("omega", Leaf 1);
                         ("theta", Leaf 1)])]) = None /\
  get_loss fixbb (Some Examples.first_bin) None Examples.flat_geom
           (mkOptions 1 1 1 1 false (Dict []) None) = None /\
  exists r,
    get_loss fixbb (Some Examples.first_bin) None Examples.flat_geom
             (mkOptions 1 1 1 1 false Examples.unit_weights None) = Some r.
Proof.
  split; [reflexivity|]. split; [reflexivity|]. split; [reflexivity|].
  eexists. reflexivity.
Qed.

(** C6 (amended): when [_get_loss] returns, the breakdown holds one loss
    for every term of the protocol and every channel, the weights mapping
    holds a weight under the same term and channel, and the scalar loss is
    the sum, over the terms and the channels, of the loss times that
    weight: nothing is added and nothing is left out.  Every loss must have
    its weight: a loss term or channel without an entry in the weights
    mapping makes the call raise instead of counting for zero.  With the
    four channel weights of one term the total is defined. *)
Theorem C6_weights_must_match proto feats bkg out o :
  (forall l ax, get_loss proto feats bkg out o = Some (l, ax) ->
     exists g : string -> channel -> R,
       losses ax = breakdown proto g /\
       (forall k c, In k (terms proto) ->
          leaf_at [k; chan_name c] (losses ax) = Some (g k c) /\
          leaf_at [k; chan_name c] (weights o) =
          Some (weight_at (weights o) k c)) /\
       l = grand_total proto g (weight_at (weights o))) /\
  (forall (ls ws : pytree R) p l,
     leaf_at p ls = Some l -> leaf_at p ws = None ->
     weighted_total ls ws = None) /\
  (forall k c, In k (terms proto) ->
     leaf_at [k; chan_name c] (weights o) = None ->
     get_loss proto feats bkg out o = None) /\
  (forall f w,
     weighted_total (Dict [("cce", per_channel f)])
                    (Dict [("cce", per_channel w)]) =
     Some (0 + f Dist * w Dist + f Omega * w Omega
           + f Theta * w Theta + f Phi * w Phi)).
Proof.
  assert (Hret : forall l ax, get_loss proto feats bkg out o = Some (l, ax) ->
    exists g : string -> channel -> R,
      losses ax = breakdown proto g /\
      (forall k c, In k (terms proto) ->
         leaf_at [k; chan_name c] (losses ax) = Some (g k c) /\
         leaf_at [k; chan_name c] (weights o) =
         Some (weight_at (weights o) k c)) /\
      l = grand_total proto g (weight_at (weights o))).
  { intros l ax H. unfold get_loss in H.
    destruct (loss_terms proto feats bkg out o) as [t|] eqn:Et;
      [|discriminate].
    destruct (weighted_total t (weights o)) as [v|] eqn:Ew; [|discriminate].
    inversion H; subst l ax. clear H. cbn [losses].
    destruct (loss_terms_breakdown proto feats bkg o) as [F HF].
    rewrite (HF out t Et) in *. exists (F out).
    destruct (@weighted_breakdown proto (F out) (weights o) v Ew)
      as (wkids & Hws & Hterms & Hall).
    split; [reflexivity|]. split.
    - intros k c Hk. split; [now apply breakdown_leaf|].
      destruct (Hterms k Hk) as (wk & Hlk & Hwk).
      destruct (@weighted_per_channel (F out k) wk _ (Hwk (F out)))
        as (W & HW & _).
      unfold weight_at. rewrite Hws, leaf_at_cons, Hlk, (HW c).
      reflexivity.
    - specialize (Hall (F out)). rewrite Ew in Hall. now inversion Hall. }
  split; [exact Hret|]. split; [|split].
  - intros ls ws p l Hl Hw. unfold weighted_total.
    destruct (tree_map_n times ls [ws]) as [weighted|] eqn:E; [|reflexivity].
    destruct (tree_map_n_leafwise times ls [ws] E p) as [_ Hsome].
    destruct (Hsome l Hl) as (bs & b & Hbs & _).
    cbn [mapM] in Hbs. rewrite Hw in Hbs. discriminate.
  - intros k c Hk Hnone.
    destruct (get_loss proto feats bkg out o) as [[l ax]|] eqn:E;
      [|reflexivity].
    destruct (Hret l ax eq_refl) as (g & _ & Hleaves & _).
    destruct (Hleaves k c Hk) as [_ Hw]. congruence.
  - intros f w. reflexivity.
Qed.

(** The mean of dictionaries of channels, leaf by leaf. *)
Lemma mean_per_channel {X : Type} (f0 : channel -> R)
    (h : X -> channel -> R) (xs : list X) :
  tree_map_n stack_mean (per_channel f0)
    (map (fun x => per_channel (h x)) xs) =
  Some (per_channel (fun c => rmean (f0 c :: map (fun x => h x c) xs))).
Proof.
  unfold per_channel at 1. cbn [tree_map_n].
  rewrite (@mapM_map_some _ _ _ (fun x => per_channel (h x)) as_dict
             (fun x => [("dist", Leaf (h x Dist)); ("omega", Leaf (h x Omega));
                        ("theta", Leaf (h x Theta)); ("phi", Leaf (h x Phi))]))
    by reflexivity.
  rewrite forallb_map_true by reflexivity.
  rewrite !map_kids_cons.
  rewrite (@mapM_map_some _ _ _ _ (lookup "dist")
             (fun x => Leaf (h x Dist))) by reflexivity.
  rewrite (@mapM_map_some _ _ _ _ (lookup "omega")
             (fun x => Leaf (h x Omega))) by reflexivity.
  rewrite (@mapM_map_some _ _ _ _ (lookup "theta")
             (fun x => Leaf (h x Theta))) by reflexivity.
  rewrite (@mapM_map_some _ _ _ _ (lookup "phi")
             (fun x => Leaf (h x Phi))) by reflexivity.
  cbn [tree_map_n].
  rewrite (@mapM_map_some _ _ _ (fun x => Leaf (h x Dist)) as_leaf
             (fun x => h x Dist)) by reflexivity.
  rewrite (@mapM_map_some _ _ _ (fun x => Leaf (h x Omega)) as_leaf
             (fun x => h x Omega)) by reflexivity.
  rewrite (@mapM_map_some _ _ _ (fun x => Leaf (h x Theta)) as_leaf
             (fun x => h x Theta)) by reflexivity.
  rewrite (@mapM_map_some _ _ _ (fun x => Leaf (h x Phi)) as_leaf
             (fun x => h x Phi)) by reflexivity.
  reflexivity.
Qed.

(** The mean of breakdowns is the breakdown of the means. *)
Lemma mean_breakdown {X : Type} proto (g0 : string -> channel -> R)
    (h : X -> string -> channel -> R) (xs : list X) :
  tree_map_n stack_mean (breakdown proto g0)
    (map (fun x => breakdown proto (h x)) xs) =
  Some (breakdown proto
          (fun k c => rmean (g0 k c :: map (fun x => h x k c) xs))).
Proof.
  unfold breakdown at 1. cbn [tree_map_n].
  rewrite (@mapM_map_some _ _ _ (fun x => breakdown proto (h x)) as_dict
             (fun x => map (fun k => (k, per_channel (h x k))) (terms proto)))
    by reflexivity.
  rewrite forallb_map_true by (intros x; now destruct proto).
  destruct proto; cbn [terms uses_bkg uses_cce app map];
    rewrite !map_kids_cons.
  - rewrite (@mapM_map_some _ _ _ _ (lookup "cce")
               (fun x => per_channel (h x "cce"))) by reflexivity.
    rewrite (mean_per_channel (g0 "cce") (fun x => h x "cce")).
    reflexivity.
  - rewrite (@mapM_map_some _ _ _ _ (lookup "bkg")
               (fun x => per_channel (h x "bkg"))) by reflexivity.
    rewrite (mean_per_channel (g0 "bkg") (fun x => h x "bkg")).
    reflexivity.
  - rewrite (@mapM_map_some _ _ _ _ (lookup "bkg")
               (fun x => per_channel (h x "bkg"))) by reflexivity.
    rewrite (@mapM_map_some _ _ _ _ (lookup "cce")
               (fun x => per_channel (h x "cce"))) by reflexivity.
    rewrite (mean_per_channel (g0 "bkg") (fun x => h x "bkg")).
    rewrite (mean_per_channel (g0 "cce") (fun x => h x "cce")).
    reflexivity.
Qed.

Lemma rsum_grand_total {X : Type} proto W
    (G : X -> string -> channel -> R) (xs : list X) :
  rsum (map (fun x => grand_total proto (G x) W) xs) =
  grand_total proto (fun k c => rsum (map (fun x => G x k c) xs)) W.
Proof.
  induction xs as [|x xs IH].
  - destruct proto; unfold grand_total, rsum;
      cbn [terms uses_bkg uses_cce app flat_map map channels fold_left
           fold_right]; ring.
  - cbn [map]. unfold rsum at 1. cbn [fold_right]. fold (rsum
      (map (fun x0 => grand_total proto (G x0) W) xs)). rewrite IH.
    destruct proto; unfold grand_total, rsum;
      cbn [terms uses_bkg uses_cce app flat_map map channels fold_left
           fold_right]; ring.
Qed.

(** Weighting commutes with the mean over the instances. *)
Lemma rmean_grand_total {X : Type} proto W
    (G : X -> string -> channel -> R) (xs : list X) :
  rmean (map (fun x => grand_total proto (G x) W) xs) =
  grand_total proto (fun k c => rmean (map (fun x => G x k c) xs)) W.
Proof.
  unfold rmean at 1. rewrite rsum_grand_total, length_map.
  destruct proto; unfold grand_total, rmean;
    cbn [terms uses_bkg uses_cce app flat_map map channels fold_left];
    rewrite !length_map; unfold Rdiv; ring.
Qed.

Lemma fn_breakdown s ps mp o (F : Geom tensor3 -> string -> channel -> R)
    l ax :
  (forall out t,
     loss_terms (protocol_of s) (feats s) (bkg_feats s) out o = Some t ->
     t = breakdown (protocol_of s) (F out)) ->
  _fn s ps mp o = Some (l, ax) ->
  losses ax = breakdown (protocol_of s) (F (outputs ax)) /\
  weighted_total (breakdown (protocol_of s) (F (outputs ax))) (weights o) =
  Some l.
Proof.
  intros HF. unfold _fn, _model.
  destruct (get_seq (protocol_of s) (aatype s) ps o); [|discriminate].
  destruct (runner _ mp) as [out|]; [|discriminate].
  unfold get_loss.
  destruct (loss_terms _ _ _ out o) as [ls|] eqn:El; [|discriminate].
  destruct (weighted_total ls (weights o)) as [tot|] eqn:Ew; [|discriminate].
  intros H. inversion H; subst. cbn [losses outputs].
  rewrite <- (HF _ _ El). split; [reflexivity|exact Ew].
Qed.

Lemma instances_breakdown s bp
    (F : Geom tensor3 -> string -> channel -> R) :
  (forall out t,
     loss_terms (protocol_of s) (feats s) (bkg_feats s) out (opt s) = Some t ->
     t = breakdown (protocol_of s) (F out)) ->
  forall ns rs,
    mapM (instance s bp) ns = Some rs ->
    Forall (fun r =>
              losses (snd (fst r)) =
              breakdown (protocol_of s) (F (outputs (snd (fst r)))) /\
              weighted_total
                (breakdown (protocol_of s) (F (outputs (snd (fst r)))))
                (weights (opt s)) = Some (fst (fst r))) rs.
Proof.
  intros HF. induction ns as [|n ns IH]; intros rs H; simpl in H.
  - inversion H. constructor.
  - destruct (instance s bp n) as [r|] eqn:Er; [|discriminate].
    destruct (mapM (instance s bp) ns) as [rs'|]; [|discriminate].
    inversion H; subst rs. constructor; [|now apply IH].
    destruct (instance_value _ _ _ Er) as (mp & _ & Hfn & _).
    destruct r as [[l ax] gs]. cbn [fst snd] in *.
    exact (@fn_breakdown _ _ _ _ _ _ _ HF Hfn).
Qed.

(** When [run] returns, the breakdown it stores has the shape of the
    protocol, and the weights of the session weigh it to the loss it
    stores, whatever the number of instances. *)
Lemma run_returned_breakdown s a s' :
  run s a = (s', Returned) ->
  exists l ax g,
    _loss s' = Some l /\ _aux s' = Some ax /\
    losses ax = breakdown (protocol_of s') g /\
    weighted_total (breakdown (protocol_of s') g) (weights (opt s')) =
    Some l /\
    protocol_of s' = protocol_of s.
Proof.
  unfold run. pose proof (decide_frame (override s a)) as Hframe.
  destruct (decide (override s a)) as [s2 [ns|]] eqn:Ed; [|discriminate].
  cbn [fst] in Hframe. destruct Hframe as (_ & _ & Hproto & _).
  cbn [override with_settings protocol_of] in Hproto.
  destruct (mapM (instance s2 (backprop a)) ns) as [rs|] eqn:Ers;
    [|discriminate].
  destruct (average s2 (backprop a) (length ns) _ _ _) as [[[l ax] g]|]
    eqn:Eav; [|discriminate].
  intros H. inversion H; subst s'. clear H.
  cbn [with_results _loss _aux protocol_of opt record_instances].
  destruct (loss_terms_breakdown (protocol_of s2) (feats s2) (bkg_feats s2)
              (opt s2)) as [F HF].
  pose proof (@instances_breakdown _ _ _ HF ns _ Ers) as Hall.
  pose proof (mapM_length _ _ Ers) as Hlen.
  exists l. eexists.
  unfold average in Eav. destruct (Nat.ltb 1 (length ns)) eqn:Ek.
  - apply Nat.ltb_lt in Ek.
    destruct (aux_mean (map (fun r => snd (fst r)) rs)) as [am|] eqn:Eam;
      [|discriminate].
    assert (Hl : l = rmean (map (fun r => fst (fst r)) rs) /\ ax = am).
    { destruct (backprop a).
      - destruct (tree_mean (flat_map snd rs)); [|discriminate].
        inversion Eav. now split.
      - inversion Eav. now split. }
    destruct Hl as [-> ->]. clear Eav.
    unfold aux_mean in Eam.
    destruct (geom_mean _) as [om|]; [|discriminate].
    destruct (tree_mean (map losses (map (fun r => snd (fst r)) rs)))
      as [lm|] eqn:Elm; [|discriminate].
    inversion Eam; subst am. clear Eam. cbn [losses].
    destruct rs as [|r0 rest]; [simpl in Hlen; lia|].
    rewrite map_map in Elm.
    rewrite (@map_ext_in _ _ (fun r => losses (snd (fst r)))
               (fun r => breakdown (protocol_of s2)
                           (F (outputs (snd (fst r))))))
      in Elm
      by (intros r Hin; rewrite Forall_forall in Hall;
          exact (proj1 (Hall r Hin))).
    cbn [map tree_mean] in Elm.
    rewrite (mean_breakdown (protocol_of s2) (F (outputs (snd (fst r0))))
               (fun r => F (outputs (snd (fst r)))) rest) in Elm.
    inversion Elm; subst lm. clear Elm.
    eexists. split; [reflexivity|]. split; [reflexivity|].
    split; [reflexivity|]. split; [|exact Hproto].
    inversion Hall as [|? ? [_ H0] _]; subst.
    destruct (@weighted_breakdown _ _ _ _ H0) as (wkids & Hws & _ & Hany).
    rewrite Hany. f_equal.
    rewrite (@map_ext_in _ _ (fun r => fst (fst r))
               (fun r => grand_total (protocol_of s2)
                           (F (outputs (snd (fst r))))
                           (weight_at (weights (opt s2))))).
    + now rewrite rmean_grand_total.
    + intros r Hin. rewrite Forall_forall in Hall.
      destruct (Hall r Hin) as [_ Hr]. rewrite Hany in Hr.
      now inversion Hr.
  - destruct rs as [|r0 rest]; cbn [map] in Eav; [discriminate|].
    assert (Hl : l = fst (fst r0) /\ ax = snd (fst r0)).
    { destruct (backprop a).
      - destruct (flat_map snd (r0 :: rest)); [discriminate|].
        inversion Eav. now split.
      - inversion Eav. now split. }
    destruct Hl as [-> ->].
    inversion Hall as [|? ? [H1 H0] _]; subst.
    exists (F (outputs (snd (fst r0)))).
    split; [reflexivity|]. split; [reflexivity|].
    split; [exact H1|]. split; [exact H0|exact Hproto].
Qed.

(** X20: whenever [run] returns, the loss it stores is the weighted sum of
    the breakdown it stores under the weights of the session, exactly as
    [_get_loss] computes it for one instance: averaging the losses and
    averaging the breakdowns of several instances agree (in exact
    arithmetic). *)
Theorem run_loss_is_weighted_breakdown (s : Session) (a : RunArgs)
    (s' : Session) :
  run s a = (s', Returned) ->
  exists l ax,
    _loss s' = Some l /\ _aux s' = Some ax /\
    weighted_total (losses ax) (weights (opt s')) = Some l.
Proof.
  intros H.
  destruct (run_returned_breakdown _ _ H)
    as (l & ax & g & Hl & Hax & Hls & Hw & _).
  exists l, ax. rewrite Hls. repeat split; assumption.
Qed.

Lemma run_forward_grad s a s' :
  run s a = (s', Returned) -> backprop a = false ->
  _grad s' = Some (tree_map zeros_like (params s')).
Proof.
  unfold run. intros H Hbp. rewrite Hbp in H.
  destruct (decide (override s a)) as [s2 [ns|]]; [|discriminate].
  destruct (mapM (instance s2 false) ns) as [rs|]; [|discriminate].
  destruct (average s2 false (length ns) _ _ _) as [[[l ax] g]|] eqn:Eav;
    [|discriminate].
  inversion H; subst s'. cbn [with_results _grad params]. f_equal.
  unfold average in Eav. destruct (Nat.ltb 1 (length ns)).
  - destruct (aux_mean _); [|discriminate]. now inversion Eav.
  - destruct (map (fun r => fst (fst r)) rs); [discriminate|].
    destruct (map (fun r => snd (fst r)) rs); [discriminate|].
    now inversion Eav.
Qed.

Lemma add_grad_frame w s af af1 :
  add_grad w s af = Some af1 ->
  af_loss af1 = af_loss af /\ af_aux_losses af1 = af_aux_losses af.
Proof.
  unfold add_grad. destruct (_grad s) as [g|]; [|discriminate].
  destruct (leaf_at ["seq"] g) as [gm|]; [|discriminate].
  destruct (forallb (fun m => fits2 m gm) (af_grad_seq af));
    [|discriminate].
  intros H. inversion H. split; reflexivity.
Qed.

Lemma add_to_loss_frame w s af af1 :
  add_to_loss w s af = Some af1 ->
  af_grad_seq af1 = af_grad_seq af /\
  af_aux_losses af1 = af_aux_losses af /\
  exists l, _loss s = Some l /\ af_loss af1 = af_loss af + w * l.
Proof.
  unfold add_to_loss. destruct (_loss s) as [l|]; [|discriminate].
  intros H. inversion H. repeat split. now exists l.
Qed.

Lemma report_frame en name k s af af1 :
  report en name k s af = Some af1 ->
  af_loss af1 = af_loss af /\ af_grad_seq af1 = af_grad_seq af /\
  if en then
    exists v, term_loss s k = Some v /\
              af_aux_losses af1 = dict_set name v (af_aux_losses af)
  else af_aux_losses af1 = af_aux_losses af.
Proof.
  unfold report. destruct en.
  - destruct (term_loss s k) as [v|]; [|discriminate].
    intros H. inversion H. repeat split. now exists v.
  - intros H. inversion H. repeat split.
Qed.

(** The steps after [run] write the gradient of the optimizer only when
    the weight is positive, also when one of them raises. *)
Lemma after_run_keeps_grad w add s af :
  positive w = false ->
  af_grad_seq (fst (after_run w add s af)) = af_grad_seq af.
Proof.
  intros Hw. unfold after_run. rewrite Hw.
  destruct (if add then add_to_loss w s af else Some af) as [a2|] eqn:E2;
    [|reflexivity].
  assert (H2 : af_grad_seq a2 = af_grad_seq af).
  { destruct add; [|now inversion E2].
    now destruct (add_to_loss_frame _ _ _ E2). }
  destruct (report (uses_bkg (protocol_of s)) "TrD_bkg" "bkg" s a2)
    as [a3|] eqn:E3; [|exact H2].
  destruct (report_frame _ _ _ _ _ E3) as (_ & H3 & _).
  destruct (report (uses_cce (protocol_of s)) "TrD_cce" "cce" s a3)
    as [a4|] eqn:E4; cbn [fst]; [|congruence].
  destruct (report_frame _ _ _ _ _ E4) as (_ & H4 & _). congruence.
Qed.

(** X22: a callback made with a weight that is not positive never touches
    the gradient of the optimizer, whether it returns or raises, and the
    evaluation it triggers is forward only: when it returns, the gradient
    cached by the session is zero at every leaf of its parameters. *)
Theorem nonpositive_weight_is_forward_only (w : R) (add : bool)
    (s : Session) (af : AfModel) (s' : Session) (af' : AfModel)
    (r : outcome) :
  w <= 0 ->
  callback w add s af = (s', af', r) ->
  af_grad_seq af' = af_grad_seq af /\
  (r = Returned -> _grad s' = Some (tree_map zeros_like (params s'))).
Proof.
  intros Hw. assert (Hp : positive w = false).
  { unfold positive. destruct (Rlt_dec 0 w); [lra|reflexivity]. }
  unfold callback. rewrite Hp.
  destruct (af_seq af) as [|x xs].
  - intros H. inversion H. split; [reflexivity|discriminate].
  - destruct (run _ (callback_args x false)) as [s1 r1] eqn:Er.
    destruct r1.
    + pose proof (after_run_keeps_grad w add s1 af Hp) as Hg.
      destruct (after_run w add s1 af) as [a1 r2]. cbn [fst] in Hg.
      intros H. inversion H; subst. split; [exact Hg|]. intros _.
      exact (run_forward_grad _ _ Er eq_refl).
    + intros H. inversion H. split; [reflexivity|discriminate].
Qed.

Lemma term_loss_value s ax g l k :
  _aux s = Some ax -> losses ax = breakdown (protocol_of s) g ->
  weighted_total (breakdown (protocol_of s) g) (weights (opt s)) = Some l ->
  In k (terms (protocol_of s)) ->
  term_loss s k = Some (term_total g (weight_at (weights (opt s))) k).
Proof.
  intros Hax Hls Hw Hin.
  destruct (@weighted_breakdown _ _ _ _ Hw) as (wkids & Hws & Hterms & _).
  destruct (Hterms k Hin) as (wk & Hlk & Hv).
  assert (Hk : lookup k (map (fun k0 => (k0, per_channel (g k0)))
                           (terms (protocol_of s))) =
               Some (per_channel (g k))).
  { destruct (protocol_of s); cbn [terms uses_bkg uses_cce app] in *.
    - destruct Hin as [<-|[]]. reflexivity.
    - destruct Hin as [<-|[]]. reflexivity.
    - destruct Hin as [<-|[<-|[]]]; reflexivity. }
  unfold term_loss. rewrite Hax, Hls. unfold breakdown. cbn [as_dict].
  rewrite Hk. specialize (Hv g). rewrite Hws in *. cbn [as_dict].
  rewrite Hlk. exact Hv.
Qed.

(** X21: when the callback returns, the terms it reports to the optimizer
    under "TrD_bkg" and "TrD_cce" (those of the protocol) add up to the
    loss that the session has stored, and this loss, times the weight, is
    what has been added to the loss of the optimizer when [add_loss] is
    set; otherwise the loss of the optimizer is as it was. *)
Theorem callback_reports_add_up (w : R) (add : bool) (s : Session)
    (af : AfModel) (s' : Session) (af' : AfModel) :
  callback w add s af = (s', af', Returned) ->
  exists l parts,
    _loss s' = Some l /\
    af_loss af' = (if add then af_loss af + w * l else af_loss af) /\
    mapM (fun k => lookup ("TrD_" ++ k) (af_aux_losses af'))
         (terms (protocol_of s)) = Some parts /\
    fold_left Rplus parts 0 = l.
Proof.
  unfold callback. destruct (af_seq af) as [|x xs]; [discriminate|].
  destruct (run _ (callback_args x (positive w))) as [s1 r1] eqn:Er.
  destruct r1; [|discriminate].
  destruct (after_run w add s1 af) as [a r2] eqn:Ea.
  intros H. inversion H; subst. clear H.
  destruct (run_returned_breakdown _ _ Er)
    as (l & ax & g & Hl & Hax & Hls & Hw & Hp).
  cbn [with_settings protocol_of] in Hp. rewrite <- Hp.
  pose proof (@term_loss_value s' ax g l) as Hterm.
  specialize (fun k => Hterm k Hax Hls Hw).
  destruct (@weighted_breakdown _ _ _ _ Hw) as (wkids & _ & _ & Hany).
  specialize (Hany g). rewrite Hw in Hany. inversion Hany as [Hlg].
  clear Hany. exists l.
  unfold after_run in Ea.
  destruct (if positive w then add_grad w s' af else Some af) as [a1|]
    eqn:E1; [|discriminate].
  assert (F1 : af_loss a1 = af_loss af /\
               af_aux_losses a1 = af_aux_losses af).
  { destruct (positive w); [exact (add_grad_frame _ _ _ E1)|].
    inversion E1. now split. }
  destruct (if add then add_to_loss w s' a1 else Some a1) as [a2|] eqn:E2;
    [|discriminate].
  assert (F2 : af_loss a2 = (if add then af_loss af + w * l
                             else af_loss af) /\
               af_aux_losses a2 = af_aux_losses af).
  { destruct F1 as [F1l F1a]. destruct add.
    - destruct (add_to_loss_frame _ _ _ E2) as (_ & Hx & l' & Hl' & Hv).
      rewrite Hl in Hl'. inversion Hl'; subst l'. split; congruence.
    - inversion E2; subst a2. now split. }
  destruct F2 as [F2l F2a].
  destruct (report (uses_bkg (protocol_of s')) "TrD_bkg" "bkg" s' a2)
    as [a3|] eqn:E3; [|discriminate].
  destruct (report (uses_cce (protocol_of s')) "TrD_cce" "cce" s' a3)
    as [a4|] eqn:E4; [|discriminate].
  inversion Ea; subst a4. clear Ea.
  destruct (report_frame _ _ _ _ _ E3) as (L3 & _ & A3).
  destruct (report_frame _ _ _ _ _ E4) as (L4 & _ & A4).
  assert (Hloss : af_loss af' = (if add then af_loss af + w * l
                                 else af_loss af)) by congruence.
  destruct (protocol_of s') eqn:Eproto;
    cbn [uses_bkg uses_cce terms app mapM] in *.
  - destruct A4 as (vc & Hvc & A4). rewrite Hterm in Hvc by (now left).
    inversion Hvc; subst vc. eexists. split; [exact Hl|].
    split; [exact Hloss|]. rewrite A4.
    change ("TrD_" ++ "cce") with "TrD_cce".
    rewrite lookup_dict_set_same. split; [reflexivity|].
    rewrite Hlg. unfold grand_total, term_total.
    cbn [terms uses_bkg uses_cce app flat_map map channels fold_left].
    ring.
  - destruct A3 as (vb & Hvb & A3). rewrite Hterm in Hvb by (now left).
    inversion Hvb; subst vb. eexists. split; [exact Hl|].
    split; [exact Hloss|]. rewrite A4, A3.
    change ("TrD_" ++ "bkg") with "TrD_bkg".
    rewrite lookup_dict_set_same. split; [reflexivity|].
    rewrite Hlg. unfold grand_total, term_total.
    cbn [terms uses_bkg uses_cce app flat_map map channels fold_left].
    ring.
  - destruct A3 as (vb & Hvb & A3). rewrite Hterm in Hvb by (now left).
    destruct A4 as (vc & Hvc & A4).
    rewrite Hterm in Hvc by (right; now left).
    inversion Hvb; subst vb. inversion Hvc; subst vc.
    eexists. split; [exact Hl|]. split; [exact Hloss|].
    rewrite A4, A3.
    change ("TrD_" ++ "bkg") with "TrD_bkg".
    change ("TrD_" ++ "cce") with "TrD_cce".
    rewrite lookup_dict_set_other by discriminate.
    rewrite !lookup_dict_set_same. split; [reflexivity|].
    rewrite Hlg. unfold grand_total, term_total.
    cbn [terms uses_bkg uses_cce app flat_map map channels fold_left].
    ring.
Qed.

End Accounting.

Section AccountingRuns.

Import GeometryBinner PyTree Arrays SequenceRelaxer LossComposer.
Import DesignSession ChannelNames Callback Examples CallbackExamples.
Local Open Scope R_scope.
Local Open Scope string_scope.

Lemma run_loss_is_weighted_breakdown_witness :
  exists l ax,
    _loss (fst (run (toy_session 3 true) (plain_args true))) = Some l /\
    _aux (fst (run (toy_session 3 true) (plain_args true))) = Some ax /\
    weighted_total (losses ax) unit_weights = Some l.
Proof.
  exact (@run_loss_is_weighted_breakdown toy_jax (toy_session 3 true)
           (plain_args true)
           (fst (run (toy_session 3 true) (plain_args true))) eq_refl).
Defined.

Lemma callback_reports_add_up_witness :
  exists l parts,
    _loss (fst (fst (callback 1 true (toy_session 1 true) fresh_af))) =
    Some l /\
    af_loss (snd (fst (callback 1 true (toy_session 1 true) fresh_af))) =
    0 + 1 * l /\
    mapM (fun k =>
            lookup ("TrD_" ++ k)
              (af_aux_losses
                 (snd (fst (callback 1 true (toy_session 1 true)
                              fresh_af)))))
         ["cce"] = Some parts /\
    fold_left Rplus parts 0 = l.
Proof.
  assert (E : callback 1 true (toy_session 1 true) fresh_af =
              (fst (fst (callback 1 true (toy_session 1 true) fresh_af)),
               snd (fst (callback 1 true (toy_session 1 true) fresh_af)),
               Returned)).
  { unfold callback, after_run, positive.
    destruct (Rlt_dec 0 1) as [_|H]; [reflexivity|exfalso; lra]. }
  exact (@callback_reports_add_up toy_jax 1 true (toy_session 1 true)
           fresh_af _ _ E).
Defined.

Lemma nonpositive_weight_is_forward_only_witness :
  af_grad_seq (snd (fst (callback 0 true (toy_session 1 true) fresh_af))) =
  af_grad_seq fresh_af.
Proof.
  assert (E : callback 0 true (toy_session 1 true) fresh_af =
              (fst (fst (callback 0 true (toy_session 1 true) fresh_af)),
               snd (fst (callback 0 true (toy_session 1 true) fresh_af)),
               snd (callback 0 true (toy_session 1 true) fresh_af))).
  { now destruct (callback 0 true (toy_session 1 true) fresh_af)
      as [[s' af'] r]. }
  exact (proj1 (@nonpositive_weight_is_forward_only toy_jax 0 true
                  (toy_session 1 true) fresh_af _ _ _ ltac:(lra) E)).
Defined.

End AccountingRuns.
